(** * Prefetch-and-render cache of the blog: a shallow embedding

    The development follows the JavaScript sources of the repository:

    - [prefetch-static.js]   class [StaticPrefetcher]  (module [StaticPrefetcher]);
    - [prefetch.js]          class [ArticlePrefetcher] (module [ArticlePrefetcher]);
    - the prerender draft of [prefetch.js] whose cache is a hidden DOM
      container (module [PrerenderDraft]);
    - the render draft of [prefetch.js] whose cache is [htmlCache] and which
      uses [MarkdownRenderer.renderFile] of [markdown-renderer.js]
      (module [RenderDraft]);
    - the generator draft of [prefetch.js], which reads
      [window.articleNavigator] (module [GeneratorDraft]);
    - [cardconstructor.js]   [createCard], [renderCards]
      (module [CardConstructor]);
    - [markdown-renderer.js] [ArticleNavigator.loadArticle] and the methods
      it calls (module [ArticleNavigator]);
    - the click listener that the render draft installs in [hijackClicks],
      with [ArticleNavigator.init] (module [HijackClicks]);
    - [build.js]             [BlogBuilder.escape] (module [BlogBuilder]).

    JavaScript runs one task at a time.  An [async] method runs synchronously
    up to its first [await]; what remains is a suspended task that the event
    loop resumes when the awaited promise settles.  Each model therefore has
    the fields of the object, the part of the host it talks to (live
    [setTimeout] handles, suspended tasks, the clock, a log of the calls to
    [fetch]) and one [step] per event the host can deliver. *)

From Stdlib Require Import Ascii.
From stdpp Require Import gmap strings list fin_maps.

Open Scope Z_scope.

(** ** Values shared by the models *)

(** The [priority] option passed to [fetch]. *)
Inductive priority := high | low.

#[global] Instance priority_eq_dec : EqDecision priority.
Proof. solve_decision. Defined.

(** What [await fetch(url)] resumes with: the promise rejects (network
    error) or resolves to a response whose [ok] flag is set or not. *)
Inductive response :=
  | NetworkError
  | Http (ok : bool).

#[global] Instance response_eq_dec : EqDecision response.
Proof. solve_decision. Defined.

(** The two suspension points of a prefetch: [await fetch(...)] and
    [await response.text()]. *)
Inductive stage := AwaitFetch | AwaitText.

(** A suspended call of the asynchronous prefetch method. *)
Record task := Task { task_url : string; task_stage : stage }.

(** A live [setTimeout] handle of the hover scheduler; the callback closes
    over the identifier. *)
Record timer := Timer { timer_deadline : nat; timer_url : string }.

(** What [document.querySelector] does with a selector that the code builds
    around a slug: it returns (an element or [null]), or the slug makes the
    selector invalid (a slug with a double quote, as a rule) and the call
    throws a [SyntaxError]. *)
Inductive query := QueryReturns | QueryThrows.

(** ** The connection gate *)

Module Connection.

(** [navigator.connection.effectiveType] *)
Inductive effective_type := slow_2g | _2g | _3g | _4g.

Definition to_string (t : effective_type) : string :=
  match t with
  | slow_2g => "slow-2g"
  | _2g => "2g"
  | _3g => "3g"
  | _4g => "4g"
  end.

(** The tiers in increasing quality. *)
Definition tier (t : effective_type) : nat :=
  match t with
  | slow_2g => 0
  | _2g => 1
  | _3g => 2
  | _4g => 3
  end.

(** [navigator.connection]; [effectiveType] is [undefined] in browsers
    that have the object without that property. *)
Record connection := {
  saveData : bool;
  effectiveType : option effective_type
}.

(** [c.effectiveType === name] *)
Definition effectiveType_is (c : connection) (name : string) : bool :=
  match effectiveType c with
  | Some t => bool_decide (to_string t = name)
  | None => false
  end.

(** [navigator]: the [connection] property is missing in browsers without
    the Network Information API. *)
Record navigator := { nav_connection : option connection }.

End Connection.

(** ** [prefetch-static.js]: class [StaticPrefetcher] *)

Module StaticPrefetcher.
Import Connection.

(** The parsed document kept in a cache entry: what [navigate] reads of
    it ([doc.title] and [doc.querySelector('main')]). *)
Record document := { doc_title : string; doc_main : option string }.

Record entry := { html : string; doc : document; timestamp : nat }.

(** The fields set by the constructor, then the host: the live
    [setTimeout] handles of the hover scheduler and the next handle, the
    suspended calls of [prefetch] and the next task number, the clock in
    milliseconds, the calls to [fetch] so far with their priority, and the
    calls of [prefetch] made so far by hover timers.  The timers of
    [prefetchVisible] and of the intersection observer, and the 150 ms timer
    that resets the card's style, are not kept: the first two only call
    [prefetch(url, 'low')] (event [Prefetch]), the third touches no field. *)
Record state := mkState {
  prefetched : gset string;
  cache : gmap string entry;
  hoverTimers : gmap string nat;
  prefetchQueue : list string;
  activePrefetches : Z;
  (* host *)
  timers : gmap nat timer;
  next_timer : nat;
  tasks : gmap nat task;
  next_task : nat;
  now : nat;
  fetch_log : list (string * priority);
  hover_log : list string
}.

Definition set_prefetched (v : gset string) (s : state) : state :=
  mkState v (cache s) (hoverTimers s) (prefetchQueue s) (activePrefetches s)
    (timers s) (next_timer s) (tasks s) (next_task s) (now s) (fetch_log s)
    (hover_log s).
Definition set_cache (v : gmap string entry) (s : state) : state :=
  mkState (prefetched s) v (hoverTimers s) (prefetchQueue s)
    (activePrefetches s) (timers s) (next_timer s) (tasks s) (next_task s)
    (now s) (fetch_log s) (hover_log s).
Definition set_hoverTimers (v : gmap string nat) (s : state) : state :=
  mkState (prefetched s) (cache s) v (prefetchQueue s) (activePrefetches s)
    (timers s) (next_timer s) (tasks s) (next_task s) (now s) (fetch_log s)
    (hover_log s).
Definition set_prefetchQueue (v : list string) (s : state) : state :=
  mkState (prefetched s) (cache s) (hoverTimers s) v (activePrefetches s)
    (timers s) (next_timer s) (tasks s) (next_task s) (now s) (fetch_log s)
    (hover_log s).
Definition set_activePrefetches (v : Z) (s : state) : state :=
  mkState (prefetched s) (cache s) (hoverTimers s) (prefetchQueue s) v
    (timers s) (next_timer s) (tasks s) (next_task s) (now s) (fetch_log s)
    (hover_log s).
Definition set_timers (v : gmap nat timer) (n : nat) (s : state) : state :=
  mkState (prefetched s) (cache s) (hoverTimers s) (prefetchQueue s)
    (activePrefetches s) v n (tasks s) (next_task s) (now s) (fetch_log s)
    (hover_log s).
Definition set_tasks (v : gmap nat task) (n : nat) (s : state) : state :=
  mkState (prefetched s) (cache s) (hoverTimers s) (prefetchQueue s)
    (activePrefetches s) (timers s) (next_timer s) v n (now s) (fetch_log s)
    (hover_log s).
Definition set_now (v : nat) (s : state) : state :=
  mkState (prefetched s) (cache s) (hoverTimers s) (prefetchQueue s)
    (activePrefetches s) (timers s) (next_timer s) (tasks s) (next_task s)
    v (fetch_log s) (hover_log s).
Definition set_fetch_log (v : list (string * priority)) (s : state) : state :=
  mkState (prefetched s) (cache s) (hoverTimers s) (prefetchQueue s)
    (activePrefetches s) (timers s) (next_timer s) (tasks s) (next_task s)
    (now s) v (hover_log s).
Definition set_hover_log (v : list string) (s : state) : state :=
  mkState (prefetched s) (cache s) (hoverTimers s) (prefetchQueue s)
    (activePrefetches s) (timers s) (next_timer s) (tasks s) (next_task s)
    (now s) (fetch_log s) v.

(** Lines 13-17 of the constructor, on a host with nothing scheduled. *)
Definition init : state :=
  mkState ∅ ∅ ∅ [] 0 ∅ 0%nat ∅ 0%nat 0%nat [] [].

(** [checkConnection()] *)
Definition checkConnection (nav : navigator) : bool :=
  match nav_connection nav with
  | None => true
  | Some c =>
      if saveData c then false
      else if effectiveType_is c "slow-2g" || effectiveType_is c "2g"
      then false
      else true
  end.

(** The events the host delivers to the object: the two hover listeners,
    the passing of time, the firing of a hover timer, a call of [prefetch]
    from outside the hover scheduler ([prefetchURL], [prefetchVisible], the
    intersection observer), and the settling of the two promises a prefetch
    awaits.  An event that is not enabled (a handle or task that does not
    exist, a timer that is not due) leaves the state as it is. *)
Inductive event :=
  | MouseEnter (url : string)
  | MouseLeave (url : string)
  | Elapse (dt : nat)
  | TimerFires (h : nat)
  | Prefetch (url : string) (p : priority)
  | FetchSettles (t : nat) (r : response)
  | TextSettles (t : nat) (r : option string).

#[global] Instance sp_event_eq_dec : EqDecision event.
Proof. solve_decision. Defined.

Section Methods.
(** [this.options.maxConcurrent], [this.options.hoverDelay] and the
    host's [DOMParser]. *)
Variable maxConcurrent : Z.
Variable hoverDelay : nat.
Variable parseFromString : string → document.

(** [prefetch(url, priority)] up to [await fetch(...)]. *)
Definition prefetch (url : string) (p : priority) (s : state) : state :=
  if decide (url ∈ prefetched s) then s
  else if decide (is_Some (cache s !! url)) then s
  else if decide (maxConcurrent ≤ activePrefetches s) then
    if decide (url ∈ prefetchQueue s) then s
    else set_prefetchQueue (prefetchQueue s ++ [url]) s
  else
    let s1 := set_activePrefetches (activePrefetches s + 1) s in
    let s2 := set_prefetched ({[url]} ∪ prefetched s1) s1 in
    let s3 := set_fetch_log (fetch_log s2 ++ [(url, p)]) s2 in
    set_tasks (<[next_task s3 := Task url AwaitFetch]> (tasks s3))
      (S (next_task s3)) s3.

(** [processQueue()]; the call [this.prefetch(url)] takes the default
    priority. *)
Definition processQueue (s : state) : state :=
  match prefetchQueue s with
  | [] => s
  | url :: rest =>
      if decide (maxConcurrent ≤ activePrefetches s) then s
      else prefetch url high (set_prefetchQueue rest s)
  end.

(** The [catch] and [finally] blocks of [prefetch]. *)
Definition catch_block (url : string) (s : state) : state :=
  set_prefetched (prefetched s ∖ {[url]}) s.

Definition finally_block (s : state) : state :=
  processQueue (set_activePrefetches (activePrefetches s - 1) s).

(** The task leaves the host's table when it runs to its end. *)
Definition end_task (t : nat) (s : state) : state :=
  set_tasks (delete t (tasks s)) (next_task s) s.

(** Resumption after [await fetch(...)]: a response that is not [ok]
    throws, an [ok] response suspends again on [response.text()]. *)
Definition fetch_settles (t : nat) (r : response) (s : state) : state :=
  match tasks s !! t with
  | Some (Task url AwaitFetch) =>
      match r with
      | Http true =>
          set_tasks (<[t := Task url AwaitText]> (tasks s)) (next_task s) s
      | _ => finally_block (catch_block url (end_task t s))
      end
  | _ => s
  end.

(** Resumption after [await response.text()]: parse, [cache.set], then
    [finally]. *)
Definition text_settles (t : nat) (r : option string) (s : state) : state :=
  match tasks s !! t with
  | Some (Task url AwaitText) =>
      match r with
      | Some h =>
          let s1 := end_task t s in
          finally_block
            (set_cache (<[url := {| html := h; doc := parseFromString h;
                                    timestamp := now s1 |}]> (cache s1)) s1)
      | None => finally_block (catch_block url (end_task t s))
      end
  | _ => s
  end.

(** [scheduleHoverPrefetch(url, article)] *)
Definition scheduleHoverPrefetch (url : string) (s : state) : state :=
  if decide (is_Some (hoverTimers s !! url)) then s
  else
    let h := next_timer s in
    let s1 := set_timers (<[h := Timer (now s + hoverDelay) url]> (timers s))
                (S h) s in
    set_hoverTimers (<[url := h]> (hoverTimers s1)) s1.

(** The [mouseleave] listener of [setupHoverPrefetch]. *)
Definition mouseleave (url : string) (s : state) : state :=
  match hoverTimers s !! url with
  | Some h =>
      let s1 := set_timers (delete h (timers s)) (next_timer s) s in
      set_hoverTimers (delete url (hoverTimers s1)) s1
  | None => s
  end.

(** The callback given to [setTimeout] in [scheduleHoverPrefetch]; the
    host runs it once, not before the deadline. *)
Definition timer_fires (h : nat) (s : state) : state :=
  match timers s !! h with
  | Some (Timer d url) =>
      if decide (d ≤ now s)%nat then
        let s1 := set_timers (delete h (timers s)) (next_timer s) s in
        let s2 := set_hover_log (hover_log s1 ++ [url]) s1 in
        let s3 := prefetch url high s2 in
        set_hoverTimers (delete url (hoverTimers s3)) s3
      else s
  | None => s
  end.

(** [clearCache()] *)
Definition clearCache (s : state) : state :=
  set_prefetched ∅ (set_cache ∅ s).

Definition step (s : state) (e : event) : state :=
  match e with
  | MouseEnter url => scheduleHoverPrefetch url s
  | MouseLeave url => mouseleave url s
  | Elapse dt => set_now (now s + dt)%nat s
  | TimerFires h => timer_fires h s
  | Prefetch url p => prefetch url p s
  | FetchSettles t r => fetch_settles t r s
  | TextSettles t r => text_settles t r s
  end.

Definition run (s : state) (evs : list event) : state := foldl step s evs.

(** Time that passes during a list of events. *)
Definition elapsed (evs : list event) : nat :=
  foldr (λ e n, match e with Elapse dt => (dt + n)%nat | _ => n end) 0%nat evs.

(** An event that ends a task: a rejected or not-[ok] fetch, or the
    settling of [response.text()]. *)
Definition completes (s : state) (e : event) : Prop :=
  match e with
  | FetchSettles t r =>
      (∃ url, tasks s !! t = Some (Task url AwaitFetch)) ∧ r ≠ Http true
  | TextSettles t r => ∃ url, tasks s !! t = Some (Task url AwaitText)
  | _ => False
  end.

(** An event that ends a task by the [catch] block. *)
Definition fails (s : state) (e : event) (url : string) : Prop :=
  match e with
  | FetchSettles t r => tasks s !! t = Some (Task url AwaitFetch) ∧ r ≠ Http true
  | TextSettles t r => tasks s !! t = Some (Task url AwaitText) ∧ r = None
  | _ => False
  end.

(** *** Invariants of the reachable states *)

(** The admission bookkeeping: the counter is the number of suspended
    tasks, a suspended identifier is marked prefetched and not cached, no
    identifier is suspended twice, a queued identifier is neither marked
    nor cached, and the queue has no duplicate. *)
Record wf_core (s : state) : Prop := {
  wf_active : activePrefetches s = Z.of_nat (size (tasks s));
  wf_task_fresh : ∀ t, is_Some (tasks s !! t) → (t < next_task s)%nat;
  wf_task_marked : ∀ t k, tasks s !! t = Some k →
    task_url k ∈ prefetched s ∧ cache s !! task_url k = None;
  wf_task_inj : ∀ t1 t2 k1 k2, tasks s !! t1 = Some k1 →
    tasks s !! t2 = Some k2 → task_url k1 = task_url k2 → t1 = t2;
  wf_queue_fresh : ∀ u, u ∈ prefetchQueue s →
    (u ∉ prefetched s) ∧ cache s !! u = None;
  wf_queue_nodup : NoDup (prefetchQueue s)
}.

(** Requests wait only while the slots are taken ([slack] is 1 between the
    decrement of [finally] and its call of [processQueue]). *)
Definition queue_sat (slack : Z) (s : state) : Prop :=
  prefetchQueue s ≠ [] → maxConcurrent ≤ activePrefetches s + slack.

(** [hoverTimers] and the host's live handles describe each other. *)
Record wf_hover (s : state) : Prop := {
  wf_timer_fresh : ∀ h, is_Some (timers s !! h) → (h < next_timer s)%nat;
  wf_hover_timer : ∀ u h, hoverTimers s !! u = Some h →
    ∃ d, timers s !! h = Some (Timer d u);
  wf_timer_hover : ∀ h d u, timers s !! h = Some (Timer d u) →
    hoverTimers s !! u = Some h
}.

Definition wf (s : state) : Prop := wf_core s ∧ queue_sat 0 s ∧ wf_hover s.

End Methods.


(** The number of calls to [fetch] for an identifier so far. *)
Definition fetches (url : string) (s : state) : nat :=
  length (filter (λ x, x.1 = url) (fetch_log s)).

(** What the hover scheduler owns of the state. *)
Definition hover_part (s : state)
    : gmap string nat * gmap nat timer * nat * nat * list string :=
  (hoverTimers s, timers s, next_timer s, now s, hover_log s).

(** Every live timer of [url] is due at [T] or later. *)
Definition due_from (url : string) (T : nat) (s : state) : Prop :=
  ∀ h d, timers s !! h = Some (Timer d url) → (T ≤ d)%nat.

(** A parser for the examples: the text is the content of [main] and the
    title is empty. *)
Definition sample_parse (h : string) : document :=
  {| doc_title := EmptyString; doc_main := Some h |}.

(** *** Instant navigation *)

(** What [navigate] touches of the displayed page: the [main] element (if
    the page has one), the title, the session history, the scroll offset and
    the full page loads started by assigning [window.location.href]. *)
Record page := {
  page_main : option string;
  page_title : string;
  history : list string;
  scroll_top : nat;
  page_loads : list string
}.

(** [navigate(url)] *)
Definition navigate (url : string) (s : state) (pg : page) : state * page :=
  match cache s !! url with
  | Some cached =>
      match doc_main (doc cached), page_main pg with
      | Some newMain, Some _ =>
          (s, {| page_main := Some newMain;
                 page_title := doc_title (doc cached);
                 history := history pg ++ [url];
                 scroll_top := 0;
                 page_loads := page_loads pg |})
      | _, _ => (s, pg)
      end
  | None =>
      (s, {| page_main := page_main pg;
             page_title := page_title pg;
             history := history pg;
             scroll_top := scroll_top pg;
             page_loads := page_loads pg ++ [url] |})
  end.

(** *** The public API: [clearCache] and [getCacheStats] *)

(** What reaches the object: an event of the host, or a call of
    [clearCache()] from the page. *)
Inductive call :=
  | Deliver (e : event)
  | ClearCache.

Section Api.
Variable maxConcurrent : Z.
Variable hoverDelay : nat.
Variable parseFromString : string → document.

Definition api_step (s : state) (c : call) : state :=
  match c with
  | Deliver e => step maxConcurrent hoverDelay parseFromString s e
  | ClearCache => clearCache s
  end.

Definition api_run (s : state) (cs : list call) : state := foldl api_step s cs.

End Api.

(** The slot counter is the number of suspended calls, and task numbers
    are fresh. *)
Definition counted (s : state) : Prop :=
  activePrefetches s = Z.of_nat (size (tasks s)) ∧
  ∀ t, is_Some (tasks s !! t) → (t < next_task s)%nat.

(** An identifier is marked prefetched exactly when it is cached or in
    flight. *)
Definition bookkeeping (s : state) : Prop :=
  ∀ u, u ∈ prefetched s ↔
       is_Some (cache s !! u) ∨ ∃ t st, tasks s !! t = Some (Task u st).

(** The sizes of the three collections add up. *)
Definition ledger (s : state) : Prop :=
  Z.of_nat (size (prefetched s)) =
    Z.of_nat (size (cache s)) + Z.of_nat (size (tasks s)).

(** The object returned by [getCacheStats()]. *)
Record stats := {
  stats_cached : nat;
  stats_prefetched : nat;
  stats_queueLength : nat;
  stats_active : Z
}.

(** [getCacheStats()] *)
Definition getCacheStats (s : state) : stats :=
  {| stats_cached := size (cache s);
     stats_prefetched := size (prefetched s);
     stats_queueLength := length (prefetchQueue s);
     stats_active := activePrefetches s |}.

(** *** [extractURL]: the match of its regular expression, which reads: a
    quote (single or double), then the captured group, one or more
    characters that are not quotes followed by [.html], then a quote. *)

Definition dquote_char : ascii := Ascii.ascii_of_nat 34.

(** The class of the two quote characters. *)
Definition is_quote (c : ascii) : bool :=
  bool_decide (c = "'"%char) || bool_decide (c = dquote_char).

Definition dot_html : list ascii := String.list_ascii_of_string ".html".

(** The negated class with [+] is greedy: the number of characters it
    takes at first. *)
Fixpoint class_run (s : list ascii) : nat :=
  match s with
  | c :: r => if is_quote c then 0%nat else S (class_run r)
  | [] => 0%nat
  end.

(** What follows the class: [\.html], then a quote. *)
Definition rest_matches (s : list ascii) : bool :=
  bool_decide (take 5 s = dot_html)
  && match drop 5 s with
     | c :: _ => is_quote c
     | [] => false
     end.

(** The class gives characters back one at a time, down to one character;
    the result is the captured group. *)
Fixpoint backtrack (k : nat) (s : list ascii) : option (list ascii) :=
  match k with
  | O => None
  | S k' =>
      if rest_matches (drop k s) then Some (take k s ++ dot_html)
      else backtrack k' s
  end.

(** A match that starts at the head of [s]. *)
Definition match_at (s : list ascii) : option (list ascii) :=
  match s with
  | c :: r => if is_quote c then backtrack (class_run r) r else None
  | [] => None
  end.

(** The leftmost match. *)
Fixpoint search (s : list ascii) : option (list ascii) :=
  match match_at s with
  | Some m => Some m
  | None =>
      match s with
      | _ :: r => search r
      | [] => None
      end
  end.

(** [extractURL(article)], given [article.getAttribute('onclick')]. *)
Definition extractURL (onclick : option string) : option string :=
  match onclick with
  | None => None
  | Some a =>
      if bool_decide (a = EmptyString) then None
      else String.string_of_list_ascii <$> search (String.list_ascii_of_string a)
  end.

End StaticPrefetcher.


(** ** [prefetch.js]: class [ArticlePrefetcher] *)

Module ArticlePrefetcher.
Import Connection.

(** The fields set by the constructor, then the host: the live hover
    timers, the calls suspended inside [prefetchWithFetch], the clock, the
    calls to [fetch] and the [link rel=prefetch] elements appended to the
    document head. *)
Record state := mkState {
  prefetchedUrls : gset string;
  prefetchQueue : list string;
  activePrefetches : Z;
  hoverTimers : gmap string nat;
  (* host *)
  timers : gmap nat timer;
  next_timer : nat;
  tasks : gmap nat task;
  next_task : nat;
  now : nat;
  fetch_log : list (string * priority);
  links : list string;
  hover_log : list string
}.

Definition set_prefetchedUrls (v : gset string) (s : state) : state :=
  mkState v (prefetchQueue s) (activePrefetches s) (hoverTimers s) (timers s)
    (next_timer s) (tasks s) (next_task s) (now s) (fetch_log s) (links s)
    (hover_log s).
Definition set_prefetchQueue (v : list string) (s : state) : state :=
  mkState (prefetchedUrls s) v (activePrefetches s) (hoverTimers s) (timers s)
    (next_timer s) (tasks s) (next_task s) (now s) (fetch_log s) (links s)
    (hover_log s).
Definition set_activePrefetches (v : Z) (s : state) : state :=
  mkState (prefetchedUrls s) (prefetchQueue s) v (hoverTimers s) (timers s)
    (next_timer s) (tasks s) (next_task s) (now s) (fetch_log s) (links s)
    (hover_log s).
Definition set_hoverTimers (v : gmap string nat) (s : state) : state :=
  mkState (prefetchedUrls s) (prefetchQueue s) (activePrefetches s) v
    (timers s) (next_timer s) (tasks s) (next_task s) (now s) (fetch_log s)
    (links s) (hover_log s).
Definition set_timers (v : gmap nat timer) (n : nat) (s : state) : state :=
  mkState (prefetchedUrls s) (prefetchQueue s) (activePrefetches s)
    (hoverTimers s) v n (tasks s) (next_task s) (now s) (fetch_log s)
    (links s) (hover_log s).
Definition set_tasks (v : gmap nat task) (n : nat) (s : state) : state :=
  mkState (prefetchedUrls s) (prefetchQueue s) (activePrefetches s)
    (hoverTimers s) (timers s) (next_timer s) v n (now s) (fetch_log s)
    (links s) (hover_log s).
Definition set_now (v : nat) (s : state) : state :=
  mkState (prefetchedUrls s) (prefetchQueue s) (activePrefetches s)
    (hoverTimers s) (timers s) (next_timer s) (tasks s) (next_task s) v
    (fetch_log s) (links s) (hover_log s).
Definition set_fetch_log (v : list (string * priority)) (s : state) : state :=
  mkState (prefetchedUrls s) (prefetchQueue s) (activePrefetches s)
    (hoverTimers s) (timers s) (next_timer s) (tasks s) (next_task s) (now s)
    v (links s) (hover_log s).
Definition set_links (v : list string) (s : state) : state :=
  mkState (prefetchedUrls s) (prefetchQueue s) (activePrefetches s)
    (hoverTimers s) (timers s) (next_timer s) (tasks s) (next_task s) (now s)
    (fetch_log s) v (hover_log s).
Definition set_hover_log (v : list string) (s : state) : state :=
  mkState (prefetchedUrls s) (prefetchQueue s) (activePrefetches s)
    (hoverTimers s) (timers s) (next_timer s) (tasks s) (next_task s) (now s)
    (fetch_log s) (links s) v.

Definition init : state :=
  mkState ∅ [] 0 ∅ ∅ 0%nat ∅ 0%nat 0%nat [] [] [].

(** [checkConnection()] *)
Definition checkConnection (nav : navigator) : bool :=
  match nav_connection nav with
  | None => true
  | Some connection =>
      if saveData connection then false
      else if effectiveType_is connection "slow-2g"
              || effectiveType_is connection "2g"
      then false
      else true
  end.

(** The events of the host.  A [mouseleave] on a card is [MouseLeave] when
    the call of [document.querySelector] in its listener returns, and
    [MouseLeaveThrows] when that call throws. *)
Inductive event :=
  | MouseEnter (slug : string)
  | MouseLeave (slug : string)
  | TouchStart (slug : string)
  | Elapse (dt : nat)
  | TimerFires (h : nat)
  | FetchSettles (t : nat) (r : response)
  | TextSettles (t : nat) (ok : bool)
  | PrefetchAll (cards : list string)
  | MouseLeaveThrows (slug : string).

#[global] Instance ap_event_eq_dec : EqDecision event.
Proof. solve_decision. Defined.

Section Methods.
(** [this.options.maxConcurrentPrefetch], [this.options.prefetchDelay] and
    whether [relList.supports('prefetch')] holds in the browser. *)
Variable maxConcurrentPrefetch : Z.
Variable prefetchDelay : nat.
Variable supportsPrefetch : bool.

Definition articleUrl (slug : string) : string :=
  "./articles/" +:+ slug +:+ "/index.html".

(** [prefetchWithLink(url)] *)
Definition prefetchWithLink (url : string) (s : state) : state :=
  set_links (links s ++ [url]) s.

(** [processQueue()], given the method it calls. *)
Definition processQueue_with (prefetchArticle : string → state → option state)
    (s : state) : option state :=
  match prefetchQueue s with
  | [] => Some s
  | slug :: rest =>
      if decide (maxConcurrentPrefetch ≤ activePrefetches s) then Some s
      else prefetchArticle slug (set_prefetchQueue rest s)
  end.

(** [prefetchArticle(slug)] up to its first [await].  With link prefetch
    the call runs to its end, [finally] included, and [processQueue] calls
    the method again: the recursion is bounded by the length of the queue,
    here by [fuel] ([None] when it runs out). *)
Fixpoint prefetchArticle_fuel (fuel : nat) (slug : string) (s : state)
    : option state :=
  match fuel with
  | O => None
  | S fuel' =>
      if decide (slug ∈ prefetchedUrls s) then Some s
      else if decide (maxConcurrentPrefetch ≤ activePrefetches s) then
        Some (set_prefetchQueue (prefetchQueue s ++ [slug]) s)
      else
        let s1 := set_activePrefetches (activePrefetches s + 1) s in
        let s2 := set_prefetchedUrls ({[slug]} ∪ prefetchedUrls s1) s1 in
        if supportsPrefetch then
          let s3 := prefetchWithLink (articleUrl slug) s2 in
          (* finally *)
          let s4 := set_activePrefetches (activePrefetches s3 - 1) s3 in
          processQueue_with (prefetchArticle_fuel fuel') s4
        else
          (* await this.prefetchWithFetch(articleUrl) *)
          let s3 := set_fetch_log (fetch_log s2 ++ [(articleUrl slug, low)]) s2 in
          Some (set_tasks (<[next_task s3 := Task slug AwaitFetch]> (tasks s3))
                  (S (next_task s3)) s3)
  end.

(** Fuel for one more call than the queue is long always suffices (lemma
    [ap_prefetchArticle_total]). *)
Definition prefetchArticle (slug : string) (s : state) : state :=
  default s (prefetchArticle_fuel (S (length (prefetchQueue s))) slug s).

Definition processQueue (s : state) : state :=
  default s
    (processQueue_with (prefetchArticle_fuel (length (prefetchQueue s))) s).

Definition catch_block (slug : string) (s : state) : state :=
  set_prefetchedUrls (prefetchedUrls s ∖ {[slug]}) s.

Definition finally_block (s : state) : state :=
  processQueue (set_activePrefetches (activePrefetches s - 1) s).

Definition end_task (t : nat) (s : state) : state :=
  set_tasks (delete t (tasks s)) (next_task s) s.

(** Resumption inside [prefetchWithFetch] after [await fetch(...)]. *)
Definition fetch_settles (t : nat) (r : response) (s : state) : state :=
  match tasks s !! t with
  | Some (Task slug AwaitFetch) =>
      match r with
      | Http true =>
          set_tasks (<[t := Task slug AwaitText]> (tasks s)) (next_task s) s
      | _ => finally_block (catch_block slug (end_task t s))
      end
  | _ => s
  end.

(** Resumption after [await clone.text()]. *)
Definition text_settles (t : nat) (ok : bool) (s : state) : state :=
  match tasks s !! t with
  | Some (Task slug AwaitText) =>
      if ok then finally_block (end_task t s)
      else finally_block (catch_block slug (end_task t s))
  | _ => s
  end.

(** [clearTimeout(this.hoverTimers.get(slug))] when the map has the key. *)
Definition clear_existing (slug : string) (s : state) : state :=
  match hoverTimers s !! slug with
  | Some h => set_timers (delete h (timers s)) (next_timer s) s
  | None => s
  end.

(** [handleMouseEnter(slug, card)] *)
Definition handleMouseEnter (slug : string) (s : state) : state :=
  let s0 := clear_existing slug s in
  let h := next_timer s0 in
  let s1 := set_timers (<[h := Timer (now s0 + prefetchDelay) slug]> (timers s0))
              (S h) s0 in
  set_hoverTimers (<[slug := h]> (hoverTimers s1)) s1.

(** [handleMouseLeave(slug)], given what its first statement does, the
    call of [document.querySelector] with the attribute selector for
    [data-slug] built around the slug: when it throws, the method ends
    there, before the timer is looked at.
    Resetting the card's style is not modelled. *)
Definition handleMouseLeave (card : query) (slug : string) (s : state)
    : state :=
  match card with
  | QueryThrows => s
  | QueryReturns =>
      match hoverTimers s !! slug with
      | Some h =>
          let s1 := set_timers (delete h (timers s)) (next_timer s) s in
          set_hoverTimers (delete slug (hoverTimers s1)) s1
      | None => s
      end
  end.

(** The callback given to [setTimeout] in [handleMouseEnter]. *)
Definition timer_fires (h : nat) (s : state) : state :=
  match timers s !! h with
  | Some (Timer d slug) =>
      if decide (d ≤ now s)%nat then
        let s1 := set_timers (delete h (timers s)) (next_timer s) s in
        let s2 := set_hover_log (hover_log s1 ++ [slug]) s1 in
        let s3 := prefetchArticle slug s2 in
        set_hoverTimers (delete slug (hoverTimers s3)) s3
      else s
  | None => s
  end.

(** [prefetchAll()], given the slugs of the cards in the page. *)
Definition prefetchAll (cards : list string) (s : state) : state :=
  processQueue (set_prefetchQueue (prefetchQueue s ++ cards) s).

Definition step (s : state) (e : event) : state :=
  match e with
  | MouseEnter slug => handleMouseEnter slug s
  | MouseLeave slug => handleMouseLeave QueryReturns slug s
  | TouchStart slug => prefetchArticle slug s
  | Elapse dt => set_now (now s + dt)%nat s
  | TimerFires h => timer_fires h s
  | FetchSettles t r => fetch_settles t r s
  | TextSettles t ok => text_settles t ok s
  | PrefetchAll cards => prefetchAll cards s
  | MouseLeaveThrows slug => handleMouseLeave QueryThrows slug s
  end.

Definition run (s : state) (evs : list event) : state := foldl step s evs.

Definition elapsed (evs : list event) : nat :=
  foldr (λ e n, match e with Elapse dt => (dt + n)%nat | _ => n end) 0%nat evs.

End Methods.

(** [hoverTimers] and the host's live handles describe each other. *)
Record wf_hover (s : state) : Prop := {
  wf_timer_fresh : ∀ h, is_Some (timers s !! h) → (h < next_timer s)%nat;
  wf_hover_timer : ∀ u h, hoverTimers s !! u = Some h →
    ∃ d, timers s !! h = Some (Timer d u);
  wf_timer_hover : ∀ h d u, timers s !! h = Some (Timer d u) →
    hoverTimers s !! u = Some h
}.

(** What the hover scheduler owns of the state. *)
Definition hover_part (s : state)
    : gmap string nat * gmap nat timer * nat * nat * list string :=
  (hoverTimers s, timers s, next_timer s, now s, hover_log s).

(** Every live timer of [slug] is due at [T] or later. *)
Definition due_from (slug : string) (T : nat) (s : state) : Prop :=
  ∀ h d, timers s !! h = Some (Timer d slug) → (T ≤ d)%nat.

(** [clear()]: every handle in [hoverTimers] is passed to [clearTimeout].
    [activePrefetches] is not reset. *)
Definition clear (s : state) : state :=
  let s1 := set_prefetchedUrls ∅ s in
  let s2 := set_prefetchQueue [] s1 in
  let s3 := set_timers
              (map_fold (λ _ h live, delete h live) (timers s2) (hoverTimers s2))
              (next_timer s2) s2 in
  set_hoverTimers ∅ s3.

(** The slot counter is the number of suspended calls, and task numbers
    are fresh. *)
Definition counted (s : state) : Prop :=
  activePrefetches s = Z.of_nat (size (tasks s)) ∧
  ∀ t, is_Some (tasks s !! t) → (t < next_task s)%nat.

(** With link prefetch no call is ever suspended: the prefetched slugs are
    the slugs of the [link] elements, one element each. *)
Definition link_only (s : state) : Prop :=
  tasks s = ∅ ∧ activePrefetches s = 0 ∧ fetch_log s = [] ∧
  NoDup (links s) ∧
  ∀ slug, articleUrl slug ∈ links s ↔ slug ∈ prefetchedUrls s.

End ArticlePrefetcher.


(** ** The prerender draft of [prefetch.js]: the hidden container *)

Module PrerenderDraft.

(** A call returns, or [querySelector] throws a [SyntaxError]. *)
Inductive result (A : Type) :=
  | Done (a : A)
  | SyntaxError.
Arguments Done {A} a.
Arguments SyntaxError {A}.

(** [this.prerenderContainer]: [null], or the wrapper elements appended to
    the hidden container, each with its [data-slug] and the markup assigned
    to its [innerHTML], in document order. *)
Definition container := option (list (string * string)).

(** An element below the container: the wrapper at some index, or the
    element at some place inside the content of that wrapper. *)
Inductive position :=
  | AtWrapper (i : nat)
  | Inside (i place : nat).

Definition shift (pos : position) : position :=
  match pos with
  | AtWrapper i => AtWrapper (S i)
  | Inside i place => Inside (S i) place
  end.

(** The slugs that the selector of [getPrerendered] quotes as they are: a
    double quote ends the string of the selector, a backslash starts an
    escape, and a line break or a null character is not allowed in it. *)
Definition quotable (slug : string) : bool :=
  forallb
    (λ c, negb (bool_decide
                  (c ∈ [StaticPrefetcher.dquote_char; Ascii.ascii_of_nat 92;
                        Ascii.ascii_of_nat 10; Ascii.ascii_of_nat 13;
                        Ascii.ascii_of_nat 12; Ascii.ascii_of_nat 0])))
    (String.list_ascii_of_string slug).

(** The wrappers without the first wrapper of the slug. *)
Fixpoint remove_first (slug : string) (wrappers : list (string * string))
    : list (string * string) :=
  match wrappers with
  | [] => []
  | w :: rest =>
      if decide (w.1 = slug) then rest else w :: remove_first slug rest
  end.

(** The calls that change the container. *)
Inductive call :=
  | PrerenderArticle (slug htmlContent : string)
  | Clear.

Section Dom.
(** The host.  The parser: [inner_slug h slug] is the place of the first
    element with that [data-slug] inside the markup [h] once parsed, if
    there is one; [inner_markup h place] is the [innerHTML] of the element at
    a place, and [inner_remove h place] the markup left when it is removed.
    The selector engine: [odd_selector slug wrappers] is what
    [querySelector] does with the selector built around a slug that is not
    quotable. *)
Variable inner_slug : string → string → option nat.
Variable inner_markup : string → nat → string.
Variable inner_remove : string → nat → string.
Variable odd_selector : string → list (string * string) → result (option position).

(** The first element with the [data-slug] in document order: a wrapper
    comes before the elements inside it, and these before the next
    wrapper. *)
Fixpoint first_match (slug : string) (wrappers : list (string * string))
    : option position :=
  match wrappers with
  | [] => None
  | w :: rest =>
      if decide (w.1 = slug) then Some (AtWrapper 0)
      else
        match inner_slug w.2 slug with
        | Some place => Some (Inside 0 place)
        | None => shift <$> first_match slug rest
        end
  end.

(** [this.prerenderContainer.querySelector(...)] with the selector built
    around [slug]. *)
Definition querySelector (slug : string) (wrappers : list (string * string))
    : result (option position) :=
  if quotable slug then Done (first_match slug wrappers)
  else odd_selector slug wrappers.

(** The [innerHTML] of the element at a position. *)
Definition markup_at (wrappers : list (string * string)) (pos : position)
    : option string :=
  match pos with
  | AtWrapper i => snd <$> wrappers !! i
  | Inside i place => (λ w, inner_markup w.2 place) <$> wrappers !! i
  end.

(** [getPrerendered(slug)], as the markup of the element it returns; with
    no container the optional chaining gives [null] without a call. *)
Definition getPrerendered (slug : string) (c : container)
    : result (option string) :=
  match c with
  | None => Done None
  | Some wrappers =>
      match querySelector slug wrappers with
      | Done found => Done (found ≫= markup_at wrappers)
      | SyntaxError => SyntaxError
      end
  end.

(** [old.remove()] *)
Definition remove_at (pos : position) (wrappers : list (string * string))
    : list (string * string) :=
  match pos with
  | AtWrapper i => delete i wrappers
  | Inside i place => alter (λ w, (w.1, inner_remove w.2 place)) i wrappers
  end.

(** [prerenderArticle(slug, htmlContent)]: the container afterwards, and
    whether the call returned.  The container is created before
    [getPrerendered] is called. *)
Definition prerenderArticle (slug htmlContent : string) (c : container)
    : container * result unit :=
  let wrappers := default [] c in
  match querySelector slug wrappers with
  | SyntaxError => (Some wrappers, SyntaxError)
  | Done old =>
      let wrappers := match old with
                      | Some pos => remove_at pos wrappers
                      | None => wrappers
                      end in
      (Some (wrappers ++ [(slug, htmlContent)]), Done ())
  end.

(** The part of [clear()] that empties the container:
    [if (this.prerenderContainer) this.prerenderContainer.innerHTML = ...]
    with the empty string. *)
Definition clear (c : container) : container :=
  match c with
  | Some _ => Some []
  | None => None
  end.

Definition api_step (c : container) (op : call) : container :=
  match op with
  | PrerenderArticle slug htmlContent =>
      (prerenderArticle slug htmlContent c).1
  | Clear => clear c
  end.

Definition api_run (c : container) (ops : list call) : container :=
  foldl api_step c ops.

(** A call with a quotable slug and markup that has no element with a
    [data-slug] of its own. *)
Definition plain_call (op : call) : Prop :=
  match op with
  | PrerenderArticle slug htmlContent =>
      quotable slug = true ∧ ∀ other, inner_slug htmlContent other = None
  | Clear => True
  end.

End Dom.

(** The finite map the calls describe: a write binds its slug, [clear]
    forgets every binding. *)
Definition written (ops : list call) : gmap string string :=
  foldl (λ m op, match op with
                 | PrerenderArticle slug htmlContent => <[slug := htmlContent]> m
                 | Clear => ∅
                 end) ∅ ops.

End PrerenderDraft.

(** ** The render draft of [prefetch.js]: [htmlCache] and [renderFile] *)

Module RenderDraft.
Import Connection.

Record state := mkState {
  prefetchedSlugs : gset string;
  htmlCache : gmap string string;
  prefetchQueue : list string;
  activePrefetches : Z;
  renderer : bool;  (* [this.renderer] is set *)
  (* host *)
  tasks : gmap nat task;
  next_task : nat;
  fetch_log : list (string * priority)
}.

Definition set_prefetchedSlugs (v : gset string) (s : state) : state :=
  mkState v (htmlCache s) (prefetchQueue s) (activePrefetches s) (renderer s)
    (tasks s) (next_task s) (fetch_log s).
Definition set_htmlCache (v : gmap string string) (s : state) : state :=
  mkState (prefetchedSlugs s) v (prefetchQueue s) (activePrefetches s)
    (renderer s) (tasks s) (next_task s) (fetch_log s).
Definition set_prefetchQueue (v : list string) (s : state) : state :=
  mkState (prefetchedSlugs s) (htmlCache s) v (activePrefetches s)
    (renderer s) (tasks s) (next_task s) (fetch_log s).
Definition set_activePrefetches (v : Z) (s : state) : state :=
  mkState (prefetchedSlugs s) (htmlCache s) (prefetchQueue s) v (renderer s)
    (tasks s) (next_task s) (fetch_log s).
Definition set_tasks (v : gmap nat task) (n : nat) (s : state) : state :=
  mkState (prefetchedSlugs s) (htmlCache s) (prefetchQueue s)
    (activePrefetches s) (renderer s) v n (fetch_log s).
Definition set_fetch_log (v : list (string * priority)) (s : state) : state :=
  mkState (prefetchedSlugs s) (htmlCache s) (prefetchQueue s)
    (activePrefetches s) (renderer s) (tasks s) (next_task s) v.

(** The state once [checkDependencies] has found [MarkdownRenderer]. *)
Definition init : state := mkState ∅ ∅ [] 0 true ∅ 0%nat [].

(** [checkConnection()] *)
Definition checkConnection (nav : navigator) : bool :=
  match nav_connection nav with
  | None => true
  | Some c =>
      if saveData c then false
      else if effectiveType_is c "slow-2g" || effectiveType_is c "2g"
      then false
      else true
  end.

Inductive event :=
  | Prefetch (slug : string)
  | FetchSettles (t : nat) (r : response)
  | TextSettles (t : nat) (r : option string).

(** The markup [renderFile] returns from its own [catch] block. *)
Definition dquote : string := String (Ascii.ascii_of_nat 34) EmptyString.

Definition error_markup : string :=
  "<p class=" +:+ dquote +:+ "text-red-500" +:+ dquote +:+
  ">Error loading article content.</p>".

Section Methods.
Variable maxConcurrentPrefetch : Z.
(** [MarkdownRenderer.render], a function of the text. *)
Variable render : string → string.

Definition articleMdUrl (slug : string) : string :=
  "./articles/" +:+ slug +:+ "/article.md".

(** [prefetchArticle(slug)] up to the [await]; [renderFile] is entered and
    suspends on its [fetch(url, { priority: 'high' })]. *)
Definition prefetchArticle (slug : string) (s : state) : state :=
  if decide (slug ∈ prefetchedSlugs s) then s
  else if decide (maxConcurrentPrefetch ≤ activePrefetches s) then
    set_prefetchQueue (prefetchQueue s ++ [slug]) s
  else if negb (renderer s) then s
  else
    let s1 := set_activePrefetches (activePrefetches s + 1) s in
    let s2 := set_prefetchedSlugs ({[slug]} ∪ prefetchedSlugs s1) s1 in
    let s3 := set_fetch_log (fetch_log s2 ++ [(articleMdUrl slug, high)]) s2 in
    set_tasks (<[next_task s3 := Task slug AwaitFetch]> (tasks s3))
      (S (next_task s3)) s3.

Definition processQueue (s : state) : state :=
  match prefetchQueue s with
  | [] => s
  | slug :: rest =>
      if decide (maxConcurrentPrefetch ≤ activePrefetches s) then s
      else prefetchArticle slug (set_prefetchQueue rest s)
  end.

Definition catch_block (slug : string) (s : state) : state :=
  set_prefetchedSlugs (prefetchedSlugs s ∖ {[slug]}) s.

Definition finally_block (s : state) : state :=
  processQueue (set_activePrefetches (activePrefetches s - 1) s).

Definition end_task (t : nat) (s : state) : state :=
  set_tasks (delete t (tasks s)) (next_task s) s.

(** How the promise of [renderFile] settles. *)
Inductive settled := Resolved (html : string) | Rejected.

(** [renderFile(url)] after [await fetch(...)]: an [ok] response suspends
    again on [response.text()] ([None]); a rejection or a response that is
    not [ok] ends in the [catch] block of [renderFile], which returns markup. *)
Definition renderFile_after_fetch (r : response) : option settled :=
  match r with
  | Http true => None
  | Http false => Some (Resolved error_markup)
  | NetworkError => Some (Resolved error_markup)
  end.

(** [renderFile(url)] after [await response.text()]. *)
Definition renderFile_after_text (r : option string) : settled :=
  match r with
  | Some markdown => Resolved (render markdown)
  | None => Resolved error_markup
  end.

(** [prefetchArticle] after [await this.renderer.renderFile(...)]. *)
Definition resume (slug : string) (r : settled) (s : state) : state :=
  match r with
  | Resolved html =>
      finally_block (set_htmlCache (<[slug := html]> (htmlCache s)) s)
  | Rejected => finally_block (catch_block slug s)
  end.

Definition fetch_settles (t : nat) (r : response) (s : state) : state :=
  match tasks s !! t with
  | Some (Task slug AwaitFetch) =>
      match renderFile_after_fetch r with
      | None =>
          set_tasks (<[t := Task slug AwaitText]> (tasks s)) (next_task s) s
      | Some settled => resume slug settled (end_task t s)
      end
  | _ => s
  end.

Definition text_settles (t : nat) (r : option string) (s : state) : state :=
  match tasks s !! t with
  | Some (Task slug AwaitText) =>
      resume slug (renderFile_after_text r) (end_task t s)
  | _ => s
  end.

Definition step (s : state) (e : event) : state :=
  match e with
  | Prefetch slug => prefetchArticle slug s
  | FetchSettles t r => fetch_settles t r s
  | TextSettles t r => text_settles t r s
  end.

Definition run (s : state) (evs : list event) : state := foldl step s evs.

End Methods.

(** The books of the render draft: the slot counter counts the suspended
    calls, every article was fetched at most once, the slugs marked
    prefetched are those that were fetched, and each of them is in the
    cache or still in flight. *)
Definition accounted (s : state) : Prop :=
  activePrefetches s = Z.of_nat (size (tasks s)) ∧
  (∀ t, is_Some (tasks s !! t) → (t < next_task s)%nat) ∧
  NoDup (fetch_log s) ∧
  (∀ slug, (articleMdUrl slug, high) ∈ fetch_log s ↔ slug ∈ prefetchedSlugs s) ∧
  (∀ slug, slug ∈ prefetchedSlugs s ↔
     is_Some (htmlCache s !! slug) ∨ ∃ st t, tasks s !! t = Some (Task slug st)).

End RenderDraft.

(** ** The generator draft of [prefetch.js]: [window.articleNavigator] *)

Module GeneratorDraft.

(** The fields set by the constructor that [prefetchArticle] and
    [processQueue] use, then the host: the calls suspended at an [await]
    and the calls to [fetch]. *)
Record state := mkState {
  prefetched : gset string;
  renderCache : gmap string string;
  prefetchQueue : list string;
  activePrefetches : Z;
  (* host *)
  tasks : gmap nat string;
  next_task : nat;
  fetch_log : list string
}.

Definition init : state := mkState ∅ ∅ [] 0 ∅ 0%nat [].

Definition set_prefetchQueue (v : list string) (s : state) : state :=
  mkState (prefetched s) (renderCache s) v (activePrefetches s) (tasks s)
    (next_task s) (fetch_log s).

(** A request for a slug (the timer callback of [onHover]), and the end of
    the [try] block of a suspended call: the markup of the node that is
    cached, or [None] when one of the awaited promises rejects or a
    statement throws. *)
Inductive event :=
  | Request (slug : string)
  | Settles (t : nat) (node : option string).

Section Methods.
(** [this.options.maxConcurrentPrefetch], and [window.articleNavigator]:
    [None] when the global is not set, else its [articlesPath]. *)
Variable maxConcurrentPrefetch : Z.
Variable articleNavigator : option string.

(** [processQueue()], given the method it calls. *)
Definition processQueue_with (prefetchArticle : string → state → option state)
    (s : state) : option state :=
  match prefetchQueue s with
  | [] => Some s
  | slug :: rest =>
      if decide (maxConcurrentPrefetch ≤ activePrefetches s) then Some s
      else prefetchArticle slug (set_prefetchQueue rest s)
  end.

(** [prefetchArticle(slug)] up to its first [await].  Without
    [window.articleNavigator], reading [articleNavigator.renderer] throws a
    [TypeError] before anything is awaited: [catch] and [finally] run at
    once, and [processQueue] calls the method again ([fuel] bounds the
    recursion, [None] when it runs out). *)
Fixpoint prefetchArticle_fuel (fuel : nat) (slug : string) (s : state)
    : option state :=
  match fuel with
  | O => None
  | S fuel' =>
      if decide (slug ∈ prefetched s) then Some s
      else if decide (maxConcurrentPrefetch ≤ activePrefetches s) then
        Some (set_prefetchQueue (prefetchQueue s ++ [slug]) s)
      else
        match articleNavigator with
        | Some articlesPath =>
            (* await fetch(...) *)
            Some (mkState ({[slug]} ∪ prefetched s) (renderCache s)
                    (prefetchQueue s) (activePrefetches s + 1)
                    (<[next_task s := slug]> (tasks s)) (S (next_task s))
                    (fetch_log s
                     ++ [articlesPath +:+ "/" +:+ slug +:+ "/metadata.json"]))
        | None =>
            (* TypeError; catch; finally *)
            processQueue_with (prefetchArticle_fuel fuel')
              (mkState (({[slug]} ∪ prefetched s) ∖ {[slug]}) (renderCache s)
                 (prefetchQueue s) (activePrefetches s + 1 - 1) (tasks s)
                 (next_task s) (fetch_log s))
        end
  end.

Definition prefetchArticle (slug : string) (s : state) : state :=
  default s (prefetchArticle_fuel (S (length (prefetchQueue s))) slug s).

Definition processQueue (s : state) : state :=
  default s
    (processQueue_with (prefetchArticle_fuel (length (prefetchQueue s))) s).

(** The rest of a suspended call: the [try] block ends, then [finally]. *)
Definition settles (t : nat) (node : option string) (s : state) : state :=
  match tasks s !! t with
  | Some slug =>
      processQueue
        (mkState
           (match node with
            | Some _ => prefetched s
            | None => prefetched s ∖ {[slug]}
            end)
           (match node with
            | Some n => <[slug := n]> (renderCache s)
            | None => renderCache s
            end)
           (prefetchQueue s) (activePrefetches s - 1) (delete t (tasks s))
           (next_task s) (fetch_log s))
  | None => s
  end.

Definition step (s : state) (e : event) : state :=
  match e with
  | Request slug => prefetchArticle slug s
  | Settles t node => settles t node s
  end.

Definition run (s : state) (evs : list event) : state := foldl step s evs.

End Methods.

(** Nothing was started. *)
Definition idle (s : state) : Prop :=
  prefetched s = ∅ ∧ renderCache s = ∅ ∧ activePrefetches s = 0 ∧
  tasks s = ∅ ∧ next_task s = 0%nat ∧ fetch_log s = [].

End GeneratorDraft.


(** ** The constructor of [StaticPrefetcher] *)

Module Constructor.
Import Connection.

(** The values an options object holds. *)
Inductive value :=
  | undefined
  | null
  | boolean (b : bool)
  | number (n : Z)
  | str (s : string).

#[global] Instance value_eq_dec : EqDecision value.
Proof. solve_decision. Defined.

Definition truthy (v : value) : bool :=
  match v with
  | undefined => false
  | null => false
  | boolean b => b
  | number n => bool_decide (n ≠ 0)
  | str s => bool_decide (s ≠ EmptyString)
  end.

(** [a || b] *)
Definition or (a b : value) : value := if truthy a then a else b.

(** [a !== b] on these values. *)
Definition strict_neq (a b : value) : bool := bool_decide (a ≠ b).

(** A plain object: its own properties. *)
Definition object := gmap string value.

(** [o.k] *)
Definition get (o : object) (k : string) : value := default undefined (o !! k).

Inductive error :=
  | ReferenceError (name : string).

(** Evaluation of an identifier that is neither a parameter nor a local of
    the constructor: it is looked up in the global scope. *)
Definition resolve (globals : object) (x : string) : error + value :=
  match globals !! x with
  | Some v => inr v
  | None => inl (ReferenceError x)
  end.

(** The object literal of lines 5-11, its properties evaluated in order;
    the spread [...options] comes last and overrides the four defaults. *)
Definition eval_options (globals options : object) : error + object :=
  let hoverDelay := or (get options "hoverDelay") (number 20) in
  let maxConcurrent := or (get options "maxConcurrent") (number 3) in
  let aggressiveMode := or (get options "aggressiveMode") (boolean true) in
  match resolve globals "tre" with
  | inl e => inl e
  | inr tre =>
      let instantNavigation :=
        boolean (strict_neq (get options "instantNavigation") tre) in
      inr (options ∪
           {[ "hoverDelay" := hoverDelay; "maxConcurrent" := maxConcurrent;
              "aggressiveMode" := aggressiveMode;
              "instantNavigation" := instantNavigation ]})
  end.

(** A constructed prefetcher: its options, its fields, the gate, and the
    listeners and observers that [init()] attached. *)
Record instance := {
  options : object;
  fields : StaticPrefetcher.state;
  shouldPrefetch : bool;
  attached : list string
}.

(** [init()] *)
Definition init_attaches (options : object) (shouldPrefetch : bool)
    : list string :=
  if shouldPrefetch then
    ["mouseenter"; "mouseleave"]
    ++ (if truthy (get options "instantNavigation") then ["click"] else [])
    ++ (if truthy (get options "aggressiveMode") then ["prefetchVisible"]
        else [])
    ++ ["IntersectionObserver"]
  else [].

(** [new StaticPrefetcher(options)]: the names of the fields of [this]
    assigned so far, and either the exception thrown or the instance. *)
Definition constructor (globals : object) (nav : navigator) (opts : object)
    : list string * (error + instance) :=
  match eval_options globals opts with
  | inl e => ([], inl e)
  | inr o =>
      let gate := StaticPrefetcher.checkConnection nav in
      (["options"; "prefetched"; "cache"; "hoverTimers"; "prefetchQueue";
        "activePrefetches"; "shouldPrefetch"],
       inr {| options := o; fields := StaticPrefetcher.init;
              shouldPrefetch := gate; attached := init_attaches o gate |})
  end.

(** The options of the auto-initialisation at the end of the file. *)
Definition auto_options : object :=
  {[ "hoverDelay" := number 65; "maxConcurrent" := number 3;
     "aggressiveMode" := boolean false; "instantNavigation" := boolean true ]}.

(** [window.prefetcher = new StaticPrefetcher({...})]: the value of
    [window.prefetcher] afterwards, if the statement completes. *)
Definition auto_initialize (globals : object) (nav : navigator)
    : error + instance :=
  (constructor globals nav auto_options).2.

End Constructor.

(** ** [cardconstructor.js]: class [CardConstructor] *)

Module CardConstructor.

(** An entry of [this.articles], as far as the listing uses it. *)
Record article := { slug : string; title : string; category : string }.

(** What the prefetchers read of a card built by [createCard]: its
    [data-slug] and its [onclick] attribute. *)
Record card := { data_slug : string; onclick : string }.

(** [createCard(article)] for an article that is not [null]. *)
Definition createCard (a : article) : card :=
  {| data_slug := slug a;
     onclick := "window.location.href='" +:+ slug a +:+ ".html'" |}.

(** [articles.slice(0, limit)] *)
Definition slice_to {A} (limit : Z) (l : list A) : list A :=
  if decide (limit < 0) then take (Z.to_nat (Z.max (Z.of_nat (length l) + limit) 0)) l
  else take (Z.to_nat limit) l.

(** [renderCards(containerId, limit)]: the cards in the container
    afterwards; [container] is [None] when no element has the id, [limit]
    is [None] for [null], and an entry of [articles] is [None] when
    [loadArticle] failed for it. *)
Definition renderCards (container : option (list card)) (limit : option Z)
    (articles : list (option article)) : option (list card) :=
  match container with
  | None => None
  | Some _ =>
      let articlesToRender :=
        match limit with
        | Some n => if decide (n = 0) then articles else slice_to n articles
        | None => articles
        end in
      Some (createCard <$> omap id articlesToRender)
  end.

End CardConstructor.

(** ** [markdown-renderer.js]: [ArticleNavigator.renderArticleNavigation] *)

Module ArticleNavigator.
Import CardConstructor.

(** A call returns, or throws a [TypeError]. *)
Inductive outcome (A : Type) :=
  | Returns (a : A)
  | Throws.
Arguments Returns {A} a.
Arguments Throws {A}.

(** [this.articles.findIndex(a => a.slug === current)], counting from
    [i]: reading [a.slug] of a [null] entry throws. *)
Fixpoint findIndex_from (i : Z) (current : string)
    (articles : list (option article)) : outcome Z :=
  match articles with
  | [] => Returns (-1)
  | None :: _ => Throws
  | Some a :: rest =>
      if decide (slug a = current) then Returns i
      else findIndex_from (i + 1) current rest
  end.

(** [this.articles[i]] when it is an article. *)
Definition at_index (articles : list (option article)) (i : Z)
    : option article :=
  if decide (i < 0) then None else mjoin (articles !! Z.to_nat i).

(** The two links of the navigation block. *)
Record links := { prevArticle : option article; nextArticle : option article }.

(** [renderArticleNavigation()]: [None] for the empty string returned when
    there is no article, else the articles the two links point to. *)
Definition renderArticleNavigation (articles : list (option article))
    (current : string) : outcome (option links) :=
  if decide (length articles = 0%nat) then Returns None
  else
    match findIndex_from 0 current articles with
    | Throws => Throws
    | Returns currentIndex =>
        Returns (Some
          {| prevArticle :=
               if decide (0 < currentIndex)
               then at_index articles (currentIndex - 1) else None;
             nextArticle :=
               if decide (currentIndex < Z.of_nat (length articles) - 1)
               then at_index articles (currentIndex + 1) else None |})
    end.

(** The keys of [metadata.json] that the page reads: [None] when the key
    is missing (a [slug], [title] or [category] that is present is taken to
    be a string). *)
Record metadata := {
  meta_slug : option string;
  meta_title : option string;
  meta_category : option string
}.

(** What the navigator writes into [main]: the article page with its
    heading, its category, its content and its navigation block, or the
    404 page of [renderError]. *)
Inductive view :=
  | ArticlePage (heading category htmlContent : string)
      (navigation : option links)
  | NotFound.

(** The [main] element, if the document has one, and [document.title]. *)
Inductive content :=
  | Untouched
  | Shows (v : view).

Record page := { main : option content; document_title : string }.

(** [if (main) main.innerHTML = ...] *)
Definition set_main (v : view) (p : page) : page :=
  {| main := match main p with
             | Some _ => Some (Shows v)
             | None => None
             end;
     document_title := document_title p |}.

(** [renderError()] *)
Definition renderError (p : page) : page := set_main NotFound p.

Section Methods.
(** [String.prototype.toUpperCase] and [MarkdownRenderer.render]. *)
Variable toUpperCase : string → string.
Variable render : string → string.

(** [renderFile(url)], given how its fetch and the text of the response
    settle: every failure ends in its [catch] block. *)
Definition renderFile (r : response) (text : option string) : string :=
  match r, text with
  | Http true, Some markdown => render markdown
  | _, _ => RenderDraft.error_markup
  end.

(** [renderArticlePage()] for [this.currentArticle] with the given slug,
    title, category and content: [title.toUpperCase()] and
    [category.toUpperCase()] throw when the key is missing. *)
Definition renderArticlePage (articles : list (option article))
    (slug : string) (title category : option string) (htmlContent : string)
    (p : page) : outcome page :=
  match title, category with
  | Some t, Some c =>
      match renderArticleNavigation articles slug with
      | Returns navigation =>
          Returns
            {| main := main (set_main
                               (ArticlePage (toUpperCase t) (toUpperCase c)
                                  htmlContent navigation) p);
               document_title := t +:+ " - Brutal Blog Box" |}
      | Throws => Throws
      end
  | _, _ => Throws
  end.

(** [loadArticle(slug)], given how the metadata ([None]: the fetch or
    [json()] rejects), the fetch of the markdown and its text settle.  The
    spread of the metadata comes after [slug] and can replace it. *)
Definition loadArticle (articles : list (option article)) (slug : string)
    (meta : option metadata) (r : response) (text : option string) (p : page)
    : page :=
  match meta with
  | None => renderError p
  | Some m =>
      let htmlContent := renderFile r text in
      match renderArticlePage articles (default slug (meta_slug m))
              (meta_title m) (meta_category m) htmlContent p with
      | Returns p' => p'
      | Throws => renderError p
      end
  end.

End Methods.

End ArticleNavigator.

(** ** The click listener of the render draft ([hijackClicks]) *)

Module HijackClicks.
Import CardConstructor ArticleNavigator.

(** How the fetch of a [metadata.json] and the [json()] of its response
    settle. *)
Inductive metadata_read :=
  | FetchRejects
  | JsonRejects
  | Metadata (m : metadata).

Definition read (x : metadata_read) : option metadata :=
  match x with
  | Metadata m => Some m
  | _ => None
  end.

(** The host at a click: whether [window.ArticleNavigator] is defined, the
    articles of [window.cardConstructor] (none without it), the [article]
    parameter of [location.search] ([None] when it is missing or empty), and
    how the fetches settle, those of [init] and those of the listener. *)
Record host := {
  hasNavigator : bool;
  articles : list (option article);
  location_article : option string;
  init_metadata : metadata_read;
  init_response : response;
  init_text : option string;
  click_metadata : metadata_read;
  click_response : response;
  click_text : option string
}.




Section Methods.
Variable toUpperCase : string → string.
Variable render : string → string.





Definition init (h : host) (p : page) : page :=
  match location_article h with
  | Some current =>
      loadArticle toUpperCase render (articles h) current
        (read (init_metadata h)) (init_response h) (init_text h) p
  | None => p
  end.


End Methods.

End HijackClicks.

(** ** [build.js]: [BlogBuilder.escape] *)

Module BlogBuilder.

(** [str.replace(/c/g, r)] for a pattern of one character. *)
Definition replace_all (c : ascii) (r : string) (s : list ascii) : list ascii :=
  flat_map (λ x, if decide (x = c) then String.list_ascii_of_string r else [x]) s.

(** [escape(str)] *)
Definition escape (str : string) : string :=
  String.string_of_list_ascii
    (replace_all "'" "&#039;"
       (replace_all StaticPrefetcher.dquote_char "&quot;"
          (replace_all ">" "&gt;"
             (replace_all "<" "&lt;"
                (replace_all "&" "&amp;" (String.list_ascii_of_string str)))))).

(** The entity a character ends up as. *)
Definition entity (x : ascii) : list ascii :=
  if decide (x = "&"%char) then String.list_ascii_of_string "&amp;"
  else if decide (x = "<"%char) then String.list_ascii_of_string "&lt;"
  else if decide (x = ">"%char) then String.list_ascii_of_string "&gt;"
  else if decide (x = StaticPrefetcher.dquote_char)
       then String.list_ascii_of_string "&quot;"
  else if decide (x = "'"%char) then String.list_ascii_of_string "&#039;"
  else [x].

(** A character that markup gives a meaning to, [&] apart. *)
Definition markup (c : ascii) : Prop :=
  c = "<"%char ∨ c = ">"%char ∨ c = StaticPrefetcher.dquote_char ∨ c = "'"%char.

End BlogBuilder.

(** ** Definitions that follow the wording of the specification *)

Module Spec.


End Spec.


(** * Properties *)

(** ** [StaticPrefetcher]: the reachable states are well formed *)

Section StaticFacts.
Import StaticPrefetcher.
Variable K : Z.
Variable delay : nat.
Variable parse : string → document.

Local Abbreviation prefetch := (StaticPrefetcher.prefetch K).
Local Abbreviation processQueue := (StaticPrefetcher.processQueue K).
Local Abbreviation finally_block := (StaticPrefetcher.finally_block K).
Local Abbreviation fetch_settles := (StaticPrefetcher.fetch_settles K).
Local Abbreviation text_settles := (StaticPrefetcher.text_settles K parse).
Local Abbreviation scheduleHoverPrefetch :=
  (StaticPrefetcher.scheduleHoverPrefetch delay).
Local Abbreviation timer_fires := (StaticPrefetcher.timer_fires K).
Local Abbreviation step := (StaticPrefetcher.step K delay parse).
Local Abbreviation run := (StaticPrefetcher.run K delay parse).
Local Abbreviation queue_sat := (StaticPrefetcher.queue_sat K).
Local Abbreviation wf := (StaticPrefetcher.wf K).

(** The three outcomes of the synchronous part of [prefetch]. *)
Lemma sp_prefetch_cases url p s :
  (prefetch url p s = s ∧
     (url ∈ prefetched s ∨ is_Some (cache s !! url) ∨
      (K ≤ activePrefetches s ∧ url ∈ prefetchQueue s)))
  ∨ (prefetch url p s = set_prefetchQueue (prefetchQueue s ++ [url]) s ∧
     (url ∉ prefetched s) ∧ cache s !! url = None ∧
     K ≤ activePrefetches s ∧ url ∉ prefetchQueue s)
  ∨ (prefetch url p s =
       mkState ({[url]} ∪ prefetched s) (cache s) (hoverTimers s)
         (prefetchQueue s) (activePrefetches s + 1) (timers s) (next_timer s)
         (<[next_task s := Task url AwaitFetch]> (tasks s)) (S (next_task s))
         (now s) (fetch_log s ++ [(url, p)]) (hover_log s) ∧
     (url ∉ prefetched s) ∧ cache s !! url = None ∧ activePrefetches s < K).
Proof.
  unfold StaticPrefetcher.prefetch.
  destruct (decide (url ∈ prefetched s)); [left; auto|].
  destruct (decide (is_Some (cache s !! url))) as [|Hc]; [left; auto|].
  apply eq_None_not_Some in Hc.
  destruct (decide (K ≤ activePrefetches s)).
  - destruct (decide (url ∈ prefetchQueue s)); [left; auto|].
    right; left; auto.
  - right; right. repeat split; auto with lia.
Qed.

Lemma sp_prefetch_hover url p s :
  hoverTimers (prefetch url p s) = hoverTimers s ∧
  timers (prefetch url p s) = timers s ∧
  next_timer (prefetch url p s) = next_timer s ∧
  now (prefetch url p s) = now s ∧
  hover_log (prefetch url p s) = hover_log s.
Proof.
  destruct (sp_prefetch_cases url p s) as [[-> _]|[[-> _]|[-> _]]]; done.
Qed.

Lemma sp_prefetch_core url p s :
  wf_core s →
  (url ∈ prefetchQueue s → K ≤ activePrefetches s) →
  wf_core (prefetch url p s).
Proof.
  intros [Ha Hf Hm Hi Hq Hn] Hsat.
  destruct (sp_prefetch_cases url p s)
    as [[-> _]|[[-> (Hp & Hc & _ & Hnq)]|[-> (Hp & Hc & Hlt)]]].
  - by constructor.
  - constructor; simpl; auto.
    + intros u [Hu| ->%list_elem_of_singleton]%elem_of_app; auto.
    + apply NoDup_app; repeat split; auto.
      * intros x Hx ->%list_elem_of_singleton. auto.
      * apply NoDup_singleton.
  - assert (tasks s !! next_task s = None) as Hfresh.
    { apply eq_None_not_Some. intros Hs. apply Hf in Hs. lia. }
    assert (url ∉ prefetchQueue s) as Hnq by (intros Hin; apply Hsat in Hin; lia).
    constructor; simpl.
    + rewrite map_size_insert_None by done. lia.
    + intros t [k Hk]. destruct (decide (t = next_task s)) as [->|Hne]; [lia|].
      rewrite lookup_insert_ne in Hk by done.
      assert (t < next_task s)%nat by eauto. lia.
    + intros t k Hk. destruct (decide (t = next_task s)) as [->|Hne].
      * rewrite lookup_insert_eq in Hk. injection Hk as <-. simpl.
        split; [apply elem_of_union_l; by apply elem_of_singleton | done].
      * rewrite lookup_insert_ne in Hk by done.
        destruct (Hm _ _ Hk). split; [by apply elem_of_union_r | done].
    + intros t1 t2 k1 k2 H1 H2 He.
      destruct (decide (t1 = next_task s)) as [->|Hne1];
        destruct (decide (t2 = next_task s)) as [->|Hne2]; auto.
      * rewrite lookup_insert_eq in H1. injection H1 as <-.
        rewrite lookup_insert_ne in H2 by done.
        destruct (Hm _ _ H2) as [Hin _]. simpl in He. congruence.
      * rewrite lookup_insert_eq in H2. injection H2 as <-.
        rewrite lookup_insert_ne in H1 by done.
        destruct (Hm _ _ H1) as [Hin _]. simpl in He. congruence.
      * rewrite lookup_insert_ne in H1 by done.
        rewrite lookup_insert_ne in H2 by done. eauto.
    + intros u Hu. destruct (Hq _ Hu). split; [|done].
      intros [->%elem_of_singleton|?]%elem_of_union; auto.
    + done.
Qed.

Lemma sp_prefetch_sat url p s :
  queue_sat 0 s → queue_sat 0 (prefetch url p s).
Proof.
  unfold StaticPrefetcher.queue_sat. intros Hs.
  destruct (sp_prefetch_cases url p s)
    as [[-> _]|[[-> (_ & _ & Hk & _)]|[-> (_ & _ & Hlt)]]]; simpl; auto.
  - intros _. lia.
  - intros Hne. apply Hs in Hne. lia.
Qed.

Lemma sp_processQueue_frame s :
  hoverTimers (processQueue s) = hoverTimers s ∧
  timers (processQueue s) = timers s ∧
  next_timer (processQueue s) = next_timer s ∧
  now (processQueue s) = now s ∧
  hover_log (processQueue s) = hover_log s.
Proof.
  unfold StaticPrefetcher.processQueue.
  destruct (prefetchQueue s) as [|url rest]; [done|].
  case_decide; [done|].
  apply (sp_prefetch_hover url high (set_prefetchQueue rest s)).
Qed.

Lemma sp_processQueue_core s : wf_core s → wf_core (processQueue s).
Proof.
  intros Hw. unfold StaticPrefetcher.processQueue.
  destruct (prefetchQueue s) as [|url rest] eqn:Hq; [done|].
  case_decide; [done|].
  destruct Hw as [Ha Hf Hm Hi Hqf Hn]. rewrite Hq in Hqf, Hn.
  apply NoDup_cons in Hn as [Hnin Hn].
  apply sp_prefetch_core.
  - constructor; simpl; auto.
    intros u Hu. apply Hqf. by right.
  - simpl. intros Hin. done.
Qed.

Lemma sp_processQueue_sat s :
  wf_core s → queue_sat 1 s → queue_sat 0 (processQueue s).
Proof.
  intros Hw Hs. unfold StaticPrefetcher.processQueue, StaticPrefetcher.queue_sat in *.
  destruct (prefetchQueue s) as [|url rest] eqn:Hq; [by rewrite Hq|].
  case_decide as Hk; [intros _; lia|].
  assert (K ≤ activePrefetches s + 1) as Hk1 by (apply Hs; done).
  destruct (wf_queue_fresh _ Hw url) as [Hp Hc]; [rewrite Hq; by left|].
  destruct (sp_prefetch_cases url high (set_prefetchQueue rest s))
    as [[_ [?|[Hs'|[? _]]]]|[[_ (_ & _ & ? & _)]|[-> _]]]; simpl in *;
    try done; try lia.
  rewrite Hc in Hs'. by destruct Hs'.
Qed.

Lemma sp_sat_elem u s :
  queue_sat 0 s → u ∈ prefetchQueue s → K ≤ activePrefetches s.
Proof.
  intros Hs Hin. unfold StaticPrefetcher.queue_sat in Hs.
  assert (prefetchQueue s ≠ []) as Hne.
  { intros Hnil. rewrite Hnil in Hin. by apply elem_of_nil in Hin. }
  apply Hs in Hne. lia.
Qed.

Lemma sp_size_delete (m : gmap nat task) t k :
  m !! t = Some k → Z.of_nat (size (delete t m)) = Z.of_nat (size m) - 1.
Proof.
  intros Hk. rewrite map_size_delete_Some by eauto.
  assert (size m ≠ 0%nat).
  { intros ->%map_size_empty_iff. by rewrite lookup_empty in Hk. }
  lia.
Qed.

Lemma sp_core_frame s s' :
  prefetched s' = prefetched s → cache s' = cache s →
  prefetchQueue s' = prefetchQueue s →
  activePrefetches s' = activePrefetches s →
  tasks s' = tasks s → next_task s' = next_task s →
  wf_core s → wf_core s'.
Proof.
  intros E1 E2 E3 E4 E5 E6 [Ha Hf Hm Hi Hq Hn].
  constructor; rewrite ?E1, ?E2, ?E3, ?E4, ?E5, ?E6; auto.
Qed.

Lemma sp_hover_frame s s' :
  hoverTimers s' = hoverTimers s → timers s' = timers s →
  next_timer s' = next_timer s →
  wf_hover s → wf_hover s'.
Proof.
  intros E1 E2 E3 [Hf Hh Ht]. constructor; rewrite ?E1, ?E2, ?E3; auto.
Qed.

(** The state between the decrement of [finally] and [processQueue], on the
    failing path. *)
Lemma sp_end_fail_core t k s :
  wf_core s → tasks s !! t = Some k →
  let s' := catch_block (task_url k) (end_task t s) in
  wf_core (set_activePrefetches (activePrefetches s' - 1) s').
Proof.
  intros [Ha Hf Hm Hi Hq Hn] Hk. constructor; simpl.
  - rewrite (sp_size_delete _ _ _ Hk). lia.
  - intros t' [Hne Hs]%lookup_delete_is_Some. auto.
  - intros t' k' [Hne Hk']%lookup_delete_Some.
    destruct (Hm _ _ Hk') as [Hin Hc]. split; [|done].
    apply elem_of_difference. split; [done|].
    intros He%elem_of_singleton. apply Hne. eauto.
  - intros t1 t2 k1 k2 [_ H1]%lookup_delete_Some [_ H2]%lookup_delete_Some.
    eauto.
  - intros u Hu. destruct (Hq _ Hu) as [Hp Hc]. split; [|done].
    intros [? _]%elem_of_difference. auto.
  - done.
Qed.

(** The same on the successful path, after [cache.set]. *)
Lemma sp_end_ok_core t k e s :
  wf_core s → tasks s !! t = Some k →
  let s1 := end_task t s in
  let s' := set_cache (<[task_url k := e]> (cache s1)) s1 in
  wf_core (set_activePrefetches (activePrefetches s' - 1) s').
Proof.
  intros [Ha Hf Hm Hi Hq Hn] Hk. constructor; simpl.
  - rewrite (sp_size_delete _ _ _ Hk). lia.
  - intros t' [Hne Hs]%lookup_delete_is_Some. auto.
  - intros t' k' [Hne Hk']%lookup_delete_Some.
    destruct (Hm _ _ Hk') as [Hin Hc]. split; [done|].
    rewrite lookup_insert_ne; [done|].
    intros He. apply Hne. eauto.
  - intros t1 t2 k1 k2 [_ H1]%lookup_delete_Some [_ H2]%lookup_delete_Some.
    eauto.
  - intros u Hu. destruct (Hq _ Hu) as [Hp Hc]. split; [done|].
    rewrite lookup_insert_ne; [done|].
    intros <-. destruct (Hm _ _ Hk). auto.
  - done.
Qed.

Lemma sp_finally_wf s0 s :
  wf_core (set_activePrefetches (activePrefetches s - 1) s) →
  queue_sat 0 s0 → prefetchQueue s = prefetchQueue s0 →
  activePrefetches s = activePrefetches s0 →
  hoverTimers s = hoverTimers s0 → timers s = timers s0 →
  next_timer s = next_timer s0 →
  wf_hover s0 → wf (finally_block s).
Proof.
  intros Hc Hs Eq Ea E1 E2 E3 Hh. unfold StaticPrefetcher.finally_block.
  split; [|split].
  - by apply sp_processQueue_core.
  - apply sp_processQueue_sat; [done|].
    unfold StaticPrefetcher.queue_sat in *. simpl. rewrite Eq, Ea.
    intros Hne. apply Hs in Hne. lia.
  - destruct (sp_processQueue_frame
                (set_activePrefetches (activePrefetches s - 1) s))
      as (F1 & F2 & F3 & _).
    eapply sp_hover_frame; [| | |exact Hh]; simpl in *; congruence.
Qed.

Lemma sp_fetch_settles_wf t r s : wf s → wf (fetch_settles t r s).
Proof.
  intros Hw. pose proof Hw as (Hc & Hs & Hh).
  unfold StaticPrefetcher.fetch_settles.
  destruct (tasks s !! t) as [[url [|]]|] eqn:Hk; [|done..].
  assert (wf (finally_block (catch_block url (end_task t s)))) as Hfail.
  { eapply sp_finally_wf; [|exact Hs|done..].
    apply (sp_end_fail_core t (Task url AwaitFetch) s Hc Hk). }
  destruct r as [|[|]]; [done| |done].
  split; [|split]; [|done|by eapply sp_hover_frame; [| | |exact Hh]].
  destruct Hc as [Ha Hf Hm Hi Hq Hn]. constructor; simpl; auto.
  - rewrite map_size_insert_Some by eauto. done.
  - intros t' [->|[_ ?]]%lookup_insert_is_Some; eauto.
  - intros t' k' [[<- <-]|[_ Hk']]%lookup_insert_Some; eauto.
    apply (Hm _ _ Hk).
  - intros t1 t2 k1 k2 [[<- <-]|[_ H1]]%lookup_insert_Some
      [[<- <-]|[_ H2]]%lookup_insert_Some; eauto.
Qed.

Lemma sp_text_settles_wf t r s : wf s → wf (text_settles t r s).
Proof.
  intros Hw. pose proof Hw as (Hc & Hs & Hh).
  unfold StaticPrefetcher.text_settles.
  destruct (tasks s !! t) as [[url [|]]|] eqn:Hk; [done| |done].
  destruct r as [h|].
  - eapply sp_finally_wf; [|exact Hs|done..].
    apply (sp_end_ok_core t (Task url AwaitText) _ s Hc Hk).
  - eapply sp_finally_wf; [|exact Hs|done..].
    apply (sp_end_fail_core t (Task url AwaitText) s Hc Hk).
Qed.

Lemma sp_schedule_hover url s :
  wf_hover s → wf_hover (scheduleHoverPrefetch url s).
Proof.
  intros [Hf Hh Ht]. unfold StaticPrefetcher.scheduleHoverPrefetch.
  destruct (decide (is_Some (hoverTimers s !! url))) as [|Hn]; [done|].
  apply eq_None_not_Some in Hn.
  assert (timers s !! next_timer s = None) as Hfresh.
  { apply eq_None_not_Some. intros Hs. apply Hf in Hs. lia. }
  constructor; simpl.
  - intros h [->|[_ Hs]]%lookup_insert_is_Some; [lia|].
    apply Hf in Hs. lia.
  - intros u h [[<- <-]|[Hne Hu]]%lookup_insert_Some.
    + eexists. apply lookup_insert_eq.
    + destruct (Hh _ _ Hu) as [d Hd]. exists d.
      rewrite lookup_insert_ne; [done|]. intros <-. congruence.
  - intros h d u [[<- Heq]|[Hne Hd]]%lookup_insert_Some.
    + injection Heq as <- <-. apply lookup_insert_eq.
    + specialize (Ht _ _ _ Hd).
      rewrite lookup_insert_ne; [done|]. intros <-. congruence.
Qed.

(** Dropping the handle registered for an identifier, as [mouseleave] and
    the timer callback both do. *)
Lemma sp_drop_hover url h s s1 :
  wf_hover s → hoverTimers s !! url = Some h →
  timers s1 = delete h (timers s) → next_timer s1 = next_timer s →
  hoverTimers s1 = hoverTimers s →
  wf_hover (set_hoverTimers (delete url (hoverTimers s1)) s1).
Proof.
  intros [Hf Hh Ht] Hu E1 E2 E3. constructor; simpl; rewrite ?E1, ?E2, ?E3.
  - intros h' [_ Hs]%lookup_delete_is_Some. auto.
  - intros u h' [Hne Hu']%lookup_delete_Some.
    destruct (Hh _ _ Hu') as [d Hd]. exists d.
    rewrite lookup_delete_ne; [done|]. intros <-.
    destruct (Hh _ _ Hu) as [d' Hd']. congruence.
  - intros h' d u [Hne Hd]%lookup_delete_Some.
    specialize (Ht _ _ _ Hd).
    rewrite lookup_delete_ne; [done|]. intros <-. congruence.
Qed.

Lemma sp_mouseleave_hover url s : wf_hover s → wf_hover (mouseleave url s).
Proof.
  intros Hw. unfold mouseleave.
  destruct (hoverTimers s !! url) as [h|] eqn:Hu; [|done].
  by eapply sp_drop_hover.
Qed.

Lemma sp_timer_fires_wf h s : wf s → wf (timer_fires h s).
Proof.
  intros Hw. pose proof Hw as (Hc & Hs & Hh).
  unfold StaticPrefetcher.timer_fires.
  destruct (timers s !! h) as [[d url]|] eqn:Hd; [|done].
  case_decide; [|done].
  set (s2 := set_hover_log _ _).
  destruct (sp_prefetch_hover url high s2) as (F1 & F2 & F3 & _).
  split; [|split].
  - eapply sp_core_frame with (s := prefetch url high s2); try done.
    apply sp_prefetch_core; [by eapply sp_core_frame; [..|exact Hc]|].
    simpl. intros Hin. by eapply sp_sat_elem.
  - assert (queue_sat 0 (prefetch url high s2)) as Hs2
      by (by apply sp_prefetch_sat).
    exact Hs2.
  - eapply sp_drop_hover; [exact Hh| |by rewrite F2|by rewrite F3|by rewrite F1].
    by apply (wf_timer_hover _ Hh h d url).
Qed.

Lemma sp_step_wf s e : wf s → wf (step s e).
Proof.
  intros Hw. destruct e as [url|url|dt|h|url p|t r|t r]; simpl.
  - destruct Hw as (Hc & Hs & Hh). split; [|split].
    + eapply sp_core_frame; [..|exact Hc];
        unfold StaticPrefetcher.scheduleHoverPrefetch; by case_decide.
    + unfold StaticPrefetcher.queue_sat, StaticPrefetcher.scheduleHoverPrefetch in *.
      by case_decide.
    + by apply sp_schedule_hover.
  - destruct Hw as (Hc & Hs & Hh). split; [|split].
    + eapply sp_core_frame; [..|exact Hc];
        unfold mouseleave; by destruct (hoverTimers s !! url).
    + unfold StaticPrefetcher.queue_sat, mouseleave in *.
      by destruct (hoverTimers s !! url).
    + by apply sp_mouseleave_hover.
  - destruct Hw as (Hc & Hs & Hh). split; [|split]; [|done|].
    + by eapply sp_core_frame; [..|exact Hc].
    + by eapply sp_hover_frame; [..|exact Hh].
  - by apply sp_timer_fires_wf.
  - destruct Hw as (Hc & Hs & Hh).
    destruct (sp_prefetch_hover url p s) as (F1 & F2 & F3 & _).
    split; [|split].
    + apply sp_prefetch_core; [done|].
      intros Hin. by eapply sp_sat_elem.
    + by apply sp_prefetch_sat.
    + by eapply sp_hover_frame; [..|exact Hh].
  - by apply sp_fetch_settles_wf.
  - by apply sp_text_settles_wf.
Qed.

Lemma sp_init_wf : wf init.
Proof.
  split; [|split].
  - constructor; simpl.
    + by rewrite map_size_empty.
    + intros t [k Hk]. by rewrite lookup_empty in Hk.
    + intros t k Hk. by rewrite lookup_empty in Hk.
    + intros t1 t2 k1 k2 Hk. by rewrite lookup_empty in Hk.
    + intros u Hu. by apply elem_of_nil in Hu.
    + apply NoDup_nil_2.
  - by intros Hne.
  - constructor; simpl.
    + intros h [k Hk]. by rewrite lookup_empty in Hk.
    + intros u h Hk. by rewrite lookup_empty in Hk.
    + intros h d u Hk. by rewrite lookup_empty in Hk.
Qed.

Lemma sp_run_wf s evs : wf s → wf (run s evs).
Proof.
  revert s. induction evs as [|e evs IH]; intros s Hw; [done|].
  simpl. apply IH. by apply sp_step_wf.
Qed.

(** ** The slot counter (C1) *)

Lemma sp_prefetch_bound url p s :
  activePrefetches s ≤ K → activePrefetches (prefetch url p s) ≤ K.
Proof.
  intros Hb.
  destruct (sp_prefetch_cases url p s)
    as [[-> _]|[[-> _]|[-> (_ & _ & Hlt)]]]; simpl; lia.
Qed.

Lemma sp_processQueue_bound s :
  activePrefetches s ≤ K → activePrefetches (processQueue s) ≤ K.
Proof.
  intros Hb. unfold StaticPrefetcher.processQueue.
  destruct (prefetchQueue s) as [|url rest]; [done|].
  case_decide; [done|]. by apply sp_prefetch_bound.
Qed.

Lemma sp_finally_bound s :
  activePrefetches s ≤ K → activePrefetches (finally_block s) ≤ K.
Proof.
  intros Hb. unfold StaticPrefetcher.finally_block.
  apply sp_processQueue_bound. simpl. lia.
Qed.

Lemma sp_step_bound s e :
  activePrefetches s ≤ K → activePrefetches (step s e) ≤ K.
Proof.
  intros Hb. destruct e as [url|url|dt|h|url p|t r|t r]; simpl.
  - unfold StaticPrefetcher.scheduleHoverPrefetch. by case_decide.
  - unfold mouseleave. by destruct (hoverTimers s !! url).
  - done.
  - unfold StaticPrefetcher.timer_fires.
    destruct (timers s !! h) as [[d url]|]; [|done].
    case_decide; [|done]. simpl. by apply sp_prefetch_bound.
  - by apply sp_prefetch_bound.
  - unfold StaticPrefetcher.fetch_settles.
    destruct (tasks s !! t) as [[url [|]]|]; [|done..].
    destruct r as [|[|]]; [|done|]; by apply sp_finally_bound.
  - unfold StaticPrefetcher.text_settles.
    destruct (tasks s !! t) as [[url [|]]|]; [done| |done].
    destruct r; by apply sp_finally_bound.
Qed.

Lemma sp_run_bound s evs :
  activePrefetches s ≤ K → activePrefetches (run s evs) ≤ K.
Proof.
  revert s. induction evs as [|e evs IH]; intros s Hb; [done|].
  simpl. apply IH. by apply sp_step_bound.
Qed.

(** Every completion is the decrement followed by [processQueue]. *)
Lemma sp_completion_drains s e :
  wf s → completes s e →
  ∃ s1, activePrefetches s1 = activePrefetches s - 1 ∧
        Z.of_nat (size (tasks s1)) = Z.of_nat (size (tasks s)) - 1 ∧
        step s e = processQueue s1.
Proof.
  intros Hw Hc. destruct e as [| | | | |t r|t r]; try done; simpl in *.
  - destruct Hc as [[url Hk] Hr].
    unfold StaticPrefetcher.fetch_settles. rewrite Hk.
    eexists (set_activePrefetches _ (catch_block url (end_task t s))).
    split; [|split].
    + simpl. reflexivity.
    + simpl. by eapply sp_size_delete.
    + by destruct r as [|[|]].
  - destruct Hc as [url Hk].
    unfold StaticPrefetcher.text_settles. rewrite Hk.
    destruct r as [h|].
    + eexists (set_activePrefetches _ (set_cache _ (end_task t s))).
      split; [|split]; [| |reflexivity]; simpl; [done|].
      by eapply sp_size_delete.
    + eexists (set_activePrefetches _ (catch_block url (end_task t s))).
      split; [|split]; [| |reflexivity]; simpl; [done|].
      by eapply sp_size_delete.
Qed.

(** C1.  With a concurrency limit [K >= 0], in every state reached from the
    initial one by any sequence of hover events, requests and settled
    fetches: the counter of in-flight prefetches is the number of suspended
    prefetch calls and lies between 0 and [K]; a request arriving when the
    counter is [K] is not admitted (no task, no fetch, counter unchanged) and,
    unless its identifier is already marked or cached, it is in the pending
    list afterwards; an admitted request increments the counter and
    suspends on its fetch; every completion, by success or by failure,
    decrements the counter and then calls [processQueue]. *)
Theorem sp_active_slots_bounded (evs : list event) :
  0 ≤ K →
  let s := run init evs in
  (0 ≤ activePrefetches s ≤ K) ∧
  activePrefetches s = Z.of_nat (size (tasks s)) ∧
  (∀ url p, activePrefetches s = K →
     let s' := prefetch url p s in
     tasks s' = tasks s ∧ activePrefetches s' = K ∧
     fetch_log s' = fetch_log s ∧
     (url ∉ prefetched s → cache s !! url = None → url ∈ prefetchQueue s')) ∧
  (∀ url p, url ∉ prefetched s → cache s !! url = None →
     activePrefetches s < K →
     let s' := prefetch url p s in
     activePrefetches s' = activePrefetches s + 1 ∧
     tasks s' = <[next_task s := Task url AwaitFetch]> (tasks s) ∧
     tasks s !! next_task s = None) ∧
  (∀ e, completes s e →
     ∃ s1, activePrefetches s1 = activePrefetches s - 1 ∧
           Z.of_nat (size (tasks s1)) = Z.of_nat (size (tasks s)) - 1 ∧
           step s e = processQueue s1).
Proof.
  intros HK s.
  assert (wf s) as Hw by apply sp_run_wf, sp_init_wf.
  assert (activePrefetches s ≤ K) as Hb by (by apply sp_run_bound).
  pose proof Hw as (Hc & Hs & Hh).
  split; [|split; [|split; [|split]]].
  - rewrite (wf_active _ Hc) in *. lia.
  - apply (wf_active _ Hc).
  - intros url p Ha s'. subst s'.
    destruct (sp_prefetch_cases url p s)
      as [[-> Hwhy]|[[-> _]|[-> (_ & _ & Hlt)]]]; simpl.
    + repeat split; auto. intros Hp Hn.
      destruct Hwhy as [?|[Hsome|[_ ?]]]; [done| |done].
      rewrite Hn in Hsome. by destruct Hsome.
    + repeat split; auto. intros _ _. apply elem_of_app. right.
      by apply list_elem_of_singleton.
    + lia.
  - intros url p Hp Hn Hlt s'. subst s'.
    destruct (sp_prefetch_cases url p s)
      as [[_ [?|[Hsome|[? _]]]]|[[_ (_ & _ & ? & _)]|[-> _]]];
      try done; try lia.
    + rewrite Hn in Hsome. by destruct Hsome.
    + simpl. repeat split; auto.
      apply eq_None_not_Some. intros Hsome.
      apply (wf_task_fresh _ Hc) in Hsome. lia.
  - intros e He. by apply sp_completion_drains.
Qed.

(** ** Admission order of the pending requests (C2) *)










(** ** The cache (C6, C7, C3) *)

Lemma sp_prefetch_cache url p s : cache (prefetch url p s) = cache s.
Proof.
  by destruct (sp_prefetch_cases url p s) as [[-> _]|[[-> _]|[-> _]]].
Qed.

Lemma sp_processQueue_cache s : cache (processQueue s) = cache s.
Proof.
  unfold StaticPrefetcher.processQueue.
  destruct (prefetchQueue s) as [|url rest]; [done|].
  case_decide; [done|]. by rewrite sp_prefetch_cache.
Qed.

Lemma sp_finally_cache s : cache (finally_block s) = cache s.
Proof. unfold StaticPrefetcher.finally_block. by rewrite sp_processQueue_cache. Qed.

(** An entry of the cache survives every event. *)
Lemma sp_step_cache s ev url e :
  wf s → cache s !! url = Some e → cache (step s ev) !! url = Some e.
Proof.
  intros (Hc & Hs & Hh) He.
  destruct ev as [u|u|dt|h|u p|t r|t r]; simpl.
  - unfold StaticPrefetcher.scheduleHoverPrefetch. by case_decide.
  - unfold mouseleave. by destruct (hoverTimers s !! u).
  - done.
  - unfold StaticPrefetcher.timer_fires.
    destruct (timers s !! h) as [[d u]|]; [|done].
    case_decide; [|done]. simpl. by rewrite sp_prefetch_cache.
  - by rewrite sp_prefetch_cache.
  - unfold StaticPrefetcher.fetch_settles.
    destruct (tasks s !! t) as [[u [|]]|]; [|done..].
    destruct r as [|[|]]; [|done|]; by rewrite sp_finally_cache.
  - unfold StaticPrefetcher.text_settles.
    destruct (tasks s !! t) as [[u [|]]|] eqn:Hk; [done| |done].
    destruct r as [h|]; rewrite sp_finally_cache; simpl; [|done].
    destruct (wf_task_marked _ Hc _ _ Hk) as [_ Hn]. simpl in Hn.
    rewrite lookup_insert_ne; [done|]. intros ->. congruence.
Qed.

Lemma sp_run_cache s evs url e :
  wf s → cache s !! url = Some e → cache (run s evs) !! url = Some e.
Proof.
  revert s. induction evs as [|ev evs IH]; intros s Hw He; [done|].
  simpl. apply IH; [by apply sp_step_wf | by apply sp_step_cache].
Qed.

(** C6 for [StaticPrefetcher]. *)
Lemma sp_cache_guarded_writes :
  (∀ s t url h, tasks s !! t = Some (Task url AwaitText) →
     cache (text_settles t (Some h) s) !! url =
       Some {| html := h; doc := parse h; timestamp := now s |}) ∧
  (∀ s url p, is_Some (cache s !! url) ∨ url ∈ prefetched s →
     prefetch url p s = s) ∧
  (∀ evs evs' url e, cache (run init evs) !! url = Some e →
     cache (run (run init evs) evs') !! url = Some e).
Proof.
  split; [|split].
  - intros s t url h Hk. unfold StaticPrefetcher.text_settles. rewrite Hk.
    rewrite sp_finally_cache. simpl. apply lookup_insert_eq.
  - intros s url p Hor. unfold StaticPrefetcher.prefetch.
    destruct (decide (url ∈ prefetched s)); [done|].
    destruct (decide (is_Some (cache s !! url))); [done|].
    by destruct Hor.
  - intros evs evs' url e He. apply sp_run_cache; [|done].
    apply sp_run_wf, sp_init_wf.
Qed.

Lemma sp_finally_prefetched s url :
  wf_core (set_activePrefetches (activePrefetches s - 1) s) →
  url ∉ prefetchQueue s → url ∉ prefetched s →
  url ∉ prefetched (finally_block s).
Proof.
  intros Hc Hq Hp. unfold StaticPrefetcher.finally_block, StaticPrefetcher.processQueue.
  simpl. destruct (prefetchQueue s) as [|x rest] eqn:Hx; [done|].
  case_decide; [done|].
  destruct (sp_prefetch_cases x high
              (set_prefetchQueue rest
                 (set_activePrefetches (activePrefetches s - 1) s)))
    as [[-> _]|[[-> _]|[-> _]]]; simpl; try done.
  intros [->%elem_of_singleton|?]%elem_of_union; [|done].
  apply Hq. by left.
Qed.

(** C7 for [StaticPrefetcher]: when a prefetch fails (the fetch is
    rejected, the response is not [ok], or reading the text fails), the
    cache has no entry for the identifier and the identifier is no longer
    marked prefetched; the next request for it is fetched at once, or, when
    the slots are taken, waits in the pending list. *)
Lemma sp_failure_not_cached evs e url :
  let s := run init evs in
  fails s e url →
  let s' := step s e in
  cache s' !! url = None ∧ (url ∉ prefetched s') ∧
  ∀ p, let s'' := prefetch url p s' in
       (fetch_log s'' = fetch_log s' ++ [(url, p)] ∧
        tasks s'' !! next_task s' = Some (Task url AwaitFetch))
       ∨ (K ≤ activePrefetches s' ∧ url ∈ prefetchQueue s'').
Proof.
  intros s Hf s'.
  assert (wf s) as Hw by apply sp_run_wf, sp_init_wf.
  pose proof Hw as (Hc & Hs & Hh).
  assert (∃ t st, tasks s !! t = Some (Task url st) ∧
            s' = finally_block (catch_block url (end_task t s)))
    as (t & st & Hk & Hs').
  { subst s'. destruct e as [| | | | |t r|t r]; try done; simpl in *.
    - destruct Hf as [Hk Hr]. exists t, AwaitFetch. split; [done|].
      unfold StaticPrefetcher.fetch_settles. rewrite Hk. by destruct r as [|[|]].
    - destruct Hf as [Hk ->]. exists t, AwaitText. split; [done|].
      unfold StaticPrefetcher.text_settles. by rewrite Hk. }
  destruct (wf_task_marked _ Hc _ _ Hk) as [Hin Hn]. simpl in Hin, Hn.
  assert (cache s' !! url = None) as Hc'.
  { rewrite Hs', sp_finally_cache. done. }
  assert (url ∉ prefetched s') as Hp'.
  { rewrite Hs'. apply sp_finally_prefetched.
    - apply (sp_end_fail_core t _ s Hc Hk).
    - simpl. intros Hq. by destruct (wf_queue_fresh _ Hc _ Hq).
    - simpl. intros [_ Hne]%elem_of_difference. apply Hne.
      by apply elem_of_singleton. }
  split; [done|]. split; [done|]. intros p s''. subst s''.
  destruct (sp_prefetch_cases url p s')
    as [[-> [?|[Hsome|[? ?]]]]|[[-> (_ & _ & ? & _)]|[-> _]]]; simpl.
  - done.
  - rewrite Hc' in Hsome. by destruct Hsome.
  - right. done.
  - right. split; [done|]. apply elem_of_app. right.
    by apply list_elem_of_singleton.
  - left. split; [done|]. apply lookup_insert_eq.
Qed.

(** C3 for [StaticPrefetcher]: in a reachable state a request for an
    identifier that is cached, marked prefetched (in flight or done) or
    pending changes nothing: no fetch, no second entry in the pending
    list. *)
Lemma sp_request_idempotent evs url p :
  let s := run init evs in
  is_Some (cache s !! url) ∨ url ∈ prefetched s ∨ url ∈ prefetchQueue s →
  prefetch url p s = s ∧ NoDup (prefetchQueue s).
Proof.
  intros s Hor.
  assert (wf s) as Hw by apply sp_run_wf, sp_init_wf.
  pose proof Hw as (Hc & Hs & Hh).
  split; [|apply (wf_queue_nodup _ Hc)].
  unfold StaticPrefetcher.prefetch.
  destruct (decide (url ∈ prefetched s)); [done|].
  destruct (decide (is_Some (cache s !! url))); [done|].
  destruct Hor as [?|[?|Hq]]; [done..|].
  destruct (decide (K ≤ activePrefetches s)) as [|Hn].
  - by destruct (decide (url ∈ prefetchQueue s)).
  - destruct Hn. by eapply sp_sat_elem.
Qed.

Lemma sp_prefetch_fetches url x p s :
  x ≠ url ∨ url ∈ prefetched s ∨ is_Some (cache s !! url) →
  fetches url (prefetch x p s) = fetches url s.
Proof.
  intros Hor. unfold fetches.
  destruct (sp_prefetch_cases x p s)
    as [[-> _]|[[-> _]|[-> (Hp & Hc & _)]]]; simpl; try done.
  rewrite filter_app, length_app.
  rewrite filter_cons_False, filter_nil; [simpl; lia|]. simpl.
  intros ->. destruct Hor as [?|[?|Hsome]]; [done..|].
  rewrite Hc in Hsome. by destruct Hsome.
Qed.

Lemma sp_finally_fetches url s :
  wf_core (set_activePrefetches (activePrefetches s - 1) s) →
  is_Some (cache s !! url) →
  fetches url (finally_block s) = fetches url s.
Proof.
  intros Hc Hsome.
  unfold StaticPrefetcher.finally_block, StaticPrefetcher.processQueue. simpl.
  destruct (prefetchQueue s) as [|x rest] eqn:Hx; [done|].
  case_decide; [done|].
  rewrite sp_prefetch_fetches; [done|]. by right; right.
Qed.

(** Once an identifier is cached no event fetches it again. *)
Lemma sp_step_no_refetch s ev url :
  wf s → is_Some (cache s !! url) →
  fetches url (step s ev) = fetches url s.
Proof.
  intros (Hc & Hs & Hh) Hsome.
  destruct ev as [u|u|dt|h|u p|t r|t r]; simpl.
  - unfold StaticPrefetcher.scheduleHoverPrefetch. by case_decide.
  - unfold mouseleave. by destruct (hoverTimers s !! u).
  - done.
  - unfold StaticPrefetcher.timer_fires.
    destruct (timers s !! h) as [[d u]|]; [|done].
    case_decide; [|done]. unfold fetches at 1. simpl.
    apply (sp_prefetch_fetches url u high (set_hover_log _ (set_timers _ _ s))).
    by right; right.
  - apply sp_prefetch_fetches. by right; right.
  - unfold StaticPrefetcher.fetch_settles.
    destruct (tasks s !! t) as [[u [|]]|] eqn:Hk; [|done..].
    destruct r as [|[|]]; [|done|];
      (rewrite sp_finally_fetches;
       [done|apply (sp_end_fail_core t _ s Hc Hk)|done]).
  - unfold StaticPrefetcher.text_settles.
    destruct (tasks s !! t) as [[u [|]]|] eqn:Hk; [done| |done].
    destruct r as [h|]; rewrite sp_finally_fetches; try done.
    + apply (sp_end_ok_core t _ _ s Hc Hk).
    + simpl. destruct Hsome as [e He].
      destruct (decide (u = url)) as [->|Hne].
      * rewrite lookup_insert_eq. eauto.
      * rewrite lookup_insert_ne by done. eauto.
    + apply (sp_end_fail_core t _ s Hc Hk).
Qed.

(** C3 for [StaticPrefetcher]: after a successful prefetch the number of
    fetches of the identifier never changes again. *)
Lemma sp_cached_no_refetch evs evs' url :
  let s := run init evs in
  is_Some (cache s !! url) →
  fetches url (run s evs') = fetches url s.
Proof.
  intros s.
  assert (wf s) as Hw by apply sp_run_wf, sp_init_wf.
  clearbody s. revert s Hw.
  induction evs' as [|ev evs' IH]; intros s Hw Hsome; [done|].
  simpl. rewrite IH.
  - by apply sp_step_no_refetch.
  - by apply sp_step_wf.
  - destruct Hsome as [e He]. exists e. by apply sp_step_cache.
Qed.

(** ** The hover scheduler (C4, C8) *)



(** Rewriting with the five equations of a frame lemma. *)
Ltac sp_core_frame lem :=
  let E := fresh "E" in
  pose proof lem as E; simpl in E;
  destruct E as (Ep1 & Ep2 & Ep3 & Ep4 & Ep5);
  rewrite ?Ep1, ?Ep2, ?Ep3, ?Ep4, ?Ep5.










(** C4 for [StaticPrefetcher]. *)
Lemma sp_enter_once evs0 url :
  let s := run init evs0 in
  (is_Some (hoverTimers s !! url) → step s (MouseEnter url) = s) ∧
  (hoverTimers s !! url = None →
     timers (step s (MouseEnter url)) =
       <[next_timer s := Timer (now s + delay) url]> (timers s) ∧
     timers s !! next_timer s = None ∧
     hoverTimers (step s (MouseEnter url)) !! url = Some (next_timer s)) ∧
  (∀ h1 h2 d1 d2, timers s !! h1 = Some (Timer d1 url) →
     timers s !! h2 = Some (Timer d2 url) → h1 = h2).
Proof.
  intros s.
  assert (wf s) as (Hc & Hs & Hh) by apply sp_run_wf, sp_init_wf.
  split; [|split].
  - intros Hsome. simpl. unfold StaticPrefetcher.scheduleHoverPrefetch.
    by case_decide.
  - intros Hn. simpl. unfold StaticPrefetcher.scheduleHoverPrefetch.
    case_decide as Hsome; [rewrite Hn in Hsome; by destruct Hsome|]. simpl.
    split; [done|]. split; [|apply lookup_insert_eq].
    apply eq_None_not_Some. intros Hs'.
    apply (wf_timer_fresh _ Hh) in Hs'. lia.
  - intros h1 h2 d1 d2 H1 H2.
    apply (wf_timer_hover _ Hh) in H1, H2. congruence.
Qed.

End StaticFacts.

(** ** [ArticlePrefetcher]: the hover scheduler (C4, C8) *)

Section ArticleFacts.
Import ArticlePrefetcher.
Variable K : Z.
Variable delay : nat.
Variable links_ok : bool.

Local Abbreviation prefetchArticle_fuel :=
  (ArticlePrefetcher.prefetchArticle_fuel K links_ok).
Local Abbreviation prefetchArticle :=
  (ArticlePrefetcher.prefetchArticle K links_ok).
Local Abbreviation processQueue := (ArticlePrefetcher.processQueue K links_ok).
Local Abbreviation finally_block := (ArticlePrefetcher.finally_block K links_ok).
Local Abbreviation step := (ArticlePrefetcher.step K delay links_ok).
Local Abbreviation run := (ArticlePrefetcher.run K delay links_ok).

(** The recursion of [prefetchArticle] through [processQueue] ends: each
    nested call has taken one request off the queue. *)
Lemma ap_prefetchArticle_total fuel slug s :
  (length (prefetchQueue s) < fuel)%nat →
  is_Some (prefetchArticle_fuel fuel slug s).
Proof.
  revert slug s. induction fuel as [|fuel IH]; intros slug s Hlen; [lia|].
  simpl. repeat case_decide; try done.
  destruct links_ok; [|done].
  unfold processQueue_with. simpl.
  destruct (prefetchQueue s) as [|next rest] eqn:Hq; [done|].
  case_decide; [done|]. apply IH. simpl in *. lia.
Qed.

(** The fuel given by [prefetchArticle] and [processQueue] is enough. *)
Lemma ap_prefetchArticle_defined slug s :
  prefetchArticle_fuel (S (length (prefetchQueue s))) slug s
    = Some (prefetchArticle slug s).
Proof.
  unfold ArticlePrefetcher.prefetchArticle.
  destruct (ap_prefetchArticle_total (S (length (prefetchQueue s))) slug s)
    as [s' Hs']; [lia|].
  by rewrite Hs'.
Qed.

Lemma ap_processQueue_defined s :
  processQueue_with K (prefetchArticle_fuel (length (prefetchQueue s))) s
    = Some (processQueue s).
Proof.
  unfold ArticlePrefetcher.processQueue, processQueue_with.
  destruct (prefetchQueue s) as [|next rest] eqn:Hq; [done|].
  case_decide; [done|].
  destruct (ap_prefetchArticle_total (length (next :: rest)) next
              (set_prefetchQueue rest s)) as [s' Hs']; [simpl; lia|].
  by rewrite Hs'.
Qed.

(** A request that finds the slots taken is pushed on the queue, whether
    or not the slug is already there. *)
Lemma ap_push_twice slug s :
  slug ∉ prefetchedUrls s → K ≤ activePrefetches s →
  prefetchArticle slug s = set_prefetchQueue (prefetchQueue s ++ [slug]) s ∧
  prefetchQueue (prefetchArticle slug (prefetchArticle slug s))
    = prefetchQueue s ++ [slug; slug].
Proof.
  intros Hp Hk.
  assert (∀ s0, slug ∉ prefetchedUrls s0 → K ≤ activePrefetches s0 →
            prefetchArticle slug s0
            = set_prefetchQueue (prefetchQueue s0 ++ [slug]) s0) as Hpush.
  { intros s0 Hp0 Hk0. unfold ArticlePrefetcher.prefetchArticle. simpl.
    by repeat case_decide. }
  split; [by apply Hpush|].
  rewrite (Hpush s Hp Hk), Hpush by done. simpl.
  by rewrite <-app_assoc.
Qed.

Lemma ap_prefetchArticle_fuel_hover fuel slug s s' :
  prefetchArticle_fuel fuel slug s = Some s' → hover_part s' = hover_part s.
Proof.
  revert slug s. induction fuel as [|fuel IH]; intros slug s; [done|].
  simpl. repeat case_decide; try by intros [= <-].
  destruct links_ok; [|by intros [= <-]].
  unfold processQueue_with. simpl.
  destruct (prefetchQueue s) as [|next rest]; [by intros [= <-]|].
  case_decide; [by intros [= <-]|].
  intros Hrec. by rewrite (IH _ _ Hrec).
Qed.

Lemma ap_prefetchArticle_hover slug s :
  hover_part (prefetchArticle slug s) = hover_part s.
Proof.
  unfold ArticlePrefetcher.prefetchArticle.
  match goal with
  | |- context [default _ ?x] => destruct x as [s'|] eqn:Hs'; [|done]
  end.
  by eapply ap_prefetchArticle_fuel_hover.
Qed.

Lemma ap_processQueue_hover s : hover_part (processQueue s) = hover_part s.
Proof.
  unfold ArticlePrefetcher.processQueue, processQueue_with.
  destruct (prefetchQueue s) as [|next rest]; [done|].
  case_decide; [done|].
  match goal with
  | |- context [default _ ?x] => destruct x as [s'|] eqn:Hs'; [|done]
  end.
  simpl. by rewrite (ap_prefetchArticle_fuel_hover _ _ _ _ Hs').
Qed.

Lemma ap_finally_hover s : hover_part (finally_block s) = hover_part s.
Proof.
  unfold ArticlePrefetcher.finally_block. by rewrite ap_processQueue_hover.
Qed.

(** Touches, settled fetches and [prefetchAll] leave the hover scheduler
    alone. *)
Lemma ap_step_hover_part s e :
  match e with
  | TouchStart _ | FetchSettles _ _ | TextSettles _ _ | PrefetchAll _ => True
  | _ => False
  end →
  hoverTimers (step s e) = hoverTimers s ∧ timers (step s e) = timers s ∧
  next_timer (step s e) = next_timer s ∧ now (step s e) = now s ∧
  hover_log (step s e) = hover_log s.
Proof.
  assert (∀ s', hover_part s' = hover_part s →
            hoverTimers s' = hoverTimers s ∧ timers s' = timers s ∧
            next_timer s' = next_timer s ∧ now s' = now s ∧
            hover_log s' = hover_log s) as Hpart.
  { unfold hover_part. intros s' Heq. by injection Heq as -> -> -> -> ->. }
  destruct e as [u|u|u|dt|h|t r|t ok|cards|u]; simpl; try done; intros _;
    apply Hpart.
  - apply ap_prefetchArticle_hover.
  - unfold ArticlePrefetcher.fetch_settles.
    destruct (tasks s !! t) as [[u [|]]|]; [|done..].
    destruct r as [|[|]]; [|done|]; by rewrite ap_finally_hover.
  - unfold ArticlePrefetcher.text_settles.
    destruct (tasks s !! t) as [[u [|]]|]; [done| |done].
    destruct ok; by rewrite ap_finally_hover.
  - unfold ArticlePrefetcher.prefetchAll. by rewrite ap_processQueue_hover.
Qed.

Ltac ap_core_frame lem :=
  let E := fresh "E" in
  pose proof lem as E;
  destruct E as (Ep1 & Ep2 & Ep3 & Ep4 & Ep5);
  rewrite ?Ep1, ?Ep2, ?Ep3, ?Ep4, ?Ep5.

Lemma ap_hover_frame s s' :
  hoverTimers s' = hoverTimers s → timers s' = timers s →
  next_timer s' = next_timer s →
  wf_hover s → wf_hover s'.
Proof.
  intros E1 E2 E3 [Hf Hh Ht]. constructor; rewrite ?E1, ?E2, ?E3; auto.
Qed.

(** [handleMouseEnter] replaces the handle registered for the slug. *)
Lemma ap_enter_fields slug s :
  let s' := handleMouseEnter delay slug s in
  timers s' =
    <[next_timer s := Timer (now s + delay) slug]>
      (match hoverTimers s !! slug with
       | Some h => delete h (timers s)
       | None => timers s
       end) ∧
  hoverTimers s' = <[slug := next_timer s]> (hoverTimers s) ∧
  next_timer s' = S (next_timer s) ∧ now s' = now s ∧
  hover_log s' = hover_log s.
Proof.
  unfold handleMouseEnter, clear_existing.
  by destruct (hoverTimers s !! slug).
Qed.

Lemma ap_enter_step slug s :
  timers (step s (MouseEnter slug)) =
    <[next_timer s := Timer (now s + delay) slug]>
      (match hoverTimers s !! slug with
       | Some h => delete h (timers s)
       | None => timers s
       end) ∧
  hoverTimers (step s (MouseEnter slug)) =
    <[slug := next_timer s]> (hoverTimers s) ∧
  now (step s (MouseEnter slug)) = now s ∧
  hover_log (step s (MouseEnter slug)) = hover_log s.
Proof. destruct (ap_enter_fields slug s) as (? & ? & ? & ? & ?). done. Qed.

Lemma ap_enter_hover slug s :
  wf_hover s → wf_hover (handleMouseEnter delay slug s).
Proof.
  intros [Hf Hh Ht].
  destruct (ap_enter_fields slug s) as (E1 & E2 & E3 & _).
  assert (∀ hx d u, match hoverTimers s !! slug with
                    | Some h => delete h (timers s)
                    | None => timers s
                    end !! hx = Some (Timer d u) →
            timers s !! hx = Some (Timer d u) ∧ u ≠ slug ∧
            hx ≠ next_timer s) as Hold.
  { intros hx d u Hx.
    assert (timers s !! hx = Some (Timer d u)) as Hx'.
    { destruct (hoverTimers s !! slug); [|done].
      by apply lookup_delete_Some in Hx as [_ ?]. }
    split; [done|]. split.
    - intros ->. pose proof (Ht _ _ _ Hx') as Hreg. rewrite Hreg in Hx.
      by rewrite lookup_delete_eq in Hx.
    - intros ->. assert (next_timer s < next_timer s)%nat by eauto. lia. }
  constructor; rewrite ?E1, ?E2, ?E3.
  - intros hx [->|[_ [[d u] Hx]]]%lookup_insert_is_Some; [lia|].
    destruct (Hold _ _ _ Hx) as (Hx' & _). assert (hx < next_timer s)%nat by eauto.
    lia.
  - intros u hx [[<- <-]|[Hne Hu]]%lookup_insert_Some.
    + eexists. apply lookup_insert_eq.
    + destruct (Hh _ _ Hu) as [d Hd]. exists d.
      rewrite lookup_insert_ne.
      * destruct (hoverTimers s !! slug) as [h|] eqn:Hs; [|done].
        rewrite lookup_delete_ne; [done|]. intros <-.
        destruct (Hh _ _ Hs) as [d' Hd']. congruence.
      * intros <-. assert (next_timer s < next_timer s)%nat by eauto. lia.
  - intros hx d u [[<- Heq]|[Hne Hx]]%lookup_insert_Some.
    + injection Heq as <- <-. apply lookup_insert_eq.
    + destruct (Hold _ _ _ Hx) as (Hx' & Hu & _).
      rewrite lookup_insert_ne by done. eauto.
Qed.

Lemma ap_drop_hover slug h s s1 :
  wf_hover s → hoverTimers s !! slug = Some h →
  timers s1 = delete h (timers s) → next_timer s1 = next_timer s →
  hoverTimers s1 = hoverTimers s →
  wf_hover (set_hoverTimers (delete slug (hoverTimers s1)) s1).
Proof.
  intros [Hf Hh Ht] Hu E1 E2 E3. constructor; simpl; rewrite ?E1, ?E2, ?E3.
  - intros h' [_ Hs]%lookup_delete_is_Some. auto.
  - intros u h' [Hne Hu']%lookup_delete_Some.
    destruct (Hh _ _ Hu') as [d Hd]. exists d.
    rewrite lookup_delete_ne; [done|]. intros <-.
    destruct (Hh _ _ Hu) as [d' Hd']. congruence.
  - intros h' d u [Hne Hd]%lookup_delete_Some.
    specialize (Ht _ _ _ Hd).
    rewrite lookup_delete_ne; [done|]. intros <-. congruence.
Qed.

Lemma ap_step_wf s e : wf_hover s → wf_hover (step s e).
Proof.
  intros Hw. destruct e as [u|u|u|dt|h|t r|t ok|cards|u].
  - by apply ap_enter_hover.
  - cbn [ArticlePrefetcher.step]. unfold handleMouseLeave.
    destruct (hoverTimers s !! u) as [h|] eqn:Hu; [|done].
    by eapply ap_drop_hover.
  - pose proof (ap_step_hover_part s (TouchStart u) I) as (E1 & E2 & E3 & _).
    by eapply ap_hover_frame.
  - by eapply ap_hover_frame; [..|exact Hw].
  - simpl. unfold ArticlePrefetcher.timer_fires.
    destruct (timers s !! h) as [[d u]|] eqn:Hd; [|done].
    case_decide; [|done].
    set (s2 := set_hover_log _ _).
    pose proof (ap_prefetchArticle_hover u s2) as Hpart.
    unfold hover_part in Hpart. injection Hpart as F1 F2 F3 _ _.
    eapply ap_drop_hover; [exact Hw| |by rewrite F2|by rewrite F3|by rewrite F1].
    by apply (wf_timer_hover _ Hw h d u).
  - pose proof (ap_step_hover_part s (FetchSettles t r) I) as (E1 & E2 & E3 & _).
    by eapply ap_hover_frame.
  - pose proof (ap_step_hover_part s (TextSettles t ok) I) as (E1 & E2 & E3 & _).
    by eapply ap_hover_frame.
  - pose proof (ap_step_hover_part s (PrefetchAll cards) I) as (E1 & E2 & E3 & _).
    by eapply ap_hover_frame.
  - exact Hw.
Qed.

Lemma ap_init_wf : wf_hover init.
Proof.
  constructor; simpl.
  - intros h [k Hk]. by rewrite lookup_empty in Hk.
  - intros u h Hk. by rewrite lookup_empty in Hk.
  - intros h d u Hk. by rewrite lookup_empty in Hk.
Qed.

Lemma ap_run_wf s evs : wf_hover s → wf_hover (run s evs).
Proof.
  revert s. induction evs as [|e evs IH]; intros s Hw; [done|].
  simpl. apply IH. by apply ap_step_wf.
Qed.

Lemma ap_step_hover_log s e :
  hover_log (step s e) = hover_log s ∨
  ∃ h d slug, e = TimerFires h ∧ timers s !! h = Some (Timer d slug) ∧
              (d ≤ now s)%nat ∧ hover_log (step s e) = hover_log s ++ [slug].
Proof.
  destruct e as [u|u|u|dt|h|t r|t ok|cards|u].
  - left. apply (ap_enter_fields u s).
  - left. cbn [ArticlePrefetcher.step]. unfold handleMouseLeave. by destruct (hoverTimers s !! u).
  - left. apply (ap_step_hover_part s (TouchStart u) I).
  - by left.
  - simpl. unfold ArticlePrefetcher.timer_fires.
    destruct (timers s !! h) as [[d u]|] eqn:Hd; [|by left].
    case_decide; [|by left]. right. exists h, d, u. repeat split; try done.
    simpl.
    pose proof (ap_prefetchArticle_hover u
                  (set_hover_log (hover_log s ++ [u])
                     (set_timers (delete h (timers s)) (next_timer s) s)))
      as Hpart.
    unfold hover_part in Hpart. by injection Hpart as _ _ _ _ ->.
  - left. apply (ap_step_hover_part s (FetchSettles t r) I).
  - left. apply (ap_step_hover_part s (TextSettles t ok) I).
  - left. apply (ap_step_hover_part s (PrefetchAll cards) I).
  - by left.
Qed.




Lemma ap_step_hoverTimers_None s e slug :
  hoverTimers s !! slug = None → e ≠ MouseEnter slug →
  hoverTimers (step s e) !! slug = None.
Proof.
  intros Hn Hne. destruct e as [u|u|u|dt|h|t r|t ok|cards|u].
  - destruct (ap_enter_fields u s) as (_ & E2 & _). simpl in *. rewrite E2.
    rewrite lookup_insert_ne; [done|]. congruence.
  - cbn [ArticlePrefetcher.step]. unfold handleMouseLeave.
    destruct (hoverTimers s !! u) eqn:?; [|done]. simpl.
    apply lookup_delete_None. by right.
  - by ap_core_frame (ap_step_hover_part s (TouchStart u) I).
  - done.
  - simpl. unfold ArticlePrefetcher.timer_fires.
    destruct (timers s !! h) as [[d u]|]; [|done].
    case_decide; [|done]. simpl.
    pose proof (ap_prefetchArticle_hover u
                  (set_hover_log (hover_log s ++ [u])
                     (set_timers (delete h (timers s)) (next_timer s) s)))
      as Hpart.
    unfold hover_part in Hpart. injection Hpart as -> _ _ _ _. simpl.
    apply lookup_delete_None. by right.
  - by ap_core_frame (ap_step_hover_part s (FetchSettles t r) I).
  - by ap_core_frame (ap_step_hover_part s (TextSettles t ok) I).
  - by ap_core_frame (ap_step_hover_part s (PrefetchAll cards) I).
  - done.
Qed.

Lemma ap_run_idle slug evs s :
  wf_hover s → hoverTimers s !! slug = None → MouseEnter slug ∉ evs →
  ∃ l, hover_log (run s evs) = hover_log s ++ l ∧ slug ∉ l.
Proof.
  revert s. induction evs as [|e evs IH]; intros s Hw Hn Hnin.
  { exists []. rewrite app_nil_r. split; [done|apply not_elem_of_nil]. }
  apply not_elem_of_cons in Hnin as [Hne Hnin]. simpl.
  destruct (IH (step s e)) as (l & Hl & Hnl); [by apply ap_step_wf| |done|].
  - apply ap_step_hoverTimers_None; [done|congruence].
  - rewrite Hl.
    destruct (ap_step_hover_log s e) as [->|(h & d & u & _ & Hd & Hdn & ->)].
    + by exists l.
    + exists (u :: l). split; [by rewrite <-app_assoc|].
      apply not_elem_of_cons. split; [|done].
      intros ->. apply (wf_timer_hover _ Hw) in Hd. congruence.
Qed.




(** C4 for [ArticlePrefetcher]: a hover-enter while a timer is running
    cancels it and starts a new one with a full delay. *)
Lemma ap_enter_restarts evs0 slug h d :
  let s := run init evs0 in
  timers s !! h = Some (Timer d slug) →
  let s' := step s (MouseEnter slug) in
  timers s' !! h = None ∧
  timers s' !! next_timer s = Some (Timer (now s + delay) slug) ∧
  hoverTimers s' !! slug = Some (next_timer s) ∧
  (∀ h1 h2 d1 d2, timers s' !! h1 = Some (Timer d1 slug) →
     timers s' !! h2 = Some (Timer d2 slug) → h1 = h2).
Proof.
  intros s Hd s'.
  assert (wf_hover s) as Hw by apply ap_run_wf, ap_init_wf.
  assert (wf_hover s') as Hw' by (by apply ap_step_wf).
  destruct (ap_enter_step slug s) as (E1 & E2 & _).
  fold s' in E1, E2.
  pose proof (wf_timer_hover _ Hw _ _ _ Hd) as Hreg. rewrite Hreg in E1.
  assert (h ≠ next_timer s) as Hne.
  { intros ->. assert (next_timer s < next_timer s)%nat; [|lia].
    apply (wf_timer_fresh _ Hw). eauto. }
  rewrite E1, E2. split; [|split; [|split]].
  - rewrite lookup_insert_ne by done. apply lookup_delete_eq.
  - apply lookup_insert_eq.
  - apply lookup_insert_eq.
  - intros h1 h2 d1 d2 H1 H2. rewrite <-E1 in H1, H2.
    apply (wf_timer_hover _ Hw') in H1, H2. congruence.
Qed.

End ArticleFacts.

(** ** The hover scheduler in both classes (C4, C8) *)

(** C4, as the code has it.  In both classes at most one live timer exists
    per identifier.  In [StaticPrefetcher] a hover-enter while a timer is
    registered for the identifier changes nothing, and a timer due after
    the full delay is created when none is registered.  In
    [ArticlePrefetcher] a hover-enter while a timer is running cancels that
    timer and starts a new one due after the full delay. *)
Theorem hover_enter_one_timer (K : Z) (delay : nat)
    (parse : string → StaticPrefetcher.document) (links_ok : bool) :
  (∀ evs0 url,
     let s := StaticPrefetcher.run K delay parse StaticPrefetcher.init evs0 in
     let s' := StaticPrefetcher.step K delay parse s
                 (StaticPrefetcher.MouseEnter url) in
     (is_Some (StaticPrefetcher.hoverTimers s !! url) → s' = s) ∧
     (StaticPrefetcher.hoverTimers s !! url = None →
        StaticPrefetcher.timers s' =
          <[StaticPrefetcher.next_timer s :=
              Timer (StaticPrefetcher.now s + delay) url]>
            (StaticPrefetcher.timers s) ∧
        StaticPrefetcher.timers s !! StaticPrefetcher.next_timer s = None ∧
        StaticPrefetcher.hoverTimers s' !! url =
          Some (StaticPrefetcher.next_timer s)) ∧
     (∀ h1 h2 d1 d2,
        StaticPrefetcher.timers s !! h1 = Some (Timer d1 url) →
        StaticPrefetcher.timers s !! h2 = Some (Timer d2 url) → h1 = h2)) ∧
  (∀ evs0 slug h d,
     let s := ArticlePrefetcher.run K delay links_ok ArticlePrefetcher.init
                evs0 in
     ArticlePrefetcher.timers s !! h = Some (Timer d slug) →
     let s' := ArticlePrefetcher.step K delay links_ok s
                 (ArticlePrefetcher.MouseEnter slug) in
     ArticlePrefetcher.timers s' !! h = None ∧
     ArticlePrefetcher.timers s' !! ArticlePrefetcher.next_timer s =
       Some (Timer (ArticlePrefetcher.now s + delay) slug) ∧
     ArticlePrefetcher.hoverTimers s' !! slug =
       Some (ArticlePrefetcher.next_timer s) ∧
     (∀ h1 h2 d1 d2,
        ArticlePrefetcher.timers s' !! h1 = Some (Timer d1 slug) →
        ArticlePrefetcher.timers s' !! h2 = Some (Timer d2 slug) → h1 = h2)).
Proof.
  split.
  - intros evs0 url. apply sp_enter_once.
  - intros evs0 slug h d. apply ap_enter_restarts.
Qed.


(** ** Instant navigation (C5) *)



(** ** The render draft: failures are cached (C7) *)

Section RenderFacts.
Import RenderDraft.
Variable K : Z.
Variable render : string → string.

(** [renderFile] never rejects: the [catch] block of [prefetchArticle] is
    never entered when a fetch fails. *)
Lemma rd_renderFile_never_rejects r r' :
  renderFile_after_fetch r ≠ Some Rejected ∧
  renderFile_after_text render r' ≠ Rejected.
Proof. split; [by destruct r as [|[|]] | by destruct r']. Qed.

Lemma rd_processQueue_cache s slug html :
  htmlCache s !! slug = Some html →
  htmlCache (processQueue K s) !! slug = Some html ∧
  (slug ∈ prefetchedSlugs s → slug ∈ prefetchedSlugs (processQueue K s)).
Proof.
  intros Hc. unfold processQueue.
  destruct (prefetchQueue s) as [|next rest]; [done|].
  case_decide; [done|]. unfold prefetchArticle.
  repeat case_decide; simpl; try done.
  destruct (renderer s); simpl; [|done].
  split; [done|]. intros ?. by apply elem_of_union_r.
Qed.

(** A fetch that fails (rejected, or a response that is not [ok]) stores
    the error markup in [htmlCache] and leaves the slug marked prefetched,
    so the next request for the slug returns at its first line. *)
Lemma rd_failure_is_cached s t slug r :
  tasks s !! t = Some (Task slug AwaitFetch) → r ≠ Http true →
  slug ∈ prefetchedSlugs s →
  let s' := fetch_settles K t r s in
  htmlCache s' !! slug = Some error_markup ∧
  slug ∈ prefetchedSlugs s' ∧
  prefetchArticle K slug s' = s'.
Proof.
  intros Hk Hr Hin s'.
  assert (s' = finally_block K
                 (set_htmlCache (<[slug := error_markup]> (htmlCache (end_task t s)))
                    (end_task t s))) as ->.
  { subst s'. unfold fetch_settles. rewrite Hk. by destruct r as [|[|]]. }
  unfold finally_block.
  match goal with
  | |- context [processQueue K ?x] =>
      destruct (rd_processQueue_cache x slug error_markup) as [Hc Hp]
  end.
  { simpl. apply lookup_insert_eq. }
  split; [done|]. split; [by apply Hp|].
  unfold prefetchArticle at 1. case_decide as Hn; [done|]. destruct Hn. by apply Hp.
Qed.

End RenderFacts.

(** ** The prerender draft: the container (C6) *)

Section PrerenderFacts.
Import PrerenderDraft.
Variable inner_slug : string → string → option nat.
Variable inner_markup : string → nat → string.
Variable inner_remove : string → nat → string.
Variable odd_selector : string → list (string * string) → result (option position).

Local Abbreviation first_match := (PrerenderDraft.first_match inner_slug).
Local Abbreviation markup_at := (PrerenderDraft.markup_at inner_markup).
Local Abbreviation remove_at := (PrerenderDraft.remove_at inner_remove).
Local Abbreviation getPrerendered :=
  (PrerenderDraft.getPrerendered inner_slug inner_markup odd_selector).
Local Abbreviation prerenderArticle :=
  (PrerenderDraft.prerenderArticle inner_slug inner_remove odd_selector).

Lemma pd_remove_first_fresh slug (ws : list (string * string)) :
  slug ∉ ws.*1 → remove_first slug ws = ws.
Proof.
  induction ws as [|w ws IH]; [done|]. simpl.
  intros [Hne Hnin]%not_elem_of_cons.
  case_decide; [congruence|]. by rewrite IH.
Qed.

Lemma pd_filter_fresh slug (ws : list (string * string)) :
  slug ∉ ws.*1 → filter (λ w, w.1 = slug) ws = [].
Proof.
  induction ws as [|w ws IH]; [done|]. simpl.
  intros [Hne Hnin]%not_elem_of_cons.
  rewrite filter_cons_False by congruence. by apply IH.
Qed.

Lemma pd_remove_first_names slug (ws : list (string * string)) :
  NoDup ws.*1 →
  NoDup (remove_first slug ws).*1 ∧ slug ∉ (remove_first slug ws).*1.
Proof.
  induction ws as [|w ws IH]; simpl.
  { intros _. split; [apply NoDup_nil_2|apply not_elem_of_nil]. }
  intros [Hnin Hnd]%NoDup_cons. destruct (IH Hnd) as [IH1 IH2].
  case_decide as Hw.
  - split; [done|]. by rewrite <-Hw.
  - simpl. split.
    + apply NoDup_cons. split; [|done].
      intros Hin. apply Hnin.
      clear -Hin. induction ws as [|w' ws IH]; simpl in *; [done|].
      case_decide; [by right|].
      simpl in Hin. apply elem_of_cons in Hin as [->|?]; [by left|].
      right. by apply IH.
    + apply not_elem_of_cons. split; [congruence|done].
Qed.

Lemma pd_shift pos w (ws : list (string * string)) :
  markup_at (w :: ws) (shift pos) = markup_at ws pos ∧
  remove_at (shift pos) (w :: ws) = w :: remove_at pos ws.
Proof. by destruct pos. Qed.

(** Where no wrapper holds an element with the slug inside it, the search
    looks at the wrappers alone. *)
Lemma pd_first_match slug (ws : list (string * string)) :
  Forall (λ w, inner_slug w.2 slug = None) ws →
  first_match slug ws ≫= markup_at ws
    = snd <$> head (filter (λ w, w.1 = slug) ws) ∧
  match first_match slug ws with
  | Some pos => remove_at pos ws
  | None => ws
  end = remove_first slug ws.
Proof.
  induction ws as [|w ws IH]; [done|].
  intros [Hw Hws]%Forall_cons. destruct (IH Hws) as [IH1 IH2].
  simpl. case_decide as Hslug.
  - by rewrite filter_cons_True by done.
  - rewrite Hw, filter_cons_False by done. rewrite <-IH1, <-IH2.
    destruct (first_match slug ws) as [pos|]; simpl; [|done].
    by destruct (pd_shift pos w ws) as [-> ->].
Qed.

(** The wrappers of a container built by [prerenderArticle] alone have
    distinct slugs, and the write replaces: for a quotable slug that no
    element inside the earlier markup carries, what [getPrerendered] returns
    afterwards is the markup just written. *)
Lemma pd_prerender_replaces slug h (c : container) :
  quotable slug = true →
  Forall (λ w, inner_slug w.2 slug = None) (default [] c) →
  NoDup (default [] c).*1 →
  let r := prerenderArticle slug h c in
  r.2 = Done () ∧
  getPrerendered slug r.1 = Done (Some h) ∧
  NoDup (default [] r.1).*1 ∧
  default [] r.1 = remove_first slug (default [] c) ++ [(slug, h)].
Proof.
  intros Hq Hin Hnd r. subst r.
  unfold PrerenderDraft.prerenderArticle, PrerenderDraft.getPrerendered,
    querySelector.
  rewrite Hq. cbn [fst snd].
  destruct (pd_first_match slug (default [] c) Hin) as [_ ->].
  set (ws := default [] c) in *.
  destruct (pd_remove_first_names slug ws Hnd) as [Hnd' Hfresh].
  assert (Forall (λ w, inner_slug w.2 slug = None) (remove_first slug ws))
    as Hin'.
  { clear -Hin. induction ws as [|w ws IH]; simpl; [done|].
    apply Forall_cons in Hin as [Hw Hws]. case_decide; [done|].
    apply Forall_cons. split; [done|by apply IH]. }
  split; [done|]. split; [|split; [|done]].
  - f_equal.
    assert (Forall (λ w, inner_slug w.2 slug = None) (remove_first slug ws))
      as Hin'' by done.
    clear Hin'. revert Hfresh Hin''.
    generalize (remove_first slug ws). intros l Hfresh Hl.
    induction l as [|w l IH]; simpl.
    { by rewrite decide_True. }
    apply not_elem_of_cons in Hfresh as [Hne Hfresh].
    apply Forall_cons in Hl as [Hw Hl].
    rewrite decide_False by congruence. rewrite Hw.
    specialize (IH Hfresh Hl).
    destruct (first_match slug (l ++ [(slug, h)])) as [pos|]; [|done].
    simpl in *. by destruct (pd_shift pos w (l ++ [(slug, h)])) as [-> _].
  - simpl. rewrite fmap_app. apply NoDup_app. split; [done|]. split.
    + intros x Hx ->%list_elem_of_singleton. done.
    + apply NoDup_singleton.
Qed.

End PrerenderFacts.

(** ** The connection gate (C9) *)

(** C9.  [checkConnection] returns [false] exactly when the connection
    information is available and either the save-data flag is set or the
    effective type is known and at or below the tier of 2g; without
    connection information, or without an effective type when save-data is
    off, it returns [true]; it is a function of the navigator alone (the
    three classes compute the same one), and the constructor stores its
    value once in [shouldPrefetch]. *)
Theorem connection_gate (nav : Connection.navigator) :
  (StaticPrefetcher.checkConnection nav = false ↔
     ∃ c, Connection.nav_connection nav = Some c ∧
          (Connection.saveData c = true ∨
           ∃ t, Connection.effectiveType c = Some t ∧
                (Connection.tier t ≤ Connection.tier Connection._2g)%nat)) ∧
  (Connection.nav_connection nav = None →
     StaticPrefetcher.checkConnection nav = true) ∧
  (∀ c, Connection.nav_connection nav = Some c →
     Connection.saveData c = false → Connection.effectiveType c = None →
     StaticPrefetcher.checkConnection nav = true) ∧
  ArticlePrefetcher.checkConnection nav = StaticPrefetcher.checkConnection nav ∧
  RenderDraft.checkConnection nav = StaticPrefetcher.checkConnection nav ∧
  (∀ globals opts fs i,
     Constructor.constructor globals nav opts = (fs, inr i) →
     Constructor.shouldPrefetch i = StaticPrefetcher.checkConnection nav).
Proof.
  assert (∀ globals opts fs i,
            Constructor.constructor globals nav opts = (fs, inr i) →
            Constructor.shouldPrefetch i = StaticPrefetcher.checkConnection nav)
    as Hcons.
  { intros globals opts fs i. unfold Constructor.constructor.
    destruct (Constructor.eval_options globals opts); [done|].
    by intros [= _ <-]. }
  unfold StaticPrefetcher.checkConnection, ArticlePrefetcher.checkConnection,
    RenderDraft.checkConnection in *.
  destruct nav as [[[sd et]|]]; simpl in *.
  - split; [|split; [done|split; [|done]]].
    + unfold Connection.effectiveType_is. simpl. split.
      * intros Hf. eexists. split; [reflexivity|]. simpl.
        destruct sd; [by left|]. right.
        destruct et as [[| | |]|]; simpl in *; try done;
          eexists; (split; [reflexivity|]); simpl; lia.
      * intros (c & [= <-] & [Hs|(t & Ht & Hle)]); simpl in *;
          [by rewrite Hs|].
        destruct sd; [done|]. subst et.
        destruct t; simpl in *; try done; lia.
    + intros c [= <-]. simpl. intros -> ->. done.
  - split; [|done]. split; [done|]. by intros (c & ? & _).
Qed.

(** ** The constructor of [StaticPrefetcher] (C10) *)

(** C10.  When no global named [tre] exists, [new StaticPrefetcher(options)]
    throws a [ReferenceError] for every options object, before any field of
    the new object is assigned, and so does the auto-initialisation at the
    end of the file: no prefetcher is stored in [window.prefetcher] and
    [init()] attaches nothing. *)
Theorem constructor_throws (globals : Constructor.object)
    (nav : Connection.navigator) (opts : Constructor.object) :
  globals !! "tre" = None →
  Constructor.constructor globals nav opts
    = ([], inl (Constructor.ReferenceError "tre")) ∧
  Constructor.auto_initialize globals nav
    = inl (Constructor.ReferenceError "tre").
Proof.
  intros Hn.
  assert (∀ o, Constructor.eval_options globals o
               = inl (Constructor.ReferenceError "tre")) as He.
  { intros o. unfold Constructor.eval_options, Constructor.resolve.
    by rewrite Hn. }
  unfold Constructor.auto_initialize, Constructor.constructor.
  by rewrite !He.
Qed.

(** ** The cache in both drafts (C6) *)

(** C6, as the code has it.  The write itself overwrites: in
    [StaticPrefetcher], when [response.text()] settles, [cache.set] stores
    the new entry whatever the cache held; in the prerender draft,
    [prerenderArticle] removes the element that [getPrerendered] finds and
    appends the new wrapper, so for a slug that the selector quotes as it
    is, in a container whose wrappers have distinct slugs and hold no
    element with that [data-slug] inside their markup, the call returns and
    [getPrerendered] then returns the markup just written.  What keeps an
    entry is the guard of [prefetch]: a request for an identifier that is
    cached, or marked prefetched, returns at once and changes nothing, so
    that along every sequence of hover events, requests and settled fetches
    from the initial state an entry, once inserted, stays as it is. *)
Theorem cache_writes_guarded (K : Z) (delay : nat)
    (parse : string → StaticPrefetcher.document) :
  (∀ s t url h,
     StaticPrefetcher.tasks s !! t = Some (Task url AwaitText) →
     StaticPrefetcher.cache
       (StaticPrefetcher.text_settles K parse t (Some h) s) !! url =
       Some {| StaticPrefetcher.html := h; StaticPrefetcher.doc := parse h;
               StaticPrefetcher.timestamp := StaticPrefetcher.now s |}) ∧
  (∀ s url p,
     is_Some (StaticPrefetcher.cache s !! url)
     ∨ url ∈ StaticPrefetcher.prefetched s →
     StaticPrefetcher.prefetch K url p s = s) ∧
  (∀ evs evs' url e,
     let s := StaticPrefetcher.run K delay parse StaticPrefetcher.init evs in
     StaticPrefetcher.cache s !! url = Some e →
     StaticPrefetcher.cache (StaticPrefetcher.run K delay parse s evs') !! url
       = Some e) ∧
  (∀ inner_slug inner_markup inner_remove odd_selector slug h c,
     PrerenderDraft.quotable slug = true →
     Forall (λ w, inner_slug w.2 slug = None) (default [] c) →
     NoDup (default [] c).*1 →
     let r := PrerenderDraft.prerenderArticle inner_slug inner_remove
                odd_selector slug h c in
     r.2 = PrerenderDraft.Done () ∧
     PrerenderDraft.getPrerendered inner_slug inner_markup odd_selector
       slug r.1 = PrerenderDraft.Done (Some h) ∧
     NoDup (default [] r.1).*1).
Proof.
  destruct (sp_cache_guarded_writes K delay parse) as (H1 & H2 & H3).
  split; [exact H1|]. split; [exact H2|]. split; [exact H3|].
  intros inner_slug inner_markup inner_remove odd_selector slug h c Hq Hin Hnd.
  destruct (pd_prerender_replaces inner_slug inner_markup inner_remove
              odd_selector slug h c Hq Hin Hnd) as (Hr & Hg & Hn & _).
  done.
Qed.

(** * Examples: the theorems at concrete inputs, and the inputs on which
      the specification and the code differ *)

Ltac by_computation :=
  match goal with
  | |- ?P => apply (bool_decide_unpack P); vm_compute; exact I
  end.

(** ** C1 *)

Lemma sp_active_slots_bounded_witness :
  0 ≤ 3 ∧
  let s := StaticPrefetcher.run 3 65 StaticPrefetcher.sample_parse
             StaticPrefetcher.init
             [StaticPrefetcher.Prefetch "a" low;
              StaticPrefetcher.Prefetch "b" low;
              StaticPrefetcher.Prefetch "c" low;
              StaticPrefetcher.Prefetch "d" high;
              StaticPrefetcher.FetchSettles 0 NetworkError] in
  0 ≤ StaticPrefetcher.activePrefetches s ≤ 3.
Proof.
  split; [lia|].
  apply (sp_active_slots_bounded 3 65 StaticPrefetcher.sample_parse
           [StaticPrefetcher.Prefetch "a" low;
            StaticPrefetcher.Prefetch "b" low;
            StaticPrefetcher.Prefetch "c" low;
            StaticPrefetcher.Prefetch "d" high;
            StaticPrefetcher.FetchSettles 0 NetworkError]).
  lia.
Defined.

(** ** C2 *)


(** The drain on the state between the decrement and [processQueue]: the
    head of the list is admitted and fetched with priority [high], though it
    was requested with priority [low]. *)
Example sp_drain_head_example :
  let s0 := StaticPrefetcher.run 1 65 StaticPrefetcher.sample_parse
              StaticPrefetcher.init
              [StaticPrefetcher.Prefetch "a" low;
               StaticPrefetcher.Prefetch "b" low;
               StaticPrefetcher.Prefetch "c" high] in
  let s := StaticPrefetcher.set_activePrefetches 0 s0 in
  StaticPrefetcher.prefetchQueue (StaticPrefetcher.processQueue 1 s)
    = ["c"]%string ∧
  StaticPrefetcher.fetch_log (StaticPrefetcher.processQueue 1 s)
    = [("a", low); ("b", high)]%string.
Proof. vm_compute. split; reflexivity. Qed.

(** ** C3 *)

(** C3 fails in [ArticlePrefetcher.prefetchArticle], which pushes on the
    queue without the [includes] test of [StaticPrefetcher.prefetch].  With
    two slots and no link prefetch, [a] and [b] are in flight; two requests
    for [c] leave two entries for [c] in the pending list.  When [a] fails,
    the first entry is fetched; when that fetch fails too, the second entry
    is fetched: two fetches of [c] for requests made before the first one
    completed.  [StaticPrefetcher] keeps one entry for the same requests. *)
Theorem ap_duplicate_pending :
  let s := ArticlePrefetcher.run 2 50 false ArticlePrefetcher.init
             [ArticlePrefetcher.TouchStart "a";
              ArticlePrefetcher.TouchStart "b";
              ArticlePrefetcher.TouchStart "c";
              ArticlePrefetcher.TouchStart "c"] in
  let s' := ArticlePrefetcher.run 2 50 false s
              [ArticlePrefetcher.FetchSettles 0 NetworkError;
               ArticlePrefetcher.FetchSettles 2 NetworkError] in
  ArticlePrefetcher.prefetchQueue s = ["c"; "c"]%string ∧
  ArticlePrefetcher.fetch_log s' =
    [("./articles/a/index.html", low); ("./articles/b/index.html", low);
     ("./articles/c/index.html", low); ("./articles/c/index.html", low)]%string
  ∧
  StaticPrefetcher.prefetchQueue
    (StaticPrefetcher.run 2 50 StaticPrefetcher.sample_parse
       StaticPrefetcher.init
       [StaticPrefetcher.Prefetch "a" low; StaticPrefetcher.Prefetch "b" low;
        StaticPrefetcher.Prefetch "c" low; StaticPrefetcher.Prefetch "c" low])
    = ["c"]%string.
Proof. vm_compute. repeat split; reflexivity. Qed.

(** ** C4 *)

(** In [ArticlePrefetcher], with a delay of 50: a hover-enter at time 0
    starts a timer due at 50; a second hover-enter at time 30 replaces it by
    a timer due at 80, and at time 50 nothing fires.  [StaticPrefetcher]
    ignores the second hover-enter and calls [prefetch] at time 50. *)
Lemma ap_enter_reset_counterexample :
  let s1 := ArticlePrefetcher.run 3 50 false ArticlePrefetcher.init
              [ArticlePrefetcher.MouseEnter "a"; ArticlePrefetcher.Elapse 30] in
  let s2 := ArticlePrefetcher.step 3 50 false s1
              (ArticlePrefetcher.MouseEnter "a") in
  ArticlePrefetcher.timers s1 = {[ 0%nat := Timer 50 "a" ]} ∧
  s2 ≠ s1 ∧
  ArticlePrefetcher.timers s2 = {[ 1%nat := Timer 80 "a" ]} ∧
  ArticlePrefetcher.hover_log
    (ArticlePrefetcher.run 3 50 false s2
       [ArticlePrefetcher.Elapse 20; ArticlePrefetcher.TimerFires 0]) = [] ∧
  StaticPrefetcher.hover_log
    (StaticPrefetcher.run 3 50 StaticPrefetcher.sample_parse
       StaticPrefetcher.init
       [StaticPrefetcher.MouseEnter "a"; StaticPrefetcher.Elapse 30;
        StaticPrefetcher.MouseEnter "a"; StaticPrefetcher.Elapse 20;
        StaticPrefetcher.TimerFires 0]) = ["a"]%string.
Proof.
  split; [by vm_compute|]. split; [|by vm_compute].
  intros Heq. apply (f_equal ArticlePrefetcher.next_timer) in Heq.
  vm_compute in Heq. discriminate.
Qed.

Lemma hover_enter_one_timer_witness :
  let s := ArticlePrefetcher.run 3 50 false ArticlePrefetcher.init
             [ArticlePrefetcher.MouseEnter "a"; ArticlePrefetcher.Elapse 30] in
  ArticlePrefetcher.timers s !! 0%nat = Some (Timer 50 "a") ∧
  ArticlePrefetcher.timers
    (ArticlePrefetcher.step 3 50 false s (ArticlePrefetcher.MouseEnter "a"))
    !! 0%nat = None.
Proof.
  split; [reflexivity|].
  destruct (proj2 (hover_enter_one_timer 3 50 StaticPrefetcher.sample_parse
                     false)
              [ArticlePrefetcher.MouseEnter "a"; ArticlePrefetcher.Elapse 30]
              "a"%string 0%nat 50%nat) as (H & _).
  - reflexivity.
  - exact H.
Defined.

(** ** C5 *)



(** ** C6 *)

(** A write on an existing entry is not a no-op.  In the prerender draft
    the second [prerenderArticle] for a slug replaces the markup (the two
    markups have no element with a [data-slug]).  In
    [StaticPrefetcher], after [clearCache()] during a prefetch of [a], a
    second prefetch of [a] is admitted; the first to settle stores its
    entry and the second overwrites it. *)
Lemma cache_write_counterexample :
  let inner_slug := λ _ _ : string, @None nat in
  let inner_markup := λ (h : string) (_ : nat), h in
  let inner_remove := λ (h : string) (_ : nat), h in
  let odd_selector := λ (_ : string) (_ : list (string * string)),
                        @PrerenderDraft.SyntaxError (option PrerenderDraft.position) in
  let prerenderArticle :=
    PrerenderDraft.prerenderArticle inner_slug inner_remove odd_selector in
  let getPrerendered :=
    PrerenderDraft.getPrerendered inner_slug inner_markup odd_selector in
  let c := (prerenderArticle "a" "<p>old</p>" None).1 in
  let c' := (prerenderArticle "a" "<p>new</p>" c).1 in
  let step := StaticPrefetcher.step 2 65 StaticPrefetcher.sample_parse in
  let s1 := StaticPrefetcher.clearCache
              (step StaticPrefetcher.init (StaticPrefetcher.Prefetch "a" high)) in
  let s2 := StaticPrefetcher.run 2 65 StaticPrefetcher.sample_parse s1
              [StaticPrefetcher.Prefetch "a" high;
               StaticPrefetcher.FetchSettles 0 (Http true);
               StaticPrefetcher.TextSettles 0 (Some "v1"%string)] in
  let s3 := StaticPrefetcher.run 2 65 StaticPrefetcher.sample_parse s2
              [StaticPrefetcher.FetchSettles 1 (Http true);
               StaticPrefetcher.TextSettles 1 (Some "v2"%string)] in
  getPrerendered "a"%string c = PrerenderDraft.Done (Some "<p>old</p>"%string) ∧
  c' ≠ c ∧
  getPrerendered "a"%string c'
    = PrerenderDraft.Done (Some "<p>new</p>"%string) ∧
  StaticPrefetcher.html <$> (StaticPrefetcher.cache s2 !! "a"%string)
    = Some "v1"%string ∧
  StaticPrefetcher.html <$> (StaticPrefetcher.cache s3 !! "a"%string)
    = Some "v2"%string.
Proof. vm_compute. repeat split; try reflexivity. discriminate. Qed.

Lemma cache_writes_guarded_witness :
  let s := StaticPrefetcher.run 2 65 StaticPrefetcher.sample_parse
             StaticPrefetcher.init
             [StaticPrefetcher.Prefetch "a" high;
              StaticPrefetcher.FetchSettles 0 (Http true);
              StaticPrefetcher.TextSettles 0 (Some "v1"%string)] in
  is_Some (StaticPrefetcher.cache s !! "a"%string) ∧
  StaticPrefetcher.prefetch 2 "a" low s = s.
Proof.
  intros s. assert (is_Some (StaticPrefetcher.cache s !! "a"%string)) as Hs.
  { vm_compute. eauto. }
  split; [exact Hs|].
  apply (cache_writes_guarded 2 65 StaticPrefetcher.sample_parse).
  left. exact Hs.
Defined.

(** ** C7 *)

(** C7 fails in the render draft.  [renderFile] catches every failure and
    returns error markup, so the [catch] block of [prefetchArticle] (whose
    comment reads "Allow retrying") is not entered: after a response that is
    not [ok], the error markup is in [htmlCache], the slug stays marked
    prefetched, and a new request for it is dropped without a fetch. *)
Theorem rd_failed_fetch_cached (render : string → string) :
  let s := RenderDraft.run 2 render RenderDraft.init
             [RenderDraft.Prefetch "a";
              RenderDraft.FetchSettles 0 (Http false)] in
  RenderDraft.htmlCache s !! "a"%string = Some RenderDraft.error_markup ∧
  "a"%string ∈ RenderDraft.prefetchedSlugs s ∧
  RenderDraft.fetch_log s = [("./articles/a/article.md", high)]%string ∧
  RenderDraft.run 2 render s [RenderDraft.Prefetch "a"] = s.
Proof.
  split; [by vm_compute|]. split; [by_computation|]. by vm_compute.
Qed.

(** In [StaticPrefetcher] the same failure leaves the cache without an
    entry and the identifier unmarked; the next request fetches again. *)
Lemma sp_failure_not_cached_witness :
  let s := StaticPrefetcher.run 2 65 StaticPrefetcher.sample_parse
             StaticPrefetcher.init [StaticPrefetcher.Prefetch "a" high] in
  let s' := StaticPrefetcher.step 2 65 StaticPrefetcher.sample_parse s
              (StaticPrefetcher.FetchSettles 0 (Http false)) in
  StaticPrefetcher.cache s' !! "a"%string = None ∧
  "a"%string ∉ StaticPrefetcher.prefetched s'.
Proof.
  intros s s'.
  destruct (sp_failure_not_cached 2 65 StaticPrefetcher.sample_parse
              [StaticPrefetcher.Prefetch "a" high]
              (StaticPrefetcher.FetchSettles 0 (Http false)) "a"%string)
    as (H1 & H2 & _).
  - split; [reflexivity|discriminate].
  - split; [exact H1|exact H2].
Defined.

(** ** C8 *)



Example hover_leave_after_fire_example :
  let s := StaticPrefetcher.run 3 65 StaticPrefetcher.sample_parse
             StaticPrefetcher.init
             [StaticPrefetcher.MouseEnter "a"; StaticPrefetcher.Elapse 65] in
  let s1 := StaticPrefetcher.step 3 65 StaticPrefetcher.sample_parse s
              (StaticPrefetcher.TimerFires 0) in
  StaticPrefetcher.timers s !! 0%nat = Some (Timer 65 "a") ∧
  StaticPrefetcher.hover_log s1 = ["a"]%string ∧
  StaticPrefetcher.fetch_log s1 = [("a", high)]%string ∧
  StaticPrefetcher.step 3 65 StaticPrefetcher.sample_parse s1
    (StaticPrefetcher.MouseLeave "a") = s1.
Proof. vm_compute. repeat split; reflexivity. Qed.

(** ** C9 *)

Lemma connection_gate_witness :
  StaticPrefetcher.checkConnection
    {| Connection.nav_connection :=
         Some {| Connection.saveData := false;
                 Connection.effectiveType := Some Connection._2g |} |} = false.
Proof.
  apply (connection_gate _).
  eexists. split; [reflexivity|]. right. simpl.
  exists Connection._2g. split; [reflexivity|]. simpl. lia.
Defined.

(** ** C10 *)

Lemma constructor_throws_witness :
  ({[ "undefined" := Constructor.undefined ]} : Constructor.object)
    !! "tre"%string = None ∧
  Constructor.auto_initialize {[ "undefined" := Constructor.undefined ]}
    {| Connection.nav_connection := None |}
    = inl (Constructor.ReferenceError "tre").
Proof.
  split; [reflexivity|].
  apply (constructor_throws {[ "undefined" := Constructor.undefined ]}
           {| Connection.nav_connection := None |} Constructor.auto_options).
  reflexivity.
Defined.

(** With a global [tre] the same constructor runs to its end: the spread
    lets [maxConcurrent: 0] override the default, and [init()] attaches the
    listeners. *)
Example constructor_with_tre_bound :
  match (Constructor.constructor {[ "tre" := Constructor.boolean true ]}
           {| Connection.nav_connection := None |}
           {[ "maxConcurrent" := Constructor.number 0 ]}).2 with
  | inr i =>
      Constructor.get (Constructor.options i) "maxConcurrent"
        = Constructor.number 0 ∧
      Constructor.attached i =
        ["mouseenter"; "mouseleave"; "click"; "prefetchVisible";
         "IntersectionObserver"]%string
  | inl _ => False
  end.
Proof. vm_compute. split; reflexivity. Qed.


(** * Further properties of the code *)

(** ** [StaticPrefetcher]: [clearCache], [getCacheStats], the hand-over of
       slots *)

Section StaticMore.
Import StaticPrefetcher.
Variable K : Z.
Variable delay : nat.
Variable parse : string → document.

Local Abbreviation prefetch := (StaticPrefetcher.prefetch K).
Local Abbreviation processQueue := (StaticPrefetcher.processQueue K).
Local Abbreviation finally_block := (StaticPrefetcher.finally_block K).
Local Abbreviation step := (StaticPrefetcher.step K delay parse).
Local Abbreviation run := (StaticPrefetcher.run K delay parse).
Local Abbreviation api_step := (StaticPrefetcher.api_step K delay parse).
Local Abbreviation api_run := (StaticPrefetcher.api_run K delay parse).
Local Abbreviation wf := (StaticPrefetcher.wf K).

Lemma sx_counted_frame s s' :
  activePrefetches s' = activePrefetches s → tasks s' = tasks s →
  next_task s' = next_task s → counted s → counted s'.
Proof. unfold counted. by intros -> -> ->. Qed.

Lemma sx_prefetch_counted url p s : counted s → counted (prefetch url p s).
Proof.
  intros [Ha Hf].
  destruct (sp_prefetch_cases K url p s) as [[-> _]|[[-> _]|[-> _]]];
    [done|done|].
  assert (tasks s !! next_task s = None) as Hfresh.
  { apply eq_None_not_Some. intros Hs. apply Hf in Hs. lia. }
  split; simpl.
  - rewrite map_size_insert_None by done. lia.
  - intros t [->|[_ Hs]]%lookup_insert_is_Some; [lia|].
    apply Hf in Hs. lia.
Qed.

Lemma sx_processQueue_counted s : counted s → counted (processQueue s).
Proof.
  intros Hc. unfold StaticPrefetcher.processQueue.
  destruct (prefetchQueue s) as [|url rest]; [done|].
  case_decide; [done|]. apply sx_prefetch_counted.
  by eapply sx_counted_frame; [..|exact Hc].
Qed.

(** The end of a task: the decrement of [finally], then [processQueue]. *)
Lemma sx_finally_counted s s' t k :
  counted s → tasks s !! t = Some k →
  tasks s' = delete t (tasks s) → next_task s' = next_task s →
  activePrefetches s' = activePrefetches s →
  counted (finally_block s').
Proof.
  intros [Ha Hf] Hk Et En Ea. unfold StaticPrefetcher.finally_block.
  apply sx_processQueue_counted. split; simpl.
  - rewrite Et, (sp_size_delete _ _ _ Hk), Ea. lia.
  - rewrite Et, En. intros t' [_ Hs]%lookup_delete_is_Some. auto.
Qed.

Lemma sx_step_counted s e : counted s → counted (step s e).
Proof.
  intros Hc. destruct e as [u|u|dt|h|u p|t r|t r]; simpl.
  - eapply sx_counted_frame; [..|exact Hc];
      unfold StaticPrefetcher.scheduleHoverPrefetch; by case_decide.
  - eapply sx_counted_frame; [..|exact Hc];
      unfold mouseleave; by destruct (hoverTimers s !! u).
  - by eapply sx_counted_frame; [..|exact Hc].
  - unfold StaticPrefetcher.timer_fires.
    destruct (timers s !! h) as [[d u]|]; [|done].
    case_decide; [|done].
    eapply sx_counted_frame with (s := prefetch u high _); [done..|].
    apply sx_prefetch_counted. by eapply sx_counted_frame; [..|exact Hc].
  - by apply sx_prefetch_counted.
  - unfold StaticPrefetcher.fetch_settles.
    destruct (tasks s !! t) as [[u [|]]|] eqn:Hk; [|done..].
    destruct r as [|[|]]; [by eapply sx_finally_counted| |
                           by eapply sx_finally_counted].
    destruct Hc as [Ha Hf]. split; simpl.
    + rewrite map_size_insert_Some by eauto. done.
    + intros t' [->|[_ ?]]%lookup_insert_is_Some; eauto.
  - unfold StaticPrefetcher.text_settles.
    destruct (tasks s !! t) as [[u [|]]|] eqn:Hk; [done| |done].
    destruct r; by eapply sx_finally_counted.
Qed.

Lemma sx_api_run_counted s cs :
  counted s → activePrefetches s ≤ K →
  counted (api_run s cs) ∧ activePrefetches (api_run s cs) ≤ K.
Proof.
  revert s. induction cs as [|c cs IH]; intros s Hc Hb; [done|].
  simpl. apply IH; destruct c as [e|]; simpl.
  - by apply sx_step_counted.
  - by eapply sx_counted_frame; [..|exact Hc].
  - by apply sp_step_bound.
  - done.
Qed.

(** X1.  The slot counter stays exact and bounded when [clearCache()] is
    called at any moment: with a limit [K >= 0], after any sequence of host
    events and calls of [clearCache], the [active] figure of
    [getCacheStats] is the number of suspended prefetches and lies between 0
    and [K]; [clearCache] itself leaves the counter, the pending list and
    the suspended prefetches as they are and empties the two collections. *)
Theorem sx_clearCache_keeps_slots (cs : list call) :
  0 ≤ K →
  let s := api_run init cs in
  stats_active (getCacheStats s) = Z.of_nat (size (tasks s)) ∧
  0 ≤ stats_active (getCacheStats s) ≤ K ∧
  tasks (clearCache s) = tasks s ∧
  prefetchQueue (clearCache s) = prefetchQueue s ∧
  stats_active (getCacheStats (clearCache s)) = stats_active (getCacheStats s) ∧
  stats_cached (getCacheStats (clearCache s)) = 0%nat ∧
  stats_prefetched (getCacheStats (clearCache s)) = 0%nat.
Proof.
  intros HK s.
  destruct (sx_api_run_counted init cs) as [[Ha Hf] Hb].
  { split; simpl; [by rewrite map_size_empty|].
    intros t [k Hk]. by rewrite lookup_empty in Hk. }
  { simpl. lia. }
  fold s in Ha, Hf, Hb. simpl. repeat split; try done.
  - rewrite Ha. lia.
Qed.

Lemma sx_wf_counted s : wf_core s → counted s.
Proof. intros [Ha Hf _ _ _ _]. by split. Qed.

Lemma sx_prefetch_books url p s :
  counted s → ledger s ∧ bookkeeping s →
  ledger (prefetch url p s) ∧ bookkeeping (prefetch url p s).
Proof.
  intros [Ha Hf] [Hl Hb].
  destruct (sp_prefetch_cases K url p s)
    as [[-> _]|[[-> _]|[-> (Hp & Hc & _)]]]; [done|done|].
  assert (tasks s !! next_task s = None) as Hfresh.
  { apply eq_None_not_Some. intros Hs. apply Hf in Hs. lia. }
  unfold ledger, bookkeeping in *. simpl. split.
  - rewrite size_union, size_singleton, map_size_insert_None by
      (done || by apply disjoint_singleton_l). lia.
  - intros u. rewrite elem_of_union, elem_of_singleton, Hb. split.
    + intros [->|[?|(t & st & Ht)]]; [| by left |].
      * right. exists (next_task s), AwaitFetch. apply lookup_insert_eq.
      * right. exists t, st. rewrite lookup_insert_ne; [done|]. congruence.
    + intros [?|(t & st & [[_ Heq]|[_ Ht]]%lookup_insert_Some)].
      * right. by left.
      * left. by injection Heq.
      * right. right. eauto.
Qed.

Lemma sx_processQueue_books s :
  counted s → ledger s ∧ bookkeeping s →
  ledger (processQueue s) ∧ bookkeeping (processQueue s).
Proof.
  intros Hc Hlb. unfold StaticPrefetcher.processQueue.
  destruct (prefetchQueue s) as [|url rest]; [done|].
  case_decide; [done|]. apply sx_prefetch_books; [|done].
  by eapply sx_counted_frame; [..|exact Hc].
Qed.

(** A task that ends in the [catch] block. *)
Lemma sx_fail_books s t url st :
  wf_core s → ledger s ∧ bookkeeping s →
  tasks s !! t = Some (Task url st) →
  let s' := finally_block (catch_block url (end_task t s)) in
  ledger s' ∧ bookkeeping s'.
Proof.
  intros Hw [Hl Hb] Hk s'. subst s'. unfold StaticPrefetcher.finally_block.
  destruct (wf_task_marked _ Hw _ _ Hk) as [Hin Hn]. simpl in Hin, Hn.
  apply sx_processQueue_books.
  { apply sx_wf_counted. apply (sp_end_fail_core t _ s Hw Hk). }
  unfold ledger, bookkeeping in *. simpl. split.
  - rewrite size_difference by (by apply singleton_subseteq_l).
    rewrite size_singleton, (sp_size_delete _ _ _ Hk).
    assert (size (prefetched s) ≠ 0%nat).
    { intros Hz. apply size_empty_inv in Hz. apply (Hz url) in Hin.
      by apply not_elem_of_empty in Hin. }
    lia.
  - intros u. rewrite elem_of_difference, elem_of_singleton, Hb. split.
    + intros [[?|(t' & st' & Ht')] Hne]; [by left|]. right.
      exists t', st'. rewrite lookup_delete_ne; [done|]. congruence.
    + intros [Hc|(t' & st' & [Hne Ht']%lookup_delete_Some)].
      * split; [by left|]. intros ->. rewrite Hn in Hc. by destruct Hc.
      * split; [right; eauto|]. intros ->. apply Hne.
        by apply (wf_task_inj _ Hw _ _ _ _ Hk Ht').
Qed.

(** A task that ends with [cache.set]. *)
Lemma sx_ok_books s t url h :
  wf_core s → ledger s ∧ bookkeeping s →
  tasks s !! t = Some (Task url AwaitText) →
  let s1 := end_task t s in
  let s' := finally_block
              (set_cache (<[url := {| html := h; doc := parse h;
                                      timestamp := now s1 |}]> (cache s1)) s1) in
  ledger s' ∧ bookkeeping s'.
Proof.
  intros Hw [Hl Hb] Hk s1 s'. subst s' s1. unfold StaticPrefetcher.finally_block.
  destruct (wf_task_marked _ Hw _ _ Hk) as [Hin Hn]. simpl in Hin, Hn.
  apply sx_processQueue_books.
  { apply sx_wf_counted. apply (sp_end_ok_core t _ _ s Hw Hk). }
  unfold ledger, bookkeeping in *. simpl. split.
  - rewrite map_size_insert_None, (sp_size_delete _ _ _ Hk) by done. lia.
  - intros u. rewrite Hb. split.
    + intros [[e He]|(t' & st' & Ht')].
      * left. destruct (decide (url = u)) as [->|Hne]; [congruence|].
        rewrite lookup_insert_ne by done. eauto.
      * destruct (decide (t' = t)) as [->|Hne].
        -- left. rewrite Hk in Ht'. injection Ht' as -> _.
           rewrite lookup_insert_eq. eauto.
        -- right. exists t', st'. by rewrite lookup_delete_ne.
    + intros [[e He]|(t' & st' & [Hne Ht']%lookup_delete_Some)].
      * apply lookup_insert_Some in He as [[<- _]|[_ He]].
        -- right. eauto.
        -- left. eauto.
      * right. eauto.
Qed.

Lemma sx_books_frame s s' :
  prefetched s' = prefetched s → cache s' = cache s → tasks s' = tasks s →
  ledger s ∧ bookkeeping s → ledger s' ∧ bookkeeping s'.
Proof. unfold ledger, bookkeeping. by intros -> -> ->. Qed.

Lemma sx_step_books s e :
  wf s → ledger s ∧ bookkeeping s →
  ledger (step s e) ∧ bookkeeping (step s e).
Proof.
  intros (Hc & Hs & Hh) Hlb.
  destruct e as [u|u|dt|h|u p|t r|t r]; simpl.
  - eapply sx_books_frame; [..|exact Hlb];
      unfold StaticPrefetcher.scheduleHoverPrefetch; by case_decide.
  - eapply sx_books_frame; [..|exact Hlb];
      unfold mouseleave; by destruct (hoverTimers s !! u).
  - by eapply sx_books_frame; [..|exact Hlb].
  - unfold StaticPrefetcher.timer_fires.
    destruct (timers s !! h) as [[d u]|]; [|done].
    case_decide; [|done].
    eapply sx_books_frame with (s := prefetch u high _); [done..|].
    apply sx_prefetch_books.
    + eapply sx_counted_frame; [..|exact (sx_wf_counted _ Hc)]; done.
    + by eapply sx_books_frame; [..|exact Hlb].
  - apply sx_prefetch_books; [by apply sx_wf_counted|done].
  - unfold StaticPrefetcher.fetch_settles.
    destruct (tasks s !! t) as [[u [|]]|] eqn:Hk; [|done..].
    destruct r as [|[|]]; [by eapply sx_fail_books| |by eapply sx_fail_books].
    destruct Hlb as [Hl Hb]. unfold ledger, bookkeeping in *. simpl. split.
    + rewrite map_size_insert_Some by eauto. done.
    + intros u'. rewrite Hb. split.
      * intros [?|(t' & st' & Ht')]; [by left|]. right.
        destruct (decide (t' = t)) as [->|Hne].
        -- rewrite Hk in Ht'. injection Ht' as -> _.
           exists t, AwaitText. apply lookup_insert_eq.
        -- exists t', st'. by rewrite lookup_insert_ne.
      * intros [?|(t' & st' & [[<- Heq]|[_ Ht']]%lookup_insert_Some)];
          [by left| |right; eauto].
        injection Heq as <- _. right. eauto.
  - unfold StaticPrefetcher.text_settles.
    destruct (tasks s !! t) as [[u [|]]|] eqn:Hk; [done| |done].
    destruct r; [by apply sx_ok_books|by eapply sx_fail_books].
Qed.

Lemma sx_run_books s evs :
  wf s → ledger s ∧ bookkeeping s →
  ledger (run s evs) ∧ bookkeeping (run s evs).
Proof.
  revert s. induction evs as [|e evs IH]; intros s Hw Hlb; [done|].
  simpl. apply IH; [by apply sp_step_wf | by apply sx_step_books].
Qed.

(** X2.  Without [clearCache], the figures of [getCacheStats] add up after
    every sequence of host events: [prefetched] is [cached] plus [active],
    because an identifier is marked prefetched exactly when its entry is in
    the cache or its prefetch is in flight; a failed prefetch is in neither,
    and a pending one is not marked. *)
Theorem sx_stats_add_up (evs : list event) :
  let s := run init evs in
  Z.of_nat (stats_prefetched (getCacheStats s)) =
    Z.of_nat (stats_cached (getCacheStats s)) + stats_active (getCacheStats s)
  ∧ (∀ u, u ∈ prefetched s ↔
          is_Some (cache s !! u) ∨ ∃ t st, tasks s !! t = Some (Task u st))
  ∧ (∀ u, u ∈ prefetchQueue s → u ∉ prefetched s).
Proof.
  intros s.
  assert (wf s) as Hw by apply sp_run_wf, sp_init_wf.
  destruct (sx_run_books init evs) as [Hl Hb]; [apply sp_init_wf| |].
  { unfold ledger, bookkeeping. simpl. split; [done|].
    intros u. split; [by intros ?%not_elem_of_empty|].
    intros [[e He]|(t & st & Ht)]; by rewrite lookup_empty in *. }
  destruct Hw as (Hc & _ & _). fold s in Hl, Hb. simpl.
  split; [|split; [exact Hb|]].
  - rewrite (wf_active _ Hc). exact Hl.
  - intros u Hu. by destruct (wf_queue_fresh _ Hc _ Hu).
Qed.

(** [finally] with a request pending and a slot free after the decrement:
    the head of the list is admitted. *)
Lemma sx_finally_admits m url rest :
  prefetchQueue m = url :: rest → activePrefetches m - 1 < K →
  url ∉ prefetched m → cache m !! url = None →
  let s' := finally_block m in
  prefetchQueue s' = rest ∧ fetch_log s' = fetch_log m ++ [(url, high)] ∧
  activePrefetches s' = activePrefetches m ∧
  tasks s' = <[next_task m := Task url AwaitFetch]> (tasks m).
Proof.
  intros Hq Hlt Hp Hc s'. subst s'.
  unfold StaticPrefetcher.finally_block, StaticPrefetcher.processQueue.
  simpl. rewrite Hq. case_decide; [lia|].
  destruct (sp_prefetch_cases K url high
              (set_prefetchQueue rest
                 (set_activePrefetches (activePrefetches m - 1) m)))
    as [[_ [?|[Hsome|[? _]]]]|[[_ (_ & _ & ? & _)]|[-> _]]];
    simpl in *; try done; try lia.
  - rewrite Hc in Hsome. by destruct Hsome.
  - repeat split; try done. lia.
Qed.

(** X3.  No request waits while a slot is free, and a freed slot goes to
    the oldest pending request at once: with a limit [K >= 0], in every
    state reached by host events, a non-empty pending list means that
    exactly [K] prefetches are in flight; and when a prefetch ends (by
    success or failure) while requests are pending, the same event takes the
    head off the list and starts its fetch. *)
Theorem sx_slot_handover (evs : list event) :
  0 ≤ K →
  let s := run init evs in
  (prefetchQueue s ≠ [] → activePrefetches s = K) ∧
  (∀ e url rest, completes s e → prefetchQueue s = url :: rest →
     let s' := step s e in
     prefetchQueue s' = rest ∧
     fetch_log s' = fetch_log s ++ [(url, high)] ∧
     activePrefetches s' = K ∧
     tasks s' !! next_task s = Some (Task url AwaitFetch)).
Proof.
  intros HK s.
  assert (wf s) as Hw by apply sp_run_wf, sp_init_wf.
  assert (activePrefetches s ≤ K) as Hb by (by apply sp_run_bound).
  pose proof Hw as (Hc & Hs & Hh).
  assert (prefetchQueue s ≠ [] → activePrefetches s = K) as Hfull.
  { intros Hne. apply Hs in Hne. lia. }
  split; [exact Hfull|].
  intros e url rest He Hq s'. subst s'.
  assert (activePrefetches s = K) as HaK by (apply Hfull; by rewrite Hq).
  destruct (wf_queue_fresh _ Hc url) as [Hp Hn]; [rewrite Hq; by left|].
  destruct e as [| | | | |t r|t r]; try done; simpl in *.
  - destruct He as [[u Hk] Hr].
    unfold StaticPrefetcher.fetch_settles. rewrite Hk.
    destruct (sx_finally_admits (catch_block u (end_task t s)) url rest)
      as (E1 & E2 & E3 & E4); simpl; try done; try lia.
    { intros [? _]%elem_of_difference. done. }
    simpl in *. destruct r as [|[|]]; try done;
      rewrite E1, E2, E3, E4, lookup_insert_eq; done.
  - destruct He as [u Hk].
    unfold StaticPrefetcher.text_settles. rewrite Hk.
    destruct (wf_task_marked _ Hc _ _ Hk) as [Hin _]. simpl in Hin.
    destruct r as [h|].
    + destruct (sx_finally_admits
                  (set_cache (<[u := {| html := h; doc := parse h;
                                        timestamp := now s |}]> (cache s))
                     (end_task t s)) url rest)
        as (E1 & E2 & E3 & E4); simpl; try done; try lia.
      { rewrite lookup_insert_ne; [done|]. congruence. }
      simpl in *. by rewrite E1, E2, E3, E4, lookup_insert_eq.
    + destruct (sx_finally_admits (catch_block u (end_task t s)) url rest)
        as (E1 & E2 & E3 & E4); simpl; try done; try lia.
      { intros [? _]%elem_of_difference. done. }
      simpl in *. by rewrite E1, E2, E3, E4, lookup_insert_eq.
Qed.

(** X4.  What [navigate] shows is what the prefetch stored.  After the text
    of a prefetch of [url] has settled with [h], a click on [url] (the page
    and the parsed document having a [main] element) swaps in the [main] of
    the document parsed from [h], without a page load; after a prefetch of
    [url] has failed, a click on [url] starts a normal page load and leaves
    the displayed content alone. *)
Theorem sx_navigate_after_prefetch (evs : list event) (url : string)
    (pg : page) :
  let s := run init evs in
  (∀ t h newMain curMain,
     tasks s !! t = Some (Task url AwaitText) →
     doc_main (parse h) = Some newMain → page_main pg = Some curMain →
     let s' := step s (TextSettles t (Some h)) in
     navigate url s' pg =
       (s', {| page_main := Some newMain;
               page_title := doc_title (parse h);
               history := history pg ++ [url];
               scroll_top := 0;
               page_loads := page_loads pg |})) ∧
  (∀ e, fails s e url →
     let s' := step s e in
     navigate url s' pg =
       (s', {| page_main := page_main pg;
               page_title := page_title pg;
               history := history pg;
               scroll_top := scroll_top pg;
               page_loads := page_loads pg ++ [url] |})).
Proof.
  intros s. split.
  - intros t h newMain curMain Hk Hm Hc s'. subst s'.
    unfold navigate. simpl. unfold StaticPrefetcher.text_settles.
    rewrite Hk, sp_finally_cache. simpl.
    rewrite lookup_insert_eq. simpl. by rewrite Hm, Hc.
  - intros e Hf s'.
    destruct (sp_failure_not_cached K delay parse evs e url Hf) as (Hn & _).
    fold s in Hn. fold s' in Hn. unfold navigate. by rewrite Hn.
Qed.

(** With a limit of zero or less nothing is ever admitted. *)
Lemma sx_idle_prefetch u p s :
  K ≤ 0 →
  activePrefetches s = 0 ∧ tasks s = ∅ ∧ fetch_log s = [] ∧ cache s = ∅ ∧
  prefetched s = ∅ →
  (activePrefetches (prefetch u p s) = 0 ∧ tasks (prefetch u p s) = ∅ ∧
   fetch_log (prefetch u p s) = [] ∧ cache (prefetch u p s) = ∅ ∧
   prefetched (prefetch u p s) = ∅) ∧
  u ∈ prefetchQueue (prefetch u p s) ∧
  (∀ v, v ∈ prefetchQueue s → v ∈ prefetchQueue (prefetch u p s)).
Proof.
  intros HK (Ha & Ht & Hl & Hc & Hp).
  destruct (sp_prefetch_cases K u p s)
    as [[-> [Hin|[Hs|[_ Hq]]]]|[[-> _]|[_ (_ & _ & ?)]]]; simpl.
  - rewrite Hp in Hin. by apply not_elem_of_empty in Hin.
  - rewrite Hc, lookup_empty in Hs. by destruct Hs.
  - done.
  - repeat split; try done.
    + apply elem_of_app. right. by apply list_elem_of_singleton.
    + intros v Hv. apply elem_of_app. by left.
  - lia.
Qed.

Lemma sx_idle_step s e :
  K ≤ 0 →
  activePrefetches s = 0 ∧ tasks s = ∅ ∧ fetch_log s = [] ∧ cache s = ∅ ∧
  prefetched s = ∅ →
  (activePrefetches (step s e) = 0 ∧ tasks (step s e) = ∅ ∧
   fetch_log (step s e) = [] ∧ cache (step s e) = ∅ ∧
   prefetched (step s e) = ∅) ∧
  (∀ v, v ∈ prefetchQueue s → v ∈ prefetchQueue (step s e)).
Proof.
  intros HK H0. pose proof H0 as (Ha & Ht & Hl & Hc & Hp).
  destruct e as [u|u|dt|h|u p|t r|t r]; simpl.
  - unfold StaticPrefetcher.scheduleHoverPrefetch. by case_decide.
  - unfold mouseleave. by destruct (hoverTimers s !! u).
  - done.
  - unfold StaticPrefetcher.timer_fires.
    destruct (timers s !! h) as [[d u]|]; [|done].
    case_decide; [|done]. simpl.
    destruct (sx_idle_prefetch u high
                (set_hover_log (hover_log s ++ [u])
                   (set_timers (delete h (timers s)) (next_timer s) s)) HK)
      as (H1 & _ & H3); [done|]. split; [exact H1|exact H3].
  - destruct (sx_idle_prefetch u p s HK H0) as (H1 & _ & H3). by split.
  - unfold StaticPrefetcher.fetch_settles. by rewrite Ht, lookup_empty.
  - unfold StaticPrefetcher.text_settles. by rewrite Ht, lookup_empty.
Qed.

Lemma sx_idle_run s evs :
  K ≤ 0 →
  activePrefetches s = 0 ∧ tasks s = ∅ ∧ fetch_log s = [] ∧ cache s = ∅ ∧
  prefetched s = ∅ →
  (activePrefetches (run s evs) = 0 ∧ tasks (run s evs) = ∅ ∧
   fetch_log (run s evs) = [] ∧ cache (run s evs) = ∅ ∧
   prefetched (run s evs) = ∅) ∧
  (∀ v, v ∈ prefetchQueue s → v ∈ prefetchQueue (run s evs)).
Proof.
  intros HK. revert s. induction evs as [|e evs IH]; intros s H0; [done|].
  simpl. destruct (sx_idle_step s e HK H0) as [H1 H2].
  destruct (IH _ H1) as [H3 H4]. split; [done|]. auto.
Qed.

(** X5.  A limit of zero (or less) switches prefetching off without an
    error: whatever the events, nothing is ever fetched or cached, and every
    request is appended to the pending list (unless it is there already),
    where it stays. *)
Theorem sx_zero_limit_never_fetches (evs : list event) :
  K ≤ 0 →
  let s := run init evs in
  fetch_log s = [] ∧ cache s = ∅ ∧ stats_active (getCacheStats s) = 0 ∧
  (∀ url p, url ∈ prefetchQueue (prefetch url p s)) ∧
  (∀ evs' url, url ∈ prefetchQueue s → url ∈ prefetchQueue (run s evs')).
Proof.
  intros HK s.
  destruct (sx_idle_run init evs HK) as [H0 _]; [done|]. fold s in H0.
  pose proof H0 as (Ha & Ht & Hl & Hc & Hp).
  split; [done|]. split; [done|]. split; [done|]. split.
  - intros url p. by destruct (sx_idle_prefetch url p s HK H0) as (_ & ? & _).
  - intros evs' url Hin. destruct (sx_idle_run s evs' HK H0) as [_ H2]. auto.
Qed.

End StaticMore.

(** ** [extractURL] and the cards of [createCard] *)

Section ExtractFacts.
Import StaticPrefetcher.

Lemma ex_chars_app (a b : string) :
  String.list_ascii_of_string (a +:+ b) =
    String.list_ascii_of_string a ++ String.list_ascii_of_string b.
Proof. induction a as [|c a IH]; simpl; [done|]. by rewrite IH. Qed.

Lemma ex_string_app (a b : list ascii) :
  String.string_of_list_ascii (a ++ b) =
    String.string_of_list_ascii a +:+ String.string_of_list_ascii b.
Proof. induction a as [|c a IH]; simpl; [done|]. by rewrite IH. Qed.

Lemma ex_rest_matches s :
  rest_matches s = true ↔ ∃ q post, s = dot_html ++ q :: post ∧ is_quote q = true.
Proof.
  unfold rest_matches. split.
  - intros [Ht Hd]%andb_prop. apply bool_decide_eq_true in Ht.
    destruct (drop 5 s) as [|q post] eqn:Hdrop; [done|].
    exists q, post. split; [|done].
    by rewrite <-(take_drop 5 s), Ht, Hdrop.
  - intros (q & post & -> & Hq). simpl. by rewrite Hq.
Qed.

Lemma ex_class_run_quote_free s :
  Forall (λ c, is_quote c = false) (take (class_run s) s).
Proof.
  induction s as [|c s IH]; simpl; [constructor|].
  destruct (is_quote c) eqn:Hc; simpl; [constructor|]. by constructor.
Qed.

Lemma ex_class_run_app body q post :
  Forall (λ c, is_quote c = false) body → is_quote q = true →
  class_run (body ++ q :: post) = length body.
Proof.
  intros Hb Hq. induction Hb as [|c body Hc Hb IH]; simpl.
  - by rewrite Hq.
  - by rewrite Hc, IH.
Qed.

(** What a successful backtracking returns. *)
Lemma ex_backtrack_sound k s m :
  backtrack k s = Some m →
  ∃ k', (1 ≤ k' ≤ k)%nat ∧ m = take k' s ++ dot_html ∧
        rest_matches (drop k' s) = true.
Proof.
  induction k as [|k IH]; simpl; [done|].
  destruct (rest_matches (drop (S k) s)) eqn:Hr.
  - intros [= <-]. exists (S k). repeat split; try done; lia.
  - intros Hm. destruct (IH Hm) as (k' & ? & ? & ?). exists k'.
    repeat split; try done; lia.
Qed.

(** Backtracking over positions where the rest does not match. *)
Lemma ex_backtrack_skip n j s :
  (∀ i, (n < i ≤ n + j)%nat → rest_matches (drop i s) = false) →
  backtrack (n + j) s = backtrack n s.
Proof.
  induction j as [|j IH]; intros Hno; [by rewrite Nat.add_0_r|].
  rewrite Nat.add_succ_r. simpl. rewrite Hno by lia.
  apply IH. intros i Hi. apply Hno. lia.
Qed.

Lemma ex_search_sound s m :
  search s = Some m →
  ∃ pre q r, s = pre ++ q :: r ∧ is_quote q = true ∧
             backtrack (class_run r) r = Some m.
Proof.
  induction s as [|c s IH]; simpl; [done|].
  destruct (is_quote c) eqn:Hc.
  - destruct (backtrack (class_run s) s) as [m'|] eqn:Hb.
    + intros [= <-]. by exists [], c, s.
    + intros Hs. destruct (IH Hs) as (pre & q & r & -> & ? & ?).
      by exists (c :: pre), q, r.
  - intros Hs. destruct (IH Hs) as (pre & q & r & -> & ? & ?).
    by exists (c :: pre), q, r.
Qed.

Lemma ex_dot_html_quote_free : Forall (λ c, is_quote c = false) dot_html.
Proof. repeat constructor. Qed.

(** X6.  What [extractURL] returns is always a piece of the [onclick]
    attribute that stands between two quote characters, contains no quote,
    and is a non-empty name followed by [.html]; without the attribute, or
    with an empty one, it returns [null]. *)
Theorem ex_extractURL_shape (attr : option string) (url : string) :
  extractURL attr = Some url →
  ∃ a pre q1 body q2 post,
    attr = Some a ∧ a ≠ EmptyString ∧
    String.list_ascii_of_string a = pre ++ q1 :: body ++ dot_html ++ q2 :: post ∧
    is_quote q1 = true ∧ is_quote q2 = true ∧ body ≠ [] ∧
    Forall (λ c, is_quote c = false) (body ++ dot_html) ∧
    url = String.string_of_list_ascii body +:+ ".html".
Proof.
  unfold extractURL. destruct attr as [a|]; [|done].
  case_bool_decide as Ha; [done|].
  destruct (search (String.list_ascii_of_string a)) as [m|] eqn:Hs; [|done].
  intros [= <-].
  destruct (ex_search_sound _ _ Hs) as (pre & q1 & r & Hr & Hq1 & Hb).
  destruct (ex_backtrack_sound _ _ _ Hb) as (k & Hk & -> & Hrest).
  apply ex_rest_matches in Hrest as (q2 & post & Hd & Hq2).
  exists a, pre, q1, (take k r), q2, post.
  split; [done|]. split; [done|]. split.
  { rewrite Hr. do 2 f_equal. by rewrite <-Hd, take_drop. }
  split; [done|]. split; [done|]. split.
  { destruct r as [|c r]; [|by destruct k; [lia|]].
    simpl in Hk. lia. }
  split.
  - apply Forall_app. split; [|apply ex_dot_html_quote_free].
    replace (take k r) with (take k (take (class_run r) r))
      by (rewrite take_take; f_equal; lia).
    apply Forall_take, ex_class_run_quote_free.
  - by rewrite ex_string_app.
Qed.

(** The match on an attribute of the form made by [createCard]. *)
Lemma ex_backtrack_card body q post :
  Forall (λ c, is_quote c = false) body → body ≠ [] → is_quote q = true →
  let r := body ++ dot_html ++ q :: post in
  backtrack (class_run r) r = Some (body ++ dot_html).
Proof.
  intros Hb Hne Hq r.
  assert (class_run r = (length body + 5)%nat) as ->.
  { subst r. rewrite app_assoc, ex_class_run_app; [|by apply Forall_app;
      split; [|apply ex_dot_html_quote_free]|done].
    by rewrite length_app. }
  rewrite ex_backtrack_skip.
  - destruct body as [|c body]; [done|]. simpl length. simpl backtrack.
    rewrite drop_app_length, take_app_length.
    replace (rest_matches _) with true
      by (symmetry; apply ex_rest_matches; by exists q, post).
    done.
  - intros i Hi. subst r.
    replace i with (length body + (i - length body))%nat by lia.
    rewrite <-drop_drop, drop_app_length.
    apply not_true_is_false. intros (q' & post' & Heq & Hq')%ex_rest_matches.
    destruct (i - length body)%nat as [|[|[|[|[|[|j]]]]]] eqn:Hj; try lia;
      simpl in Heq; try discriminate.
    injection Heq as -> _. by vm_compute in Hq.
Qed.

Lemma ex_search_skip pre r :
  Forall (λ c, is_quote c = false) pre → search (pre ++ r) = search r.
Proof.
  intros Hp. induction Hp as [|c pre Hc Hp IH]; [done|].
  simpl. by rewrite Hc.
Qed.

(** X7.  [extractURL] reads back what [createCard] writes: for every
    article whose slug is not empty and contains no quote character, the
    [onclick] attribute of its card yields the slug followed by [.html]. *)
Theorem ex_extractURL_of_card (a : CardConstructor.article) :
  CardConstructor.slug a ≠ EmptyString →
  Forall (λ c, is_quote c = false)
    (String.list_ascii_of_string (CardConstructor.slug a)) →
  extractURL (Some (CardConstructor.onclick (CardConstructor.createCard a)))
    = Some (CardConstructor.slug a +:+ ".html").
Proof.
  intros Hne Hq. unfold extractURL, CardConstructor.createCard.
  cbn [CardConstructor.onclick CardConstructor.data_slug].
  case_bool_decide as He; [done|].
  rewrite !ex_chars_app.
  change (String.list_ascii_of_string ".html'") with (dot_html ++ ["'"%char]).
  change (String.list_ascii_of_string "window.location.href='")
    with (String.list_ascii_of_string "window.location.href=" ++ ["'"%char]).
  set (body := String.list_ascii_of_string (CardConstructor.slug a)) in *.
  assert (body ≠ []) as Hbody.
  { subst body. by destruct (CardConstructor.slug a). }
  rewrite <-app_assoc, ex_search_skip by (by vm_compute; repeat constructor).
  pose proof (ex_backtrack_card body "'"%char [] Hq Hbody eq_refl) as Hb.
  cbn zeta in Hb. cbn [app search match_at].
  replace (is_quote "'") with true by done.
  rewrite Hb. cbn [fmap option_fmap option_map].
  rewrite ex_string_app. subst body.
  by rewrite String.string_of_list_ascii_of_string.
Qed.

End ExtractFacts.

(** ** [ArticlePrefetcher]: the slot counter, link prefetch, [prefetchAll],
       [clear] *)

Section ArticleMore.
Import ArticlePrefetcher.
Variable K : Z.
Variable delay : nat.
Variable links_ok : bool.

Local Abbreviation prefetchArticle_fuel :=
  (ArticlePrefetcher.prefetchArticle_fuel K links_ok).
Local Abbreviation prefetchArticle :=
  (ArticlePrefetcher.prefetchArticle K links_ok).
Local Abbreviation processQueue := (ArticlePrefetcher.processQueue K links_ok).
Local Abbreviation finally_block := (ArticlePrefetcher.finally_block K links_ok).
Local Abbreviation step := (ArticlePrefetcher.step K delay links_ok).
Local Abbreviation run := (ArticlePrefetcher.run K delay links_ok).

Lemma am_frame s s' :
  activePrefetches s' = activePrefetches s → tasks s' = tasks s →
  next_task s' = next_task s →
  counted s ∧ activePrefetches s ≤ K → counted s' ∧ activePrefetches s' ≤ K.
Proof. unfold counted. by intros -> -> ->. Qed.

Lemma am_fuel_counted fuel slug s s' :
  counted s ∧ activePrefetches s ≤ K →
  prefetchArticle_fuel fuel slug s = Some s' →
  counted s' ∧ activePrefetches s' ≤ K.
Proof.
  revert slug s. induction fuel as [|fuel IH]; intros slug s Hc; [done|].
  simpl. case_decide; [by intros [= <-]|].
  case_decide as Hk; [by intros [= <-]|].
  destruct links_ok.
  - unfold processQueue_with. simpl.
    assert (counted s ∧ activePrefetches s + 1 - 1 ≤ K) as Hc4.
    { destruct Hc as [[Ha Hf] Hb]. split; [|lia]. done. }
    destruct (prefetchQueue s) as [|next rest].
    + intros [= <-]. destruct Hc as [[Ha Hf] Hb]. unfold counted. simpl.
      repeat split; try done; lia.
    + case_decide.
      * intros [= <-]. destruct Hc as [[Ha Hf] Hb]. unfold counted. simpl.
        repeat split; try done; lia.
      * apply IH. destruct Hc as [[Ha Hf] Hb]. unfold counted. simpl.
        repeat split; try done; lia.
  - intros [= <-]. destruct Hc as [[Ha Hf] Hb].
    assert (tasks s !! next_task s = None) as Hfresh.
    { apply eq_None_not_Some. intros Hs. apply Hf in Hs. lia. }
    unfold counted. simpl. repeat split.
    + rewrite map_size_insert_None by done. lia.
    + intros t [->|[_ Hs]]%lookup_insert_is_Some; [lia|].
      apply Hf in Hs. lia.
    + lia.
Qed.

Lemma am_prefetchArticle_counted slug s :
  counted s ∧ activePrefetches s ≤ K →
  counted (prefetchArticle slug s) ∧ activePrefetches (prefetchArticle slug s) ≤ K.
Proof.
  intros Hc. eapply am_fuel_counted; [exact Hc|].
  apply ap_prefetchArticle_defined.
Qed.

Lemma am_processQueue_counted s :
  counted s ∧ activePrefetches s ≤ K →
  counted (processQueue s) ∧ activePrefetches (processQueue s) ≤ K.
Proof.
  intros Hc. pose proof (ap_processQueue_defined K links_ok s) as Hd.
  unfold processQueue_with in Hd.
  destruct (prefetchQueue s) as [|next rest] eqn:Hq.
  - by injection Hd as <-.
  - case_decide; [by injection Hd as <-|].
    eapply am_fuel_counted; [|exact Hd].
    by apply (am_frame s).
Qed.

Lemma am_finally_counted s s' t k :
  counted s ∧ activePrefetches s ≤ K → tasks s !! t = Some k →
  tasks s' = delete t (tasks s) → next_task s' = next_task s →
  activePrefetches s' = activePrefetches s →
  counted (finally_block s') ∧ activePrefetches (finally_block s') ≤ K.
Proof.
  intros [[Ha Hf] Hb] Hk Et En Ea. unfold ArticlePrefetcher.finally_block.
  apply am_processQueue_counted. unfold counted. simpl. repeat split.
  - rewrite Et, (sp_size_delete _ _ _ Hk), Ea. lia.
  - rewrite Et, En. intros t' [_ Hs]%lookup_delete_is_Some. auto.
  - lia.
Qed.

Lemma am_step_counted s e :
  counted s ∧ activePrefetches s ≤ K →
  counted (step s e) ∧ activePrefetches (step s e) ≤ K.
Proof.
  intros Hc.
  destruct e as [u|u|u|dt|h|t r|t ok|cards|u]; cbn [ArticlePrefetcher.step].
  - apply (am_frame s); [..|exact Hc]; unfold handleMouseEnter, clear_existing;
      by destruct (hoverTimers s !! u).
  - apply (am_frame s); [..|exact Hc]; unfold handleMouseLeave;
      by destruct (hoverTimers s !! u).
  - by apply am_prefetchArticle_counted.
  - by apply (am_frame s).
  - unfold ArticlePrefetcher.timer_fires.
    destruct (timers s !! h) as [[d u]|]; [|done].
    case_decide; [|done].
    eapply am_frame with (s := prefetchArticle u _); [done..|].
    apply am_prefetchArticle_counted. by apply (am_frame s).
  - unfold ArticlePrefetcher.fetch_settles.
    destruct (tasks s !! t) as [[u [|]]|] eqn:Hk; [|done..].
    destruct r as [|[|]]; [by eapply am_finally_counted| |
                           by eapply am_finally_counted].
    destruct Hc as [[Ha Hf] Hb]. unfold counted. simpl. repeat split; [| |done].
    + rewrite map_size_insert_Some by eauto. done.
    + intros t' [->|[_ ?]]%lookup_insert_is_Some; eauto.
  - unfold ArticlePrefetcher.text_settles.
    destruct (tasks s !! t) as [[u [|]]|] eqn:Hk; [done| |done].
    destruct ok; by eapply am_finally_counted.
  - unfold ArticlePrefetcher.prefetchAll. apply am_processQueue_counted.
    by apply (am_frame s).
  - exact Hc.
Qed.

(** X8.  The slot accounting of [ArticlePrefetcher] is exact and bounded:
    with a limit [K >= 0], after any sequence of hover events, touches,
    settled fetches and calls of [prefetchAll], with or without link
    prefetch, [activePrefetches] is the number of calls suspended in
    [prefetchWithFetch] and lies between 0 and [K]. *)
Theorem am_slots_bounded (evs : list event) :
  0 ≤ K →
  let s := run init evs in
  activePrefetches s = Z.of_nat (size (tasks s)) ∧
  0 ≤ activePrefetches s ≤ K.
Proof.
  intros HK s.
  assert (∀ l s0, counted s0 ∧ activePrefetches s0 ≤ K →
            counted (run s0 l) ∧ activePrefetches (run s0 l) ≤ K) as Hrun.
  { induction l as [|e l IH]; intros s0 H0; [done|].
    simpl. apply IH. by apply am_step_counted. }
  destruct (Hrun evs init) as [[Ha Hf] Hb].
  { unfold counted. simpl. split; [split|lia].
    - done.
    - intros t [k Hk]. by rewrite lookup_empty in Hk. }
  fold s in Ha, Hf, Hb. split; [done|]. rewrite Ha in *. lia.
Qed.

(** The handles deleted by [clear]. *)
Lemma am_fold_delete (m : gmap string nat) (live : gmap nat timer) k :
  map_fold (λ _ h l, delete h l) live m !! k = None ↔
  live !! k = None ∨ ∃ u, m !! u = Some k.
Proof.
  apply (map_fold_weak_ind
           (λ r m, r !! k = None ↔ live !! k = None ∨ ∃ u, m !! u = Some k)).
  - split; [by left|]. intros [?|[u Hu]]; [done|].
    by rewrite lookup_empty in Hu.
  - intros u h m' r Hu IH. rewrite lookup_delete_None, IH. split.
    + intros [->|[?|[u' Hu']]]; [|by left|].
      * right. exists u. apply lookup_insert_eq.
      * right. exists u'. rewrite lookup_insert_ne; [done|]. congruence.
    + intros [?|[u' [[_ ->]|[_ Hu']]%lookup_insert_Some]];
        [right; by left|by left|right; right; eauto].
Qed.

(** X9.  [clear()] cancels every hover prefetch that is waiting: after it,
    in any state reached by events, no timer is live and no handle is
    registered, the pending list and the set of prefetched slugs are empty,
    and until the next hover-enter no event makes the hover scheduler call
    [prefetchArticle].  It leaves [activePrefetches] and the calls in flight
    as they are. *)
Theorem am_clear_cancels (evs evs' : list event) :
  let s0 := run init evs in
  let s := clear s0 in
  timers s = ∅ ∧ hoverTimers s = ∅ ∧ prefetchQueue s = [] ∧
  prefetchedUrls s = ∅ ∧
  activePrefetches s = activePrefetches s0 ∧ tasks s = tasks s0 ∧
  ((∀ slug, MouseEnter slug ∉ evs') →
   hover_log (run s evs') = hover_log s0).
Proof.
  intros s0 s.
  assert (wf_hover s0) as Hw by apply ap_run_wf, ap_init_wf.
  assert (timers s = ∅) as Ht.
  { apply map_eq. intros k. rewrite lookup_empty. subst s. simpl.
    apply am_fold_delete.
    destruct (timers s0 !! k) as [[d u]|] eqn:Hk; [|by left].
    right. exists u. by apply (wf_timer_hover _ Hw k d). }
  repeat split; try done.
  intros Hno.
  assert (wf_hover s) as Hws.
  { constructor; rewrite ?Ht; simpl.
    - intros h [x Hx]. by rewrite lookup_empty in Hx.
    - intros u h Hu. by rewrite lookup_empty in Hu.
    - intros h d u Hu. by rewrite lookup_empty in Hu. }
  destruct (ap_run_idle K delay links_ok EmptyString evs' s Hws)
    as (l & Hl & _); [done|apply Hno|].
  destruct l as [|x l]; [by rewrite app_nil_r in Hl|].
  destruct (ap_run_idle K delay links_ok x evs' s Hws)
    as (l' & Hl' & Hx); [done|apply Hno|].
  rewrite Hl in Hl'. apply app_inv_head in Hl'. subst l'.
  destruct Hx. by left.
Qed.

End ArticleMore.

Section ArticleLinks.
Import ArticlePrefetcher.
Variable K : Z.
Variable delay : nat.

Local Abbreviation prefetchArticle_fuel :=
  (ArticlePrefetcher.prefetchArticle_fuel K true).
Local Abbreviation prefetchArticle := (ArticlePrefetcher.prefetchArticle K true).
Local Abbreviation processQueue := (ArticlePrefetcher.processQueue K true).
Local Abbreviation prefetchAll := (ArticlePrefetcher.prefetchAll K true).
Local Abbreviation step := (ArticlePrefetcher.step K delay true).
Local Abbreviation run := (ArticlePrefetcher.run K delay true).

Lemma al_append_inj (a b c : string) : a +:+ c = b +:+ c → a = b.
Proof.
  intros H. apply (f_equal String.list_ascii_of_string) in H.
  rewrite !ex_chars_app in H. apply app_inv_tail in H.
  apply (f_equal String.string_of_list_ascii) in H.
  by rewrite !String.string_of_list_ascii_of_string in H.
Qed.

Lemma al_articleUrl_inj a b : articleUrl a = articleUrl b → a = b.
Proof.
  unfold articleUrl. intros H. simpl in H.
  injection H as H. by apply (al_append_inj a b) in H.
Qed.

Lemma al_frame s s' :
  tasks s' = tasks s → activePrefetches s' = activePrefetches s →
  fetch_log s' = fetch_log s → links s' = links s →
  prefetchedUrls s' = prefetchedUrls s →
  link_only s → link_only s'.
Proof. unfold link_only. by intros -> -> -> -> ->. Qed.

Lemma al_link slug q s :
  link_only s → slug ∉ prefetchedUrls s →
  link_only
    (mkState ({[slug]} ∪ prefetchedUrls s) q (activePrefetches s + 1 - 1)
       (hoverTimers s) (timers s) (next_timer s) (tasks s) (next_task s)
       (now s) (fetch_log s) (links s ++ [articleUrl slug]) (hover_log s)).
Proof.
  intros (Ht & Ha & Hf & Hn & Hl) Hnew. unfold link_only. simpl.
  repeat split; try done.
  - lia.
  - apply NoDup_app. repeat split; [done| |apply NoDup_singleton].
    intros x Hx ->%list_elem_of_singleton. by apply Hl in Hx.
  - intros [Hx|Hx%list_elem_of_singleton]%elem_of_app.
    + apply elem_of_union_r. by apply Hl.
    + apply elem_of_union_l, elem_of_singleton. by apply al_articleUrl_inj.
  - intros [->%elem_of_singleton|Hx]%elem_of_union; apply elem_of_app.
    + right. by apply list_elem_of_singleton.
    + left. by apply Hl.
Qed.

Lemma al_fuel fuel slug s s' :
  link_only s → prefetchArticle_fuel fuel slug s = Some s' → link_only s'.
Proof.
  revert slug s. induction fuel as [|fuel IH]; intros slug s Hs; [done|].
  simpl. case_decide as Hin; [by intros [= <-]|].
  case_decide; [intros [= <-]; by apply (al_frame s)|].
  unfold processQueue_with. simpl.
  pose proof (al_link slug (prefetchQueue s) s Hs Hin) as H4.
  destruct (prefetchQueue s) as [|next rest].
  - by intros [= <-].
  - case_decide; [by intros [= <-]|].
    apply IH. by apply (al_link slug rest s).
Qed.

Lemma al_prefetchArticle slug s : link_only s → link_only (prefetchArticle slug s).
Proof.
  intros Hs. eapply al_fuel; [exact Hs|]. apply ap_prefetchArticle_defined.
Qed.

Lemma al_processQueue s : link_only s → link_only (processQueue s).
Proof.
  intros Hs. pose proof (ap_processQueue_defined K true s) as Hd.
  unfold processQueue_with in Hd.
  destruct (prefetchQueue s) as [|next rest] eqn:Hq.
  - by injection Hd as <-.
  - case_decide; [by injection Hd as <-|].
    eapply al_fuel; [|exact Hd]. by apply (al_frame s).
Qed.

Lemma al_step s e : link_only s → link_only (step s e).
Proof.
  intros Hs.
  destruct e as [u|u|u|dt|h|t r|t ok|cards|u]; cbn [ArticlePrefetcher.step].
  - apply (al_frame s); [..|exact Hs]; unfold handleMouseEnter, clear_existing;
      by destruct (hoverTimers s !! u).
  - apply (al_frame s); [..|exact Hs]; unfold handleMouseLeave;
      by destruct (hoverTimers s !! u).
  - by apply al_prefetchArticle.
  - by apply (al_frame s).
  - unfold ArticlePrefetcher.timer_fires.
    destruct (timers s !! h) as [[d u]|]; [|done].
    case_decide; [|done].
    eapply al_frame with (s := prefetchArticle u _); [done..|].
    apply al_prefetchArticle. by apply (al_frame s).
  - unfold ArticlePrefetcher.fetch_settles.
    destruct Hs as (Ht & Hs). by rewrite Ht, lookup_empty.
  - unfold ArticlePrefetcher.text_settles.
    destruct Hs as (Ht & Hs). by rewrite Ht, lookup_empty.
  - unfold ArticlePrefetcher.prefetchAll. apply al_processQueue.
    by apply (al_frame s).
  - exact Hs.
Qed.

Lemma al_run s evs : link_only s → link_only (run s evs).
Proof.
  revert s. induction evs as [|e evs IH]; intros s Hs; [done|].
  simpl. by apply IH, al_step.
Qed.

Lemma al_init : link_only init.
Proof.
  unfold link_only. simpl. repeat split; try done; try apply NoDup_nil_2.
  all: try by intros ?%elem_of_nil.
  all: by intros ?%elem_of_empty.
Qed.

(** X10.  Where the browser supports [link rel=prefetch],
    [ArticlePrefetcher] never calls [fetch] and never holds a slot across
    events: after any hover events, touches and calls of [prefetchAll]
    (and no call of [clear]), [activePrefetches] is 0 and no call is
    suspended.  The [link] elements appended to the head are pairwise
    distinct and are exactly those of the slugs in [prefetchedUrls]. *)
Theorem al_link_mode (evs : list event) :
  let s := run init evs in
  fetch_log s = [] ∧ activePrefetches s = 0 ∧ tasks s = ∅ ∧
  NoDup (links s) ∧
  ∀ slug, articleUrl slug ∈ links s ↔ slug ∈ prefetchedUrls s.
Proof.
  intros s. destruct (al_run init evs al_init) as (Ht & Ha & Hf & Hn & Hl).
  by repeat split; try apply Hl.
Qed.

Lemma al_drain pre : ∀ n s rest,
  activePrefetches s < K → NoDup pre →
  (∀ y, y ∈ pre → y ∉ prefetchedUrls s) →
  prefetchQueue s = pre ++ rest →
  match rest with [] => True | x :: _ => x ∈ prefetchedUrls s ∨ x ∈ pre end →
  (length (pre ++ rest) ≤ n)%nat →
  ∃ s', processQueue_with K (prefetchArticle_fuel n) s = Some s' ∧
    prefetchQueue s' = tail rest ∧
    links s' = links s ++ (articleUrl <$> pre) ∧
    (∀ z, z ∈ prefetchedUrls s' ↔ z ∈ pre ∨ z ∈ prefetchedUrls s).
Proof.
  induction pre as [|y pre IH]; intros n s rest Ha Hnd Hnew Hq Hrest Hn.
  - unfold processQueue_with. rewrite Hq. simpl.
    destruct rest as [|x post].
    + exists s. split; [done|]. split; [done|].
      split; [by rewrite app_nil_r|].
      intros z. rewrite elem_of_nil. tauto.
    + case_decide; [lia|]. destruct n as [|n]; [simpl in Hn; lia|]. simpl.
      destruct Hrest as [Hx|Hx%elem_of_nil]; [|done].
      rewrite decide_True by done. eexists. split; [done|]. simpl.
      split; [done|]. split; [by rewrite app_nil_r|].
      intros z. rewrite elem_of_nil. tauto.
  - unfold processQueue_with. rewrite Hq. simpl.
    case_decide; [lia|]. destruct n as [|n]; [simpl in Hn; lia|]. simpl.
    apply NoDup_cons in Hnd as [Hy Hnd].
    rewrite decide_False by (apply Hnew; by left).
    rewrite decide_False by done.
    match goal with
    | |- ∃ s', processQueue_with _ _ ?x = Some s' ∧ _ =>
        destruct (IH n x rest) as (s' & Hs' & Hq' & Hl' & Hp')
    end; simpl.
    + lia.
    + done.
    + intros z Hz [->%elem_of_singleton|Hin]%elem_of_union; [done|].
      apply (Hnew z); [by right|done].
    + done.
    + destruct rest as [|x post]; [done|].
      destruct Hrest as [Hx|[->|Hx]%elem_of_cons]; [left|left|by right].
      * by apply elem_of_union_r.
      * by apply elem_of_union_l, elem_of_singleton.
    + simpl in Hn. lia.
    + exists s'. split; [done|]. split; [done|]. simpl in Hl', Hp'. split.
      * by rewrite Hl', <-app_assoc.
      * intros z. rewrite Hp', elem_of_union, elem_of_singleton, elem_of_cons.
        tauto.
Qed.

(** X11.  With link prefetch and at least one slot, [prefetchAll()] on an
    empty pending list links the cards in page order, and stops at the
    first card that is already prefetched or that repeats an earlier card:
    that card is dropped, and every card after it stays in the pending list
    without a [link] element, since the early return of [prefetchArticle]
    does not call [processQueue]. *)
Theorem al_prefetchAll_stops (evs : list event) (pre rest : list string) :
  1 ≤ K →
  let s := run init evs in
  prefetchQueue s = [] → NoDup pre →
  (∀ y, y ∈ pre → y ∉ prefetchedUrls s) →
  match rest with [] => True | x :: _ => x ∈ prefetchedUrls s ∨ x ∈ pre end →
  let s' := prefetchAll (pre ++ rest) s in
  links s' = links s ++ (articleUrl <$> pre) ∧
  prefetchQueue s' = tail rest ∧
  ∀ z, z ∈ prefetchedUrls s' ↔ z ∈ pre ∨ z ∈ prefetchedUrls s.
Proof.
  intros HK s Hq Hnd Hnew Hrest s'.
  destruct (al_run init evs al_init) as (_ & Ha & _). fold s in Ha.
  destruct (al_drain pre (length (pre ++ rest))
              (set_prefetchQueue (prefetchQueue s ++ pre ++ rest) s) rest)
    as (s1 & Hs1 & Hq1 & Hl1 & Hp1); simpl; try done.
  - lia.
  - by rewrite Hq.
  - assert (s' = s1) as ->; [|done].
    subst s'. unfold ArticlePrefetcher.prefetchAll, ArticlePrefetcher.processQueue.
    simpl. rewrite Hq in *. simpl in *. by rewrite Hs1.
Qed.

End ArticleLinks.

(** ** The hidden container of the prerender draft *)

Section ContainerFacts.
Import PrerenderDraft.
Variable inner_slug : string → string → option nat.
Variable inner_markup : string → nat → string.
Variable inner_remove : string → nat → string.
Variable odd_selector : string → list (string * string) → result (option position).

Local Abbreviation getPrerendered :=
  (PrerenderDraft.getPrerendered inner_slug inner_markup odd_selector).
Local Abbreviation prerenderArticle :=
  (PrerenderDraft.prerenderArticle inner_slug inner_remove odd_selector).
Local Abbreviation api_step :=
  (PrerenderDraft.api_step inner_slug inner_remove odd_selector).
Local Abbreviation api_run :=
  (PrerenderDraft.api_run inner_slug inner_remove odd_selector).
Local Abbreviation plain_call := (PrerenderDraft.plain_call inner_slug).

(** Markup without an element that has a [data-slug]. *)
Local Abbreviation bare :=
  (λ w : string * string, ∀ other, inner_slug w.2 other = None).

Lemma pc_filter_remove_first slug slug' (ws : list (string * string)) :
  slug' ≠ slug →
  filter (λ w, w.1 = slug') (remove_first slug ws)
    = filter (λ w, w.1 = slug') ws.
Proof.
  intros Hne. induction ws as [|w ws IH]; simpl; [done|].
  case_decide as Hw.
  - rewrite filter_cons_False; [done|]. simpl. congruence.
  - destruct (decide (w.1 = slug')) as [Hw'|Hw'].
    + by rewrite !filter_cons_True, IH by done.
    + by rewrite !filter_cons_False, IH by done.
Qed.

Lemma pc_remove_first_bare slug (ws : list (string * string)) :
  Forall bare ws → Forall bare (remove_first slug ws).
Proof.
  induction ws as [|w ws IH]; simpl; [done|].
  intros [Hw Hws]%Forall_cons. case_decide; [done|].
  apply Forall_cons. split; [done|by apply IH].
Qed.

Lemma pc_bare_at slug (ws : list (string * string)) :
  Forall bare ws → Forall (λ w, inner_slug w.2 slug = None) ws.
Proof. intros Hb. eapply Forall_impl; [exact Hb|]. intros w Hw. apply Hw. Qed.

Lemma pc_getPrerendered slug (c : container) :
  quotable slug = true → Forall bare (default [] c) →
  getPrerendered slug c
    = Done (snd <$> head (filter (λ w, w.1 = slug) (default [] c))).
Proof.
  intros Hq Hb. destruct c as [ws|]; [|done]. simpl in *.
  unfold PrerenderDraft.getPrerendered, querySelector. rewrite Hq.
  by destruct (pd_first_match inner_slug inner_markup inner_remove slug ws
                 (pc_bare_at slug ws Hb)) as [-> _].
Qed.

Lemma pc_prerender slug h (c : container) :
  quotable slug = true → (∀ other, inner_slug h other = None) →
  Forall bare (default [] c) → NoDup (default [] c).*1 →
  let c' := (prerenderArticle slug h c).1 in
  NoDup (default [] c').*1 ∧ Forall bare (default [] c') ∧
  getPrerendered slug c' = Done (Some h) ∧
  ∀ slug', slug' ≠ slug → quotable slug' = true →
    getPrerendered slug' c' = getPrerendered slug' c.
Proof.
  intros Hq Hh Hb Hnd c'.
  destruct (pd_prerender_replaces inner_slug inner_markup inner_remove
              odd_selector slug h c Hq (pc_bare_at slug _ Hb) Hnd)
    as (_ & Hget & Hnd' & Hws).
  fold c' in Hget, Hnd', Hws.
  assert (Forall bare (default [] c')) as Hb'.
  { rewrite Hws. apply Forall_app. split; [by apply pc_remove_first_bare|].
    apply Forall_cons. split; [exact Hh|done]. }
  split; [done|]. split; [done|]. split; [done|].
  intros slug' Hne Hq'.
  rewrite !pc_getPrerendered by done. rewrite Hws.
  rewrite filter_app, filter_cons_False, filter_nil, app_nil_r
    by (simpl; congruence).
  by rewrite pc_filter_remove_first.
Qed.

Lemma pc_run_app c ops op :
  api_run c (ops ++ [op]) = api_step (api_run c ops) op.
Proof. unfold PrerenderDraft.api_run. by rewrite foldl_app. Qed.

Lemma pc_written_app ops op :
  written (ops ++ [op]) =
    match op with
    | PrerenderArticle slug h => <[slug := h]> (written ops)
    | Clear => ∅
    end.
Proof. unfold written. by rewrite foldl_app. Qed.

Lemma pc_run_inv (ops : list call) :
  Forall plain_call ops →
  let c := api_run None ops in
  NoDup (default [] c).*1 ∧ Forall bare (default [] c) ∧
  ∀ slug, quotable slug = true →
    getPrerendered slug c = Done (written ops !! slug).
Proof.
  induction ops as [|op ops IH] using rev_ind; intros Hops.
  { simpl. split; [apply NoDup_nil_2|]. split; [done|]. by intros. }
  apply Forall_app in Hops as [Hops Hop].
  apply Forall_cons in Hop as [Hop _].
  destruct (IH Hops) as (Hnd & Hb & Hget).
  cbv zeta. rewrite pc_run_app, pc_written_app.
  destruct op as [slug0 h|]; cbn [PrerenderDraft.api_step].
  - destruct Hop as [Hq0 Hh].
    destruct (pc_prerender slug0 h (api_run None ops) Hq0 Hh Hb Hnd)
      as (Hnd' & Hb' & Hsame & Hother).
    split; [done|]. split; [done|]. intros slug Hq.
    destruct (decide (slug = slug0)) as [->|Hne].
    + by rewrite Hsame, lookup_insert_eq.
    + by rewrite Hother, lookup_insert_ne, Hget.
  - destruct (api_run None ops); simpl.
    + split; [apply NoDup_nil_2|]. split; [done|].
      intros slug Hq. unfold PrerenderDraft.getPrerendered, querySelector.
      by rewrite Hq, lookup_empty.
    + split; [apply NoDup_nil_2|]. split; [done|].
      intros slug Hq. by rewrite lookup_empty.
Qed.

(** X12.  The hidden container of the prerender draft is a finite map from
    slugs to markup (for slugs that an attribute selector can quote, and
    markup that holds no [data-slug] element of its own): after any calls of
    [prerenderArticle] and [clear] on a fresh object it holds at most one
    wrapper per slug, and [getPrerendered(slug)] finds the markup of the
    last [prerenderArticle(slug, ...)] since the last [clear], or nothing if
    there was none. *)
Theorem pc_container_is_map (ops : list call) (slug : string) :
  quotable slug = true → Forall plain_call ops →
  let c := api_run None ops in
  NoDup (default [] c).*1 ∧
  getPrerendered slug c = Done (written ops !! slug).
Proof.
  intros Hq Hops c. destruct (pc_run_inv ops Hops) as (Hnd & _ & Hget).
  split; [done|]. by apply Hget.
Qed.

End ContainerFacts.

(** ** The options of [StaticPrefetcher] *)

Section OptionsFacts.
Import Constructor.

(** X13.  When the global [tre] is bound, the options object of a
    [StaticPrefetcher] keeps every key of the caller's object as it was
    passed, a falsy value such as [maxConcurrent: 0] or
    [aggressiveMode: false] included: the spread comes last, so the
    defaults 20, 3, [true] and [undefined !== tre] reach only the keys the
    caller left out. *)
Theorem cs_options_override (globals opts : object) (tre : value) (k : string) :
  globals !! "tre" = Some tre →
  ∃ o, eval_options globals opts = inr o ∧
    o !! k =
      match opts !! k with
      | Some v => Some v
      | None =>
          ({[ "hoverDelay" := number 20; "maxConcurrent" := number 3;
              "aggressiveMode" := boolean true;
              "instantNavigation" := boolean (strict_neq undefined tre) ]}
             : object) !! k
      end.
Proof.
  intros Htre. unfold eval_options, resolve. rewrite Htre.
  eexists. split; [reflexivity|]. unfold get. unfold object in *.
  destruct (opts !! k) as [v|] eqn:Hk; [by apply lookup_union_Some_l|].
  rewrite lookup_union_r by done.
  destruct (decide (k = "hoverDelay")) as [->|H1].
  { rewrite !lookup_insert_eq. by rewrite Hk. }
  rewrite !(lookup_insert_ne _ "hoverDelay") by done.
  destruct (decide (k = "maxConcurrent")) as [->|H2].
  { rewrite !lookup_insert_eq. by rewrite Hk. }
  rewrite !(lookup_insert_ne _ "maxConcurrent") by done.
  destruct (decide (k = "aggressiveMode")) as [->|H3].
  { rewrite !lookup_insert_eq. by rewrite Hk. }
  rewrite !(lookup_insert_ne _ "aggressiveMode") by done.
  destruct (decide (k = "instantNavigation")) as [->|H4].
  { rewrite !lookup_singleton_eq. by rewrite Hk. }
  by rewrite !lookup_singleton_ne.
Qed.

End OptionsFacts.

(** ** [ArticleNavigator.renderArticleNavigation] *)

Section NavigationFacts.
Import CardConstructor ArticleNavigator.

(** An entry that [findIndex] passes over: an article of another slug. *)
Local Abbreviation passed current :=
  (λ o : option article,
     match o with Some b => slug b ≠ current | None => False end).

Lemma an_findIndex_skip current pre rest : ∀ i,
  Forall (passed current) pre →
  findIndex_from i current (pre ++ rest)
    = findIndex_from (i + Z.of_nat (length pre)) current rest.
Proof.
  induction pre as [|o pre IH]; intros i Hpre; simpl.
  { f_equal. lia. }
  apply Forall_cons in Hpre as [Ho Hpre].
  destruct o as [b|]; [|done].
  rewrite decide_False by done. rewrite IH by done. f_equal. lia.
Qed.

(** X14.  For the current article listed at some position, with only
    loaded articles of other slugs before it, [renderArticleNavigation]
    links the entry just before it and the entry just after it; a
    neighbour that failed to load ([null]) or does not exist gives the empty
    placeholder. *)
Theorem an_neighbours (pre post : list (option article)) (a : article) :
  Forall (passed (slug a)) pre →
  renderArticleNavigation (pre ++ Some a :: post) (slug a)
    = Returns (Some {| prevArticle := mjoin (last pre);
                       nextArticle := mjoin (head post) |}).
Proof.
  intros Hpre. unfold renderArticleNavigation.
  rewrite decide_False by (rewrite length_app; simpl; lia).
  rewrite an_findIndex_skip by done. simpl.
  rewrite decide_True by done. do 3 f_equal.
  - unfold at_index. destruct pre as [|o pre _] using rev_ind.
    { by rewrite decide_False by (simpl; lia). }
    rewrite last_snoc, length_app. simpl.
    rewrite decide_True, decide_False by lia.
    replace (Z.to_nat (0 + Z.of_nat (length pre + 1) - 1)) with (length pre)
      by lia.
    rewrite <-app_assoc. cbn [app]. by rewrite list_lookup_middle.
  - unfold at_index. rewrite length_app. simpl.
    replace (Z.to_nat (0 + Z.of_nat (length pre) + 1)) with (S (length pre))
      by lia.
    destruct post as [|o post].
    { by rewrite decide_False by (simpl; lia). }
    rewrite decide_True, decide_False by (simpl; lia).
    rewrite (lookup_app_r pre) by lia.
    replace (S (length pre) - length pre)%nat with 1%nat by lia. done.
Qed.

(** X15.  When the current article is not among the loaded articles (and
    the list is not empty), [findIndex] gives -1: no previous link is
    rendered, and the next link points to the first article of the list. *)
Theorem an_unlisted (articles : list (option article)) (current : string) :
  articles ≠ [] → Forall (passed current) articles →
  renderArticleNavigation articles current
    = Returns (Some {| prevArticle := None;
                       nextArticle := mjoin (head articles) |}).
Proof.
  intros Hne Hall. unfold renderArticleNavigation.
  rewrite decide_False by (by destruct articles).
  rewrite <-(app_nil_r articles) at 1.
  rewrite an_findIndex_skip by done. simpl.
  rewrite decide_True by (destruct articles; [done|simpl; lia]).
  unfold at_index. simpl. by destruct articles.
Qed.

(** X16.  An article whose metadata failed to load is a [null] entry of
    the list; if one stands before the first entry with the current slug,
    [renderArticleNavigation] throws instead of returning markup. *)
Theorem an_null_entry_throws (pre post : list (option article))
    (current : string) :
  Forall (passed current) pre →
  renderArticleNavigation (pre ++ None :: post) current = Throws.
Proof.
  intros Hpre. unfold renderArticleNavigation.
  rewrite decide_False by (rewrite length_app; simpl; lia).
  by rewrite an_findIndex_skip by done.
Qed.

(** X17.  Whether [loadArticle] shows the article page or the 404 page
    never depends on [article.md].  When [metadata.json] cannot be read,
    the 404 page is shown and the title is left.  When it is read with a
    title and a category, and the navigation block renders
    ([renderArticleNavigation] returns: no [null] entry stands before the
    slug in the list), a markdown that cannot be fetched or read still gives
    the article page, with the error paragraph of [renderFile] as its
    content.  And for any metadata, another outcome of the markdown fetch
    never turns the article page into the 404 page or back. *)
Theorem an_load_missing_markdown (toUpperCase render : string → string)
    (articles : list (option article)) (slug t c : string) (m : metadata)
    (r : response) (text : option string) (navigation : option links)
    (p : page) (shown : content) :
  main p = Some shown →
  loadArticle toUpperCase render articles slug None r text p
    = {| main := Some (Shows NotFound);
         document_title := document_title p |} ∧
  (meta_title m = Some t → meta_category m = Some c →
   renderArticleNavigation articles (default slug (meta_slug m))
     = Returns navigation →
   r ≠ Http true ∨ text = None →
   loadArticle toUpperCase render articles slug (Some m) r text p
     = {| main := Some (Shows (ArticlePage (toUpperCase t) (toUpperCase c)
                                 RenderDraft.error_markup navigation));
          document_title := t +:+ " - Brutal Blog Box" |}) ∧
  (∀ r' text',
     main (loadArticle toUpperCase render articles slug (Some m) r text p)
       = Some (Shows NotFound) ↔
     main (loadArticle toUpperCase render articles slug (Some m) r' text' p)
       = Some (Shows NotFound)).
Proof.
  intros Hmain.
  unfold loadArticle, renderError, renderArticlePage, set_main.
  rewrite Hmain. split; [done|]. split.
  - intros Ht Hc Hnav Hfail. rewrite Ht, Hc, Hnav.
    assert (renderFile render r text = RenderDraft.error_markup) as ->;
      [|done].
    unfold renderFile. destruct Hfail as [Hr| ->].
    + by destruct r as [|[|]].
    + by destruct r as [|[|]].
  - intros r' text'.
    destruct (meta_title m), (meta_category m); simpl; try done.
    by destruct (renderArticleNavigation articles (default slug (meta_slug m))).
Qed.

(** X18.  One article whose metadata failed to load spoils the pages of
    the articles listed after it: with a [null] entry before the current
    slug in the list, [loadArticle] shows the 404 page although the
    metadata and the markdown of the requested article were both read. *)
Theorem an_load_after_null_entry (toUpperCase render : string → string)
    (pre post : list (option article)) (slug : string) (m : metadata)
    (markdown : string) (p : page) :
  Forall (passed (default slug (meta_slug m))) pre →
  loadArticle toUpperCase render (pre ++ None :: post) slug (Some m)
    (Http true) (Some markdown) p
  = renderError p.
Proof.
  intros Hpre. unfold loadArticle, renderArticlePage.
  destruct (meta_title m), (meta_category m); try done.
  unfold renderArticleNavigation.
  rewrite decide_False by (rewrite length_app; simpl; lia).
  by rewrite an_findIndex_skip by done.
Qed.

End NavigationFacts.

(** ** [CardConstructor.renderCards] *)

Section CardFacts.
Import CardConstructor.

Lemma cc_omap_take {A} (k : nat) (l : list (option A)) :
  omap id (take k l) `prefix_of` omap id l ∧
  (length (omap id (take k l)) ≤ k)%nat.
Proof.
  revert k. induction l as [|o l IH]; intros [|k]; simpl;
    try (split; [apply prefix_nil|lia]).
  destruct (IH k) as [Hp Hl]. unfold omap in Hp, Hl.
  destruct o as [a|]; simpl.
  - split; [by apply prefix_cons|lia].
  - split; [done|lia].
Qed.

Lemma cc_fmap_prefix {A B} (f : A → B) (l k : list A) :
  l `prefix_of` k → (f <$> l) `prefix_of` (f <$> k).
Proof. intros [r ->]. exists (f <$> r). apply fmap_app. Qed.

Lemma cc_omap_take_null {A} (k i : nat) (l : list (option A)) :
  (i < k)%nat → l !! i = Some None →
  (length (omap id (take k l)) < k)%nat.
Proof.
  revert k i. induction l as [|o l IH]; intros [|k] i Hi Hnull; try lia;
    [done|].
  pose proof (IH k) as IHk. unfold omap in IHk.
  destruct (cc_omap_take k l) as [_ Hle]. unfold omap in Hle.
  destruct i as [|i]; simpl in Hnull.
  - injection Hnull as ->. simpl. lia.
  - assert (i < k)%nat as Hi' by lia.
    specialize (IHk i Hi' Hnull). destruct o; simpl; lia.
Qed.

(** X19.  [renderCards(id, limit)] discards what the container held and
    renders a prefix of the cards that a call without limit renders.  With
    a positive [limit] the cards are those of the articles that loaded
    among the first [limit] entries: there are at most [limit] of them, and
    fewer when one of these entries failed to load, since such an entry
    uses up one of the [limit] places.  A [limit] of 0 is falsy and renders
    every article. *)
Theorem cc_renderCards_limit (old old' : list card) (limit : Z)
    (articles : list (option article)) :
  ∃ cards all,
    renderCards (Some old) (Some limit) articles = Some cards ∧
    renderCards (Some old') None articles = Some all ∧
    cards `prefix_of` all ∧
    (0 < limit → (length cards ≤ Z.to_nat limit)%nat) ∧
    (limit = 0 → cards = all) ∧
    data_slug <$> all = slug <$> omap id articles ∧
    (0 < limit →
     cards = createCard <$> omap id (take (Z.to_nat limit) articles)) ∧
    (0 < limit → ∀ i, (i < Z.to_nat limit)%nat → articles !! i = Some None →
     (length cards < Z.to_nat limit)%nat).
Proof.
  unfold renderCards. do 2 eexists.
  split; [done|]. split; [done|].
  split; [|split; [|split; [|split; [|split]]]].
  - case_decide; [done|]. unfold slice_to.
    case_decide; by apply cc_fmap_prefix, cc_omap_take.
  - intros Hpos. rewrite decide_False by lia. unfold slice_to.
    rewrite decide_False by lia. rewrite length_fmap. apply cc_omap_take.
  - intros ->. by rewrite decide_True.
  - rewrite <-list_fmap_compose. done.
  - intros Hpos. rewrite decide_False by lia. unfold slice_to.
    by rewrite decide_False by lia.
  - intros Hpos i Hi Hnull. rewrite decide_False by lia. unfold slice_to.
    rewrite decide_False by lia. rewrite length_fmap.
    by eapply cc_omap_take_null.
Qed.

End CardFacts.

(** ** [BlogBuilder.escape] *)

Section EscapeFacts.
Import BlogBuilder.

Local Abbreviation quote_char := StaticPrefetcher.dquote_char.

Local Abbreviation pipeline l :=
  (replace_all "'" "&#039;"
     (replace_all quote_char "&quot;"
        (replace_all ">" "&gt;"
           (replace_all "<" "&lt;" (replace_all "&" "&amp;" l))))).

Lemma bb_replace_all_app c r a b :
  replace_all c r (a ++ b) = replace_all c r a ++ replace_all c r b.
Proof. apply flat_map_app. Qed.

Lemma bb_pipeline_char x : pipeline [x] = entity x.
Proof.
  unfold entity.
  repeat case_decide; subst; try reflexivity.
  unfold replace_all.
  repeat (cbn [flat_map app]; rewrite decide_False by done).
  done.
Qed.

Lemma bb_pipeline l : pipeline l = flat_map entity l.
Proof.
  induction l as [|x l IH]; [done|].
  change (x :: l) with ([x] ++ l).
  rewrite !bb_replace_all_app, IH, bb_pipeline_char. done.
Qed.

Lemma bb_entity_clean x : Forall (λ c, ¬ markup c) (entity x).
Proof.
  unfold entity, markup.
  repeat case_decide; subst; try by_computation.
  apply Forall_cons. split; [|apply Forall_nil_2].
  intros [?|[?|[?|?]]]; congruence.
Qed.

(** X20.  [escape] replaces in five passes, yet no character is escaped
    twice: the result is the text with each of the five characters replaced
    once by its entity, every other character kept, and it holds none of
    the characters less-than, greater-than, double quote and apostrophe. *)
Theorem bb_escape_single_pass (str : string) :
  escape str
    = String.string_of_list_ascii
        (flat_map entity (String.list_ascii_of_string str)) ∧
  Forall (λ c, ¬ markup c) (String.list_ascii_of_string (escape str)).
Proof.
  unfold escape. rewrite bb_pipeline. split; [done|].
  rewrite String.list_ascii_of_string_of_list_ascii.
  induction (String.list_ascii_of_string str) as [|x l IH]; simpl;
    [apply Forall_nil_2|].
  apply Forall_app. split; [apply bb_entity_clean|done].
Qed.

Lemma bb_entity_inj x y r1 r2 :
  entity x ++ r1 = entity y ++ r2 → x = y ∧ r1 = r2.
Proof.
  unfold entity.
  repeat case_decide; subst; simpl; intros Heq; simplify_eq; done.
Qed.

Lemma bb_flat_map_inj l1 : ∀ l2,
  flat_map entity l1 = flat_map entity l2 → l1 = l2.
Proof.
  induction l1 as [|x l1 IH]; intros [|y l2]; simpl; [done|..].
  - unfold entity. repeat case_decide; done.
  - unfold entity. repeat case_decide; done.
  - intros [-> H]%bb_entity_inj. f_equal. by apply IH.
Qed.

(** X21.  [escape] loses nothing: two different texts have different
    escaped forms. *)
Theorem bb_escape_injective (a b : string) : escape a = escape b → a = b.
Proof.
  unfold escape. rewrite !bb_pipeline. intros H.
  apply (f_equal String.list_ascii_of_string) in H.
  rewrite !String.list_ascii_of_string_of_list_ascii in H.
  apply bb_flat_map_inj in H.
  apply (f_equal String.string_of_list_ascii) in H.
  by rewrite !String.string_of_list_ascii_of_string in H.
Qed.

End EscapeFacts.

(** ** The render draft: one fetch per article *)

Section RenderMore.
Import RenderDraft.
Variable K : Z.
Variable render : string → string.

Local Abbreviation prefetchArticle := (RenderDraft.prefetchArticle K).
Local Abbreviation processQueue := (RenderDraft.processQueue K).
Local Abbreviation step := (RenderDraft.step K render).
Local Abbreviation run := (RenderDraft.run K render).

Lemma rx_articleMdUrl_inj a b : articleMdUrl a = articleMdUrl b → a = b.
Proof.
  unfold articleMdUrl. intros H. simpl in H.
  injection H as H. by apply (al_append_inj a b) in H.
Qed.

Lemma rx_frame s s' :
  activePrefetches s' = activePrefetches s → tasks s' = tasks s →
  next_task s' = next_task s → fetch_log s' = fetch_log s →
  prefetchedSlugs s' = prefetchedSlugs s → htmlCache s' = htmlCache s →
  accounted s → accounted s'.
Proof. unfold accounted. by intros -> -> -> -> -> ->. Qed.

Lemma rx_prefetchArticle slug s :
  accounted s → accounted (prefetchArticle slug s).
Proof.
  intros Hs. unfold RenderDraft.prefetchArticle.
  case_decide as Hin; [done|].
  case_decide; [by apply (rx_frame s)|].
  destruct (renderer s); simpl; [|done].
  destruct Hs as (Ha & Hf & Hn & Hl & Hp).
  assert (tasks s !! next_task s = None) as Hfresh.
  { apply eq_None_not_Some. intros Hk. apply Hf in Hk. lia. }
  unfold accounted. simpl. split; [|split; [|split; [|split]]].
  - rewrite map_size_insert_None by done. lia.
  - intros t [->|[_ Hk]]%lookup_insert_is_Some; [lia|].
    apply Hf in Hk. lia.
  - apply NoDup_app. split; [done|]. split; [|apply NoDup_singleton].
    intros x Hx ->%list_elem_of_singleton. by apply Hl in Hx.
  - intros x. rewrite elem_of_app, list_elem_of_singleton, elem_of_union,
      elem_of_singleton, Hl.
    split.
    + intros [Hx|Hx]; [by right|]. left. apply rx_articleMdUrl_inj. congruence.
    + intros [->|Hx]; [by right|by left].
  - intros x. rewrite elem_of_union, elem_of_singleton, Hp. split.
    + intros [->|[?|(st & t & Hk)]]; [|by left|].
      * right. exists AwaitFetch, (next_task s). apply lookup_insert_eq.
      * right. exists st, t. rewrite lookup_insert_ne; [done|].
        intros <-. by rewrite Hfresh in Hk.
    + intros [?|(st & t & [[_ Hk]|[_ Hk]]%lookup_insert_Some)];
        [right; by left|left; congruence|right; right; eauto].
Qed.

Lemma rx_processQueue s : accounted s → accounted (processQueue s).
Proof.
  intros Hs. unfold RenderDraft.processQueue.
  destruct (prefetchQueue s) as [|next rest]; [done|].
  case_decide; [done|]. apply rx_prefetchArticle. by apply (rx_frame s).
Qed.

Lemma rx_resume s t slug st r :
  accounted s → tasks s !! t = Some (Task slug st) → r ≠ Rejected →
  accounted (resume K slug r (end_task t s)).
Proof.
  intros (Ha & Hf & Hn & Hl & Hp) Hk Hr.
  destruct r as [html|]; [|done]. unfold resume, finally_block.
  apply rx_processQueue. unfold accounted. simpl.
  split; [|split; [|split; [|split]]]; try done.
  - rewrite (sp_size_delete _ _ _ Hk). lia.
  - intros t' [_ Hk']%lookup_delete_is_Some. auto.
  - intros x. rewrite Hp. split.
    + intros [Hc|(st' & t' & Hk')].
      * left. rewrite lookup_insert_is_Some. destruct (decide (slug = x)); auto.
      * destruct (decide (t' = t)) as [->|Hne].
        -- left. rewrite Hk in Hk'. injection Hk' as -> _.
           rewrite lookup_insert_eq. eauto.
        -- right. exists st', t'. by rewrite lookup_delete_ne.
    + intros [[<-|[_ Hc]]%lookup_insert_is_Some|(st' & t' & Hk')].
      * right. eauto.
      * by left.
      * right. apply lookup_delete_Some in Hk' as [_ Hk']. eauto.
Qed.

Lemma rx_step s e : accounted s → accounted (step s e).
Proof.
  intros Hs. destruct e as [slug|t r|t r]; cbn [RenderDraft.step].
  - by apply rx_prefetchArticle.
  - unfold fetch_settles.
    destruct (tasks s !! t) as [[slug [|]]|] eqn:Hk; [|done..].
    destruct r as [|[|]]; cbn [renderFile_after_fetch].
    + by eapply rx_resume.
    + destruct Hs as (Ha & Hf & Hn & Hl & Hp). unfold accounted. simpl.
      split; [|split; [|split; [|split]]]; try done.
      * rewrite map_size_insert_Some by eauto. done.
      * intros t' [->|[_ ?]]%lookup_insert_is_Some; eauto.
      * intros x. rewrite Hp. split.
        -- intros [?|(st' & t' & Hk')]; [by left|right].
           destruct (decide (t' = t)) as [->|Hne].
           ++ exists AwaitText, t. rewrite lookup_insert_eq.
              rewrite Hk in Hk'. by injection Hk' as -> _.
           ++ exists st', t'. by rewrite lookup_insert_ne.
        -- intros [?|(st' & t' & [[-> Hk']|[_ Hk']]%lookup_insert_Some)];
             [by left|right..]; [|eauto].
           injection Hk' as -> _. eauto.
    + by eapply rx_resume.
  - unfold text_settles.
    destruct (tasks s !! t) as [[slug [|]]|] eqn:Hk; [done| |done].
    eapply rx_resume; [done..|]. by destruct r.
Qed.

Lemma rx_run s evs : accounted s → accounted (run s evs).
Proof.
  revert s. induction evs as [|e evs IH]; intros s Hs; [done|].
  simpl. by apply IH, rx_step.
Qed.

Lemma rx_init : accounted init.
Proof.
  unfold accounted. simpl. split; [done|]. split.
  { intros t [k Hk]. by rewrite lookup_empty in Hk. }
  split; [apply NoDup_nil_2|]. split; intros slug.
  - rewrite elem_of_nil, elem_of_empty. tauto.
  - rewrite elem_of_empty. split; [done|].
    intros [[h Hh]|(st & t & Hk)]; by rewrite lookup_empty in *.
Qed.

(** X22.  Unless [clear()] is called, the render draft fetches the
    markdown of an article at most once, whether the fetch succeeds or not:
    after any requests and settled fetches, the calls of [fetch] are
    pairwise distinct, an article was fetched exactly when its slug is
    marked prefetched, and every marked slug has its markup in [htmlCache]
    or its call still suspended.  [activePrefetches] counts the suspended
    calls. *)
Theorem rx_one_fetch_per_article (evs : list event) :
  let s := run init evs in
  NoDup (fetch_log s) ∧
  (∀ slug, (articleMdUrl slug, high) ∈ fetch_log s ↔ slug ∈ prefetchedSlugs s) ∧
  (∀ slug, slug ∈ prefetchedSlugs s ↔
     is_Some (htmlCache s !! slug) ∨ ∃ st t, tasks s !! t = Some (Task slug st)) ∧
  activePrefetches s = Z.of_nat (size (tasks s)).
Proof.
  intros s. destruct (rx_run init evs rx_init) as (Ha & Hf & Hn & Hl & Hp).
  done.
Qed.

End RenderMore.

(** ** The generator draft without [window.articleNavigator] *)

Section GeneratorFacts.
Import GeneratorDraft.
Variable K : Z.

Local Abbreviation prefetchArticle_fuel :=
  (GeneratorDraft.prefetchArticle_fuel K None).
Local Abbreviation prefetchArticle := (GeneratorDraft.prefetchArticle K None).
Local Abbreviation step := (GeneratorDraft.step K None).
Local Abbreviation run := (GeneratorDraft.run K None).

Lemma gd_total fuel slug s :
  (length (prefetchQueue s) < fuel)%nat →
  is_Some (prefetchArticle_fuel fuel slug s).
Proof.
  revert slug s. induction fuel as [|fuel IH]; intros slug s Hlen; [lia|].
  simpl. repeat case_decide; try done.
  unfold processQueue_with. simpl.
  destruct (prefetchQueue s) as [|next rest] eqn:Hq; [done|].
  case_decide; [done|]. apply IH. simpl in *. lia.
Qed.

Lemma gd_fuel fuel slug s s' :
  idle s ∧ (1 ≤ K → prefetchQueue s = []) →
  prefetchArticle_fuel fuel slug s = Some s' →
  idle s' ∧ (1 ≤ K → prefetchQueue s' = []).
Proof.
  revert slug s. induction fuel as [|fuel IH]; intros slug s Hs; [done|].
  simpl. case_decide; [by intros [= <-]|].
  destruct Hs as [(Hp & Hc & Ha & Ht & Hn & Hf) Hq].
  case_decide as HK.
  { intros [= <-]. split; [done|]. simpl. intros ?. lia. }
  unfold processQueue_with. simpl.
  rewrite Hq by lia. intros [= <-]. split; [|done].
  unfold idle. simpl. repeat split; try done; [|lia].
  by rewrite Hp, (right_id_L ∅ (∪)), difference_diag_L.
Qed.

Lemma gd_step s e :
  idle s ∧ (1 ≤ K → prefetchQueue s = []) →
  idle (step s e) ∧ (1 ≤ K → prefetchQueue (step s e) = []).
Proof.
  intros Hs. destruct e as [slug|t node]; cbn [GeneratorDraft.step].
  - unfold GeneratorDraft.prefetchArticle.
    destruct (gd_total (S (length (prefetchQueue s))) slug s) as [s' Hs'];
      [lia|].
    rewrite Hs'. simpl. by eapply gd_fuel.
  - unfold settles. destruct Hs as [(Hp & Hc & Ha & Ht & Hn & Hf) Hq].
    by rewrite Ht, lookup_empty.
Qed.

(** X23.  While [window.articleNavigator] is not set (no file of the
    repository sets it), the generator draft prefetches nothing: every
    call of [prefetchArticle] throws before its first [await] and is undone
    by [catch] and [finally], so after any events no slug is marked, the
    render cache is empty, no call of [fetch] was made and no slot is held;
    with at least one slot the object is exactly as constructed. *)
Theorem gd_without_navigator (evs : list event) :
  let s := run init evs in
  prefetched s = ∅ ∧ renderCache s = ∅ ∧ fetch_log s = [] ∧
  activePrefetches s = 0 ∧ (1 ≤ K → s = init).
Proof.
  intros s.
  assert (∀ l s0, idle s0 ∧ (1 ≤ K → prefetchQueue s0 = []) →
            idle (run s0 l) ∧ (1 ≤ K → prefetchQueue (run s0 l) = [])) as Hrun.
  { induction l as [|e l IH]; intros s0 H0; [done|].
    simpl. by apply IH, gd_step. }
  destruct (Hrun evs init) as [(Hp & Hc & Ha & Ht & Hn & Hf) Hq]; [done|].
  fold s in Hp, Hc, Ha, Ht, Hn, Hf, Hq.
  repeat split; try done.
  intros HK. specialize (Hq HK). destruct s. simpl in *. by subst.
Qed.

End GeneratorFacts.

(** ** The further properties at concrete inputs *)

(** Two slots; [clearCache] is called while [a] is in flight, and [a] is
    requested again. *)
Lemma sx_clearCache_keeps_slots_witness :
  let s := StaticPrefetcher.api_run 2 65 StaticPrefetcher.sample_parse
             StaticPrefetcher.init
             [StaticPrefetcher.Deliver (StaticPrefetcher.Prefetch "a" low);
              StaticPrefetcher.ClearCache;
              StaticPrefetcher.Deliver (StaticPrefetcher.Prefetch "a" low);
              StaticPrefetcher.Deliver (StaticPrefetcher.Prefetch "b" low)] in
  0 ≤ 2 ∧
  0 ≤ StaticPrefetcher.stats_active (StaticPrefetcher.getCacheStats s) ≤ 2.
Proof.
  intros s. split; [lia|].
  destruct (sx_clearCache_keeps_slots 2 65 StaticPrefetcher.sample_parse
              [StaticPrefetcher.Deliver (StaticPrefetcher.Prefetch "a" low);
               StaticPrefetcher.ClearCache;
               StaticPrefetcher.Deliver (StaticPrefetcher.Prefetch "a" low);
               StaticPrefetcher.Deliver (StaticPrefetcher.Prefetch "b" low)])
    as (_ & Hb & _); [lia|exact Hb].
Defined.

(** One slot: [a] in flight, [b] and [c] pending; the fetch of [a] fails. *)
Lemma sx_slot_handover_witness :
  let s := StaticPrefetcher.run 1 65 StaticPrefetcher.sample_parse
             StaticPrefetcher.init
             [StaticPrefetcher.Prefetch "a" low;
              StaticPrefetcher.Prefetch "b" low;
              StaticPrefetcher.Prefetch "c" low] in
  let s' := StaticPrefetcher.step 1 65 StaticPrefetcher.sample_parse s
              (StaticPrefetcher.FetchSettles 0 NetworkError) in
  StaticPrefetcher.activePrefetches s = 1 ∧
  StaticPrefetcher.prefetchQueue s' = ["c"]%string ∧
  StaticPrefetcher.fetch_log s' =
    StaticPrefetcher.fetch_log s ++ [("b"%string, high)].
Proof.
  intros s s'.
  destruct (sx_slot_handover 1 65 StaticPrefetcher.sample_parse
              [StaticPrefetcher.Prefetch "a" low;
               StaticPrefetcher.Prefetch "b" low;
               StaticPrefetcher.Prefetch "c" low]) as [Hfull Hnext]; [lia|].
  split; [apply Hfull; vm_compute; discriminate|].
  destruct (Hnext (StaticPrefetcher.FetchSettles 0 NetworkError)
              "b"%string ["c"%string]) as (Hq & Hf & _).
  - split; [by exists "a"%string|discriminate].
  - reflexivity.
  - split; [exact Hq|exact Hf].
Defined.

(** The text of [a] settles, then [a] is clicked; and the fetch of [a]
    fails, then [a] is clicked. *)
Lemma sx_navigate_after_prefetch_witness :
  let pg := {| StaticPrefetcher.page_main := Some "list"%string;
               StaticPrefetcher.page_title := "Blog";
               StaticPrefetcher.history := [];
               StaticPrefetcher.scroll_top := 40;
               StaticPrefetcher.page_loads := [] |} in
  let s := StaticPrefetcher.run 3 65 StaticPrefetcher.sample_parse
             StaticPrefetcher.init
             [StaticPrefetcher.Prefetch "a" low;
              StaticPrefetcher.FetchSettles 0 (Http true)] in
  let s1 := StaticPrefetcher.step 3 65 StaticPrefetcher.sample_parse s
              (StaticPrefetcher.TextSettles 0 (Some "text"%string)) in
  let s2 := StaticPrefetcher.step 3 65 StaticPrefetcher.sample_parse s
              (StaticPrefetcher.TextSettles 0 None) in
  (StaticPrefetcher.navigate "a" s1 pg).2 =
    {| StaticPrefetcher.page_main := Some "text"%string;
       StaticPrefetcher.page_title := EmptyString;
       StaticPrefetcher.history := ["a"%string];
       StaticPrefetcher.scroll_top := 0;
       StaticPrefetcher.page_loads := [] |} ∧
  StaticPrefetcher.page_loads (StaticPrefetcher.navigate "a" s2 pg).2
    = ["a"%string].
Proof.
  intros pg s s1 s2.
  destruct (sx_navigate_after_prefetch 3 65 StaticPrefetcher.sample_parse
              [StaticPrefetcher.Prefetch "a" low;
               StaticPrefetcher.FetchSettles 0 (Http true)] "a"%string pg)
    as [Hok Hfail].
  pose proof (Hok 0%nat "text"%string "text"%string "list"%string
                eq_refl eq_refl eq_refl) as H1.
  pose proof (Hfail (StaticPrefetcher.TextSettles 0 None)
                (conj eq_refl eq_refl)) as H2.
  cbv zeta in H1, H2. subst s1 s2 s. rewrite H1, H2. split; reflexivity.
Defined.

(** [maxConcurrent: 0]. *)
Lemma sx_zero_limit_never_fetches_witness :
  let s := StaticPrefetcher.run 0 65 StaticPrefetcher.sample_parse
             StaticPrefetcher.init
             [StaticPrefetcher.Prefetch "a" high;
              StaticPrefetcher.MouseEnter "b";
              StaticPrefetcher.Elapse 65;
              StaticPrefetcher.TimerFires 0] in
  0 ≤ 0 ∧ StaticPrefetcher.fetch_log s = [] ∧
  "a"%string ∈ StaticPrefetcher.prefetchQueue
      (StaticPrefetcher.run 0 65 StaticPrefetcher.sample_parse s
         [StaticPrefetcher.Prefetch "a" high]).
Proof.
  intros s. split; [lia|].
  destruct (sx_zero_limit_never_fetches 0 65 StaticPrefetcher.sample_parse
              [StaticPrefetcher.Prefetch "a" high;
               StaticPrefetcher.MouseEnter "b";
               StaticPrefetcher.Elapse 65;
               StaticPrefetcher.TimerFires 0]) as (Hf & _ & _ & _ & Hstay);
    [lia|].
  split; [exact Hf|]. apply Hstay. by_computation.
Defined.

(** The attribute that [createCard] writes for the slug [intro]. *)
Lemma ex_extractURL_shape_witness :
  ∃ a pre q1 body q2 post,
    Some "window.location.href='intro.html'"%string = Some a ∧
    a ≠ EmptyString ∧
    String.list_ascii_of_string a
      = pre ++ q1 :: body ++ StaticPrefetcher.dot_html ++ q2 :: post ∧
    StaticPrefetcher.is_quote q1 = true ∧
    StaticPrefetcher.is_quote q2 = true ∧ body ≠ [] ∧
    Forall (λ c, StaticPrefetcher.is_quote c = false)
      (body ++ StaticPrefetcher.dot_html) ∧
    "intro.html"%string = String.string_of_list_ascii body +:+ ".html".
Proof.
  apply (ex_extractURL_shape (Some "window.location.href='intro.html'"%string)
           "intro.html"%string).
  vm_compute. reflexivity.
Defined.

Lemma ex_extractURL_of_card_witness :
  let a := {| CardConstructor.slug := "intro";
              CardConstructor.title := "Intro";
              CardConstructor.category := "notes" |} in
  StaticPrefetcher.extractURL
    (Some (CardConstructor.onclick (CardConstructor.createCard a)))
    = Some "intro.html"%string.
Proof.
  intros a. apply (ex_extractURL_of_card a).
  - discriminate.
  - by_computation.
Defined.

(** Two slots, the fetch fallback: three touches, then one fetch fails. *)
Lemma am_slots_bounded_witness :
  let s := ArticlePrefetcher.run 2 50 false ArticlePrefetcher.init
             [ArticlePrefetcher.TouchStart "a";
              ArticlePrefetcher.TouchStart "b";
              ArticlePrefetcher.TouchStart "c";
              ArticlePrefetcher.FetchSettles 0 NetworkError] in
  0 ≤ 2 ∧ 0 ≤ ArticlePrefetcher.activePrefetches s ≤ 2.
Proof.
  intros s. split; [lia|].
  destruct (am_slots_bounded 2 50 false
              [ArticlePrefetcher.TouchStart "a";
               ArticlePrefetcher.TouchStart "b";
               ArticlePrefetcher.TouchStart "c";
               ArticlePrefetcher.FetchSettles 0 NetworkError]) as [_ Hb];
    [lia|exact Hb].
Defined.

(** A hover on [a] is waiting when [clear()] is called; the delay then
    passes and the cancelled timer is fired. *)
Lemma am_clear_cancels_witness :
  let s0 := ArticlePrefetcher.run 2 50 false ArticlePrefetcher.init
              [ArticlePrefetcher.MouseEnter "a"] in
  let s := ArticlePrefetcher.clear s0 in
  ArticlePrefetcher.hover_log
    (ArticlePrefetcher.run 2 50 false s
       [ArticlePrefetcher.Elapse 50; ArticlePrefetcher.TimerFires 0]) = [].
Proof.
  intros s0 s.
  destruct (am_clear_cancels 2 50 false [ArticlePrefetcher.MouseEnter "a"]
              [ArticlePrefetcher.Elapse 50; ArticlePrefetcher.TimerFires 0])
    as (_ & _ & _ & _ & _ & _ & Hlog).
  apply Hlog. intros slug. by_computation.
Defined.

(** [a] is prefetched by a touch; [prefetchAll] then finds the cards [b],
    [c], [a], [d]: [b] and [c] are linked, [d] stays pending. *)
Lemma al_prefetchAll_stops_witness :
  let s := ArticlePrefetcher.run 2 50 true ArticlePrefetcher.init
             [ArticlePrefetcher.TouchStart "a"] in
  let s' := ArticlePrefetcher.prefetchAll 2 true
              (["b"; "c"]%string ++ ["a"; "d"]%string) s in
  ArticlePrefetcher.links s' =
    ArticlePrefetcher.links s
    ++ (ArticlePrefetcher.articleUrl <$> ["b"; "c"]%string) ∧
  ArticlePrefetcher.prefetchQueue s' = ["d"]%string.
Proof.
  intros s s'.
  destruct (al_prefetchAll_stops 2 50 [ArticlePrefetcher.TouchStart "a"]
              ["b"; "c"]%string ["a"; "d"]%string) as (Hl & Hq & _).
  - lia.
  - reflexivity.
  - by_computation.
  - intros y Hy.
    repeat (apply elem_of_cons in Hy as [->|Hy]; [by_computation|]).
    by apply elem_of_nil in Hy.
  - left. by_computation.
  - split; [exact Hl|exact Hq].
Defined.

(** [tre] bound to [true], and a caller who passes [maxConcurrent: 0]. *)
Lemma cs_options_override_witness :
  ∃ o, Constructor.eval_options {[ "tre" := Constructor.boolean true ]}
         {[ "maxConcurrent" := Constructor.number 0 ]} = inr o ∧
       o !! "maxConcurrent" = Some (Constructor.number 0).
Proof.
  destruct (cs_options_override {[ "tre" := Constructor.boolean true ]}
              {[ "maxConcurrent" := Constructor.number 0 ]}
              (Constructor.boolean true) "maxConcurrent") as (o & Ho & Hk).
  - reflexivity.
  - exists o. split; [exact Ho|]. rewrite Hk. reflexivity.
Defined.

(** The list [a], [b], [c] with [b] current; the same list with [d]
    current; and the list with a failed entry before [b]. *)
Lemma an_neighbours_witness :
  let art s := {| CardConstructor.slug := s; CardConstructor.title := s;
                  CardConstructor.category := "notes" |} in
  ArticleNavigator.renderArticleNavigation
    ([Some (art "a"%string)]
     ++ Some (art "b"%string) :: [Some (art "c"%string)]) "b"
  = ArticleNavigator.Returns
      (Some {| ArticleNavigator.prevArticle := Some (art "a"%string);
               ArticleNavigator.nextArticle := Some (art "c"%string) |}).
Proof.
  intros art.
  apply (an_neighbours [Some (art "a"%string)] [Some (art "c"%string)]
           (art "b"%string)).
  apply Forall_cons. split; [discriminate|apply Forall_nil_2].
Defined.

Lemma an_unlisted_witness :
  let art s := {| CardConstructor.slug := s; CardConstructor.title := s;
                  CardConstructor.category := "notes" |} in
  ArticleNavigator.renderArticleNavigation
    [Some (art "a"); Some (art "b")]%string "d"
  = ArticleNavigator.Returns
      (Some {| ArticleNavigator.prevArticle := None;
               ArticleNavigator.nextArticle := Some (art "a"%string) |}).
Proof.
  intros art.
  apply (an_unlisted [Some (art "a"%string); Some (art "b"%string)]
           "d"%string); [discriminate|].
  repeat (apply Forall_cons; split; [discriminate|]). apply Forall_nil_2.
Defined.

Lemma an_null_entry_throws_witness :
  let art s := {| CardConstructor.slug := s; CardConstructor.title := s;
                  CardConstructor.category := "notes" |} in
  ArticleNavigator.renderArticleNavigation
    ([Some (art "a"%string)] ++ None :: [Some (art "b"%string)]) "b"
  = ArticleNavigator.Throws.
Proof.
  intros art.
  apply (an_null_entry_throws [Some (art "a"%string)]
           [Some (art "b"%string)] "b"%string).
  apply Forall_cons. split; [discriminate|apply Forall_nil_2].
Defined.

(** A limit of two with a failed article in second place: one card,
    though a third article loaded. *)
Lemma cc_renderCards_limit_witness :
  let art s := {| CardConstructor.slug := s; CardConstructor.title := s;
                  CardConstructor.category := "notes" |} in
  ∃ cards,
    CardConstructor.renderCards (Some [])
      (Some 2) [Some (art "a"); None; Some (art "b")]%string = Some cards ∧
    cards = [CardConstructor.createCard (art "a"%string)] ∧
    (length cards < 2)%nat.
Proof.
  intros art.
  destruct (cc_renderCards_limit [] []
              2 [Some (art "a"); None; Some (art "b")]%string)
    as (cards & all & Hc & _ & _ & _ & _ & _ & Heq & Hlt).
  exists cards. split; [exact Hc|]. split.
  - rewrite Heq by lia. reflexivity.
  - apply (Hlt ltac:(lia) 1%nat); [simpl; lia|reflexivity].
Defined.

Lemma bb_escape_injective_witness :
  BlogBuilder.escape "a<b" = "a&lt;b"%string ∧ "a<b"%string = "a<b"%string.
Proof.
  split; [reflexivity|].
  apply (bb_escape_injective "a<b" "a<b"). reflexivity.
Defined.

(** [a] cached, [b] failed, [c] in flight, [d] pending. *)
Lemma sx_stats_add_up_witness :
  let s := StaticPrefetcher.run 1 65 StaticPrefetcher.sample_parse
             StaticPrefetcher.init
             [StaticPrefetcher.Prefetch "a" low;
              StaticPrefetcher.FetchSettles 0 (Http true);
              StaticPrefetcher.TextSettles 0 (Some "text"%string);
              StaticPrefetcher.Prefetch "b" low;
              StaticPrefetcher.FetchSettles 1 (Http false);
              StaticPrefetcher.Prefetch "c" low;
              StaticPrefetcher.Prefetch "d" low] in
  "d"%string ∈ StaticPrefetcher.prefetchQueue s ∧
  "d"%string ∉ StaticPrefetcher.prefetched s.
Proof.
  intros s.
  assert ("d"%string ∈ StaticPrefetcher.prefetchQueue s) as Hd
    by by_computation.
  split; [exact Hd|].
  destruct (sx_stats_add_up 1 65 StaticPrefetcher.sample_parse
              [StaticPrefetcher.Prefetch "a" low;
               StaticPrefetcher.FetchSettles 0 (Http true);
               StaticPrefetcher.TextSettles 0 (Some "text"%string);
               StaticPrefetcher.Prefetch "b" low;
               StaticPrefetcher.FetchSettles 1 (Http false);
               StaticPrefetcher.Prefetch "c" low;
               StaticPrefetcher.Prefetch "d" low]) as (_ & _ & Hq).
  apply Hq. exact Hd.
Defined.

(** Link prefetch: a touch on [a], a hover on [b] that fires, a touch on
    [a] again. *)
Lemma al_link_mode_witness :
  let s := ArticlePrefetcher.run 2 50 true ArticlePrefetcher.init
             [ArticlePrefetcher.TouchStart "a";
              ArticlePrefetcher.MouseEnter "b";
              ArticlePrefetcher.Elapse 50;
              ArticlePrefetcher.TimerFires 0;
              ArticlePrefetcher.TouchStart "a"] in
  "a"%string ∈ ArticlePrefetcher.prefetchedUrls s ∧
  ArticlePrefetcher.articleUrl "a" ∈ ArticlePrefetcher.links s ∧
  NoDup (ArticlePrefetcher.links s).
Proof.
  intros s.
  assert ("a"%string ∈ ArticlePrefetcher.prefetchedUrls s) as Ha
    by by_computation.
  destruct (al_link_mode 2 50
              [ArticlePrefetcher.TouchStart "a";
               ArticlePrefetcher.MouseEnter "b";
               ArticlePrefetcher.Elapse 50;
               ArticlePrefetcher.TimerFires 0;
               ArticlePrefetcher.TouchStart "a"]) as (_ & _ & _ & Hn & Hl).
  split; [exact Ha|]. split; [|exact Hn]. apply Hl. exact Ha.
Defined.

(** Two writes for [a] around a write for [b], a [clear], a write for [c]. *)
Lemma pc_container_is_map_witness :
  let inner_slug := λ _ _ : string, @None nat in
  let inner_markup := λ (h : string) (_ : nat), h in
  let inner_remove := λ (h : string) (_ : nat), h in
  let odd_selector := λ (_ : string) (_ : list (string * string)),
                        @PrerenderDraft.SyntaxError (option PrerenderDraft.position) in
  let ops := [PrerenderDraft.PrerenderArticle "a" "one";
              PrerenderDraft.PrerenderArticle "b" "two";
              PrerenderDraft.PrerenderArticle "a" "three";
              PrerenderDraft.Clear;
              PrerenderDraft.PrerenderArticle "c" "four";
              PrerenderDraft.PrerenderArticle "c" "five"] in
  let c := PrerenderDraft.api_run inner_slug inner_remove odd_selector None
             ops in
  PrerenderDraft.getPrerendered inner_slug inner_markup odd_selector "c" c
    = PrerenderDraft.Done (Some "five"%string) ∧
  PrerenderDraft.getPrerendered inner_slug inner_markup odd_selector "a" c
    = PrerenderDraft.Done None.
Proof.
  intros inner_slug inner_markup inner_remove odd_selector ops c.
  assert (Forall (PrerenderDraft.plain_call inner_slug) ops) as Hops.
  { repeat (apply Forall_cons; split; [try done|]); apply Forall_nil_2. }
  split.
  - apply (pc_container_is_map inner_slug inner_markup inner_remove
             odd_selector ops "c"%string eq_refl Hops).
  - apply (pc_container_is_map inner_slug inner_markup inner_remove
             odd_selector ops "a"%string eq_refl Hops).
Defined.

Lemma bb_escape_single_pass_witness :
  BlogBuilder.escape "R&D <b>'x'</b>"
    = "R&amp;D &lt;b&gt;&#039;x&#039;&lt;/b&gt;"%string.
Proof.
  rewrite (proj1 (bb_escape_single_pass "R&D <b>'x'</b>")). reflexivity.
Defined.

(** Two slots: [a] fails, [b] succeeds, both are requested again. *)
Lemma rx_one_fetch_per_article_witness :
  let s := RenderDraft.run 2 (λ markdown, markdown) RenderDraft.init
             [RenderDraft.Prefetch "a";
              RenderDraft.Prefetch "b";
              RenderDraft.FetchSettles 0 NetworkError;
              RenderDraft.FetchSettles 1 (Http true);
              RenderDraft.TextSettles 1 (Some "text"%string);
              RenderDraft.Prefetch "a";
              RenderDraft.Prefetch "b"] in
  "a"%string ∈ RenderDraft.prefetchedSlugs s ∧
  (RenderDraft.articleMdUrl "a", high) ∈ RenderDraft.fetch_log s ∧
  NoDup (RenderDraft.fetch_log s).
Proof.
  intros s.
  assert ("a"%string ∈ RenderDraft.prefetchedSlugs s) as Ha by by_computation.
  destruct (rx_one_fetch_per_article 2 (λ markdown, markdown)
              [RenderDraft.Prefetch "a";
               RenderDraft.Prefetch "b";
               RenderDraft.FetchSettles 0 NetworkError;
               RenderDraft.FetchSettles 1 (Http true);
               RenderDraft.TextSettles 1 (Some "text"%string);
               RenderDraft.Prefetch "a";
               RenderDraft.Prefetch "b"]) as (Hn & Hl & _).
  split; [exact Ha|]. split; [|exact Hn]. apply Hl. exact Ha.
Defined.

(** The default limit of two, three requests. *)
Lemma gd_without_navigator_witness :
  1 ≤ 2 ∧
  GeneratorDraft.run 2 None GeneratorDraft.init
    [GeneratorDraft.Request "a"; GeneratorDraft.Request "b";
     GeneratorDraft.Request "a"] = GeneratorDraft.init.
Proof.
  split; [lia|].
  destruct (gd_without_navigator 2
              [GeneratorDraft.Request "a"; GeneratorDraft.Request "b";
               GeneratorDraft.Request "a"]) as (_ & _ & _ & _ & Hinit).
  apply Hinit. lia.
Defined.

(** The markdown of [b] answers 404; and the metadata of [a], listed
    before [b], had failed to load. *)
Lemma an_load_missing_markdown_witness :
  let art s := {| CardConstructor.slug := s; CardConstructor.title := s;
                  CardConstructor.category := "notes" |} in
  let m := {| ArticleNavigator.meta_slug := None;
              ArticleNavigator.meta_title := Some "Second"%string;
              ArticleNavigator.meta_category := Some "notes"%string |} in
  let p := {| ArticleNavigator.main := Some ArticleNavigator.Untouched;
              ArticleNavigator.document_title := "Blog" |} in
  ArticleNavigator.loadArticle (λ x, x) (λ x, x)
    [Some (art "a"%string); Some (art "b"%string)] "b" (Some m)
    (Http false) None p
  = {| ArticleNavigator.main :=
         Some (ArticleNavigator.Shows
                 (ArticleNavigator.ArticlePage "Second" "notes"
                    RenderDraft.error_markup
                    (Some {| ArticleNavigator.prevArticle :=
                               Some (art "a"%string);
                             ArticleNavigator.nextArticle := None |})));
       ArticleNavigator.document_title := "Second - Brutal Blog Box" |}.
Proof.
  intros art m p.
  destruct (an_load_missing_markdown (λ x, x) (λ x, x)
              [Some (art "a"%string); Some (art "b"%string)] "b"%string
              "Second"%string "notes"%string m (Http false) None
              (Some {| ArticleNavigator.prevArticle := Some (art "a"%string);
                       ArticleNavigator.nextArticle := None |})
              p ArticleNavigator.Untouched eq_refl) as (_ & Hpage & _).
  apply Hpage.
  - reflexivity.
  - reflexivity.
  - reflexivity.
  - left. discriminate.
Defined.

Lemma an_load_after_null_entry_witness :
  let art s := {| CardConstructor.slug := s; CardConstructor.title := s;
                  CardConstructor.category := "notes" |} in
  let m := {| ArticleNavigator.meta_slug := None;
              ArticleNavigator.meta_title := Some "Second"%string;
              ArticleNavigator.meta_category := Some "notes"%string |} in
  let p := {| ArticleNavigator.main := Some ArticleNavigator.Untouched;
              ArticleNavigator.document_title := "Blog" |} in
  ArticleNavigator.loadArticle (λ x, x) (λ x, x)
    ([] ++ None :: [Some (art "b"%string)]) "b" (Some m)
    (Http true) (Some "text"%string) p
  = {| ArticleNavigator.main :=
         Some (ArticleNavigator.Shows ArticleNavigator.NotFound);
       ArticleNavigator.document_title := "Blog" |}.
Proof.
  intros art m p.
  apply (an_load_after_null_entry (λ x, x) (λ x, x) []
           [Some (art "b"%string)] "b"%string m "text"%string p).
  apply Forall_nil_2.
Defined.
